(** * Gauss-Newton face-tracking solver: a shallow embedding

    This development embeds [src/gauss_newton_solver.cpp] and states the
    properties its specification attributes to it.

    - C++ [float] is IEEE-754 binary32, modelled by the Standard Library's
      [spec_float] at precision 24 and maximal exponent 128, with
      round-to-nearest-even operations.
    - C++ [int] is modelled by [Z]; host vectors ([std::vector<float>]) and
      device arrays ([util::DeviceArray<float>]) are lists; a host access
      [v[i]] outside the vector is undefined behaviour and is modelled by
      [None].
    - The face model, the CUDA kernels, [powf], the arithmetic inside the
      cuBLAS routines and the glm and Eigen small-matrix products of the
      host path live outside the embedded file and are interfaces (type
      classes) here; what the embedded file itself indexes (vectors, the
      copy of the vertices, blocks of Eigen maps) is modelled with its
      faults. *)

From Stdlib Require Import ZArith Lia Bool.
From Stdlib Require Import Floats.SpecFloat.
From stdpp Require Import base tactics option list.

Local Open Scope Z_scope.

(* ================================================================== *)
(** ** Single-precision arithmetic *)

Module F32.

Definition prec : Z := 24.
Definition emax : Z := 128.

Definition float : Set := spec_float.

(** Conversion of an [int] literal, as in [wReg * 2] or [std::powf(10, _)]. *)
Definition of_int (n : Z) : float := binary_normalize prec emax n 0 false.

Definition zero : float := Eval cbv in of_int 0.
Definition one : float := Eval cbv in of_int 1.
Definition two : float := Eval cbv in of_int 2.
Definition ten : float := Eval cbv in of_int 10.
Definition minus_one : float := Eval cbv in of_int (-1).

Definition add : float -> float -> float := SFadd prec emax.
Definition sub : float -> float -> float := SFsub prec emax.
Definition mul : float -> float -> float := SFmul prec emax.
Definition div : float -> float -> float := SFdiv prec emax.

(** [a < b] and [a <= b]; both are [false] as soon as one side is NaN. *)
Definition ltb : float -> float -> bool := SFltb.
Definition leb : float -> float -> bool := SFleb.

(** The values a [float] variable can hold: canonical mantissa and
    exponent in range. *)
Definition valid (x : float) : Prop := valid_binary prec emax x = true.

Definition is_zero (x : float) : bool :=
  match x with S754_zero _ => true | _ => false end.

(** [std::max(a, b)] is [(a < b) ? b : a]. *)
Definition std_max (a b : float) : float := if ltb a b then b else a.

(** [std::min(a, b)] is [(b < a) ? b : a]. *)
Definition std_min (a b : float) : float := if ltb b a then b else a.

End F32.

Declare Scope f32_scope.
Delimit Scope f32_scope with f32.
Infix "+" := F32.add : f32_scope.
Infix "-" := F32.sub : f32_scope.
Infix "*" := F32.mul : f32_scope.
Infix "/" := F32.div : f32_scope.

Abbreviation float := F32.float.
Abbreviation fvec := (list F32.float).

(* ================================================================== *)
(** ** Vectors and loops *)

(** [v[i]] on a [std::vector]: no bounds check in the source, so an index
    outside the vector has no defined result. *)
Definition at_ (v : fvec) (i : Z) : option float :=
  if decide (0 <= i) then v !! Z.to_nat i else None.

(** [v[i]] on a vector of any element type. *)
Definition elem_at {A : Type} (v : list A) (i : Z) : option A :=
  if decide (0 <= i) then v !! Z.to_nat i else None.

(** [v[i] = a]. *)
Definition store (v : fvec) (i : Z) (a : float) : option fvec :=
  if decide (0 <= i < Z.of_nat (length v)) then Some (<[Z.to_nat i := a]> v)
  else None.

(** Device-side read of element [i]; the kernels are only ever run on
    buffers that hold the index. *)
Definition dev (v : fvec) (i : Z) : float := default F32.zero (at_ v i).

(** [for (int i = 0; i < n; ++i) body], the body possibly faulting. *)
Fixpoint for_each {S : Type} (body : Z -> S -> option S) (idx : list Z)
    (s : S) : option S :=
  match idx with
  | [] => Some s
  | i :: rest => s' ← body i s; for_each body rest s'
  end.

Definition for_int {S : Type} (n : Z) (body : Z -> S -> option S) (s : S)
    : option S :=
  for_each body (seqZ 0 n) s.

(** [for (; i < budget; ++i) { advance; if (below) break; redirect; }]
    with [budget] passes left: the shape of both conjugate-gradient loops,
    whose bound does not change while they run. *)
Fixpoint break_loop {S : Type} (advance : S -> S) (below : S -> bool)
    (on_break redirect : S -> S) (budget : nat) (s : S) : S :=
  match budget with
  | O => s
  | S budget' =>
      let s1 := advance s in
      if below s1 then on_break s1
      else break_loop advance below on_break redirect budget' (redirect s1)
  end.

(* ================================================================== *)
(** ** Data model *)

(** [glm::vec3], [glm::vec4], [glm::mat3] and [glm::mat4] (column major:
    [m[c][r]]). *)
Record vec3 := Vec3 { v3x : float; v3y : float; v3z : float }.
Record vec4 := Vec4 { v4x : float; v4y : float; v4z : float; v4w : float }.
Record mat3 := Mat3 { m3c0 : vec3; m3c1 : vec3; m3c2 : vec3 }.
Record mat4 := Mat4 { m4c0 : vec4; m4c1 : vec4; m4c2 : vec4; m4c3 : vec4 }.
Record vec2 := Vec2 { v2x : float; v2y : float }.

(** [projection[0][0]], the focal entry. *)
Definition focal (P : mat4) : float := v4x (m4c0 P).

Definition set_focal (P : mat4) (a : float) : mat4 :=
  Mat4 (Vec4 a (v4y (m4c0 P)) (v4z (m4c0 P)) (v4w (m4c0 P)))
       (m4c1 P) (m4c2 P) (m4c3 P).

(** The members of [Face] the solver reads or writes. *)
Record Face := MkFace {
  m_rotation_coefficients : vec3;
  m_translation_coefficients : vec3;
  m_shape_coefficients : fvec;
  m_expression_coefficients : fvec;
  m_shape_std_dev : fvec;
  m_expression_std_dev : fvec;
  m_number_of_vertices : Z;
  m_shape_basis : fvec;
  m_expression_basis : fvec;
  m_current_face_gpu : list vec3
}.

Definition set_rotation (f : Face) (r : vec3) : Face :=
  MkFace r (m_translation_coefficients f) (m_shape_coefficients f)
    (m_expression_coefficients f) (m_shape_std_dev f) (m_expression_std_dev f)
    (m_number_of_vertices f) (m_shape_basis f) (m_expression_basis f)
    (m_current_face_gpu f).

Definition set_translation (f : Face) (t : vec3) : Face :=
  MkFace (m_rotation_coefficients f) t (m_shape_coefficients f)
    (m_expression_coefficients f) (m_shape_std_dev f) (m_expression_std_dev f)
    (m_number_of_vertices f) (m_shape_basis f) (m_expression_basis f)
    (m_current_face_gpu f).

Definition set_shape (f : Face) (c : fvec) : Face :=
  MkFace (m_rotation_coefficients f) (m_translation_coefficients f) c
    (m_expression_coefficients f) (m_shape_std_dev f) (m_expression_std_dev f)
    (m_number_of_vertices f) (m_shape_basis f) (m_expression_basis f)
    (m_current_face_gpu f).

Definition set_expression (f : Face) (c : fvec) : Face :=
  MkFace (m_rotation_coefficients f) (m_translation_coefficients f)
    (m_shape_coefficients f) c (m_shape_std_dev f) (m_expression_std_dev f)
    (m_number_of_vertices f) (m_shape_basis f) (m_expression_basis f)
    (m_current_face_gpu f).

Definition set_current_face (f : Face) (g : list vec3) : Face :=
  MkFace (m_rotation_coefficients f) (m_translation_coefficients f)
    (m_shape_coefficients f) (m_expression_coefficients f) (m_shape_std_dev f)
    (m_expression_std_dev f) (m_number_of_vertices f) (m_shape_basis f)
    (m_expression_basis f) g.

(** [m_params]: the solver configuration. *)
Record Params := MkParams {
  num_gn_iterations : Z;
  num_pcg_iterations : Z;
  num_shape_coefficients : Z;
  num_expression_coefficients : Z;
  regularisation_weight_exponent : float;
  kNearZero : float;
  kTolerance : float
}.

(* ================================================================== *)
(** ** Collaborators outside the embedded file *)

(** The face model ([Face::computeFace], [Face::computeModelMatrix],
    [Face::computeRotationDerivatives]). *)
Class FaceModel := {
  face_geometry : Face -> list vec3;
  computeModelMatrix : Face -> mat4;
  computeRotationDerivatives : Face -> mat3 * mat3 * mat3
}.

(** Modelled from the spec: [Face::computeFace] is not part of the embedded
    file; the specification describes it as regenerating the current vertex
    positions from the coefficients, so it rewrites [m_current_face_gpu]
    and nothing else. *)
Definition computeFace `{FaceModel} (face : Face) : Face :=
  set_current_face face (face_geometry face).

(** [PriorSparseFeatures::get().getPriorIds()]. *)
Class PriorSparseFeatures := { getPriorIds : list Z }.

(** [std::powf]. *)
Class Libm := { powf : float -> float -> float }.

(** What one cuBLAS thread block computes.  The order in which a device
    reduction adds its terms, and whether a multiply-add is fused, are not
    fixed by the cuBLAS interface, so the three scalar kernels are left
    open; the shapes and the data movement around them are fixed below. *)
Class CuBLAS := {
  gemv_kernel : float -> fvec -> fvec -> float;
  dot_kernel : fvec -> fvec -> float;
  axpy_kernel : float -> float -> float -> float
}.

(** The arguments the Jacobian kernel receives by value. *)
Record JacobianArgs := MkJacobianArgs {
  ja_nFeatures : Z;
  ja_nShapeCoeffs : Z;
  ja_nExpressionCoeffs : Z;
  ja_nUnknowns : Z;
  ja_nResiduals : Z;
  ja_face : Face;
  ja_face_pose : mat4;
  ja_rotation_derivatives : mat3 * mat3 * mat3;
  ja_projection : mat4;
  ja_jacobian_world_11 : float;
  ja_ids : list Z;
  ja_key_points : list vec2
}.

(** The two CUDA kernels called by [solve]: each rewrites the device
    Jacobian and residual buffers it is handed. *)
Class CudaKernels := {
  computeJacobianSparseFeatures : JacobianArgs -> fvec * fvec -> fvec * fvec;
  computeRegularizer :
    Face -> Z -> Z -> Z -> float -> fvec * fvec -> fvec * fvec
}.

(** The glm and Eigen small-matrix products of the host path, applied to
    what the loop over the features has looked up.

    - [sparse_feature_pose args local_coord observed] (lines 129-172): the
      residual of a feature and the entries of its two Jacobian rows in the
      seven pose columns, from the local coordinate of its vertex and its
      observation; the entry of row [k] (0 or 1) and column [c] (0 to 6) is
      [snd (...) k c].
    - [sparse_feature_basis args local_coord block] (lines 176-184): the
      product [jacobian_proj_world_local * block] for a 3 x n block of a
      basis, given column by column; the entry of row [k] and column [j] of
      the product is [... k j]. *)
Class HostFeatureAlgebra := {
  sparse_feature_pose : JacobianArgs -> vec3 -> vec2 -> vec2 * (Z -> Z -> float);
  sparse_feature_basis :
    JacobianArgs -> vec3 -> list (list float) -> Z -> Z -> float
}.

(* ================================================================== *)
(** ** Device buffers and the cuBLAS level-1/level-2 routines *)

(** [util::DeviceArray<float>(n)]. *)
Definition device_array (n : Z) : fvec := replicate (Z.to_nat n) F32.zero.

(** [a.memset(0)]. *)
Definition memset0 (a : fvec) : fvec := replicate (length a) F32.zero.

(** The first [n] entries of a device buffer. *)
Definition first_n (n : Z) (x : fvec) : fvec := (fun k => dev x k) <$> seqZ 0 n.

(** Writing [n] computed entries over the start of buffer [y]. *)
Definition overwrite (computed y : fvec) : fvec :=
  computed ++ drop (length computed) y.

Inductive cublasOperation_t := CUBLAS_OP_N | CUBLAS_OP_T.

(** Row [i] and column [j] of the column-major [m] x [n] matrix [A] with
    leading dimension [lda]. *)
Definition matrix_row (A : fvec) (lda n i : Z) : fvec :=
  (fun k => dev A (i + k * lda)) <$> seqZ 0 n.

Definition matrix_col (A : fvec) (lda m j : Z) : fvec :=
  (fun k => dev A (k + j * lda)) <$> seqZ 0 m.

(** [cublasSgemv] with [beta = 0], [incx = incy = 1]:
    [y = alpha * op(A) * x]. *)
Definition cublasSgemv `{CuBLAS} (trans : cublasOperation_t) (m n : Z)
    (alpha : float) (A : fvec) (lda : Z) (x y : fvec) : fvec :=
  match trans with
  | CUBLAS_OP_N =>
      overwrite ((fun i => gemv_kernel alpha (matrix_row A lda n i) (first_n n x))
                   <$> seqZ 0 m) y
  | CUBLAS_OP_T =>
      overwrite ((fun j => gemv_kernel alpha (matrix_col A lda m j) (first_n m x))
                   <$> seqZ 0 n) y
  end.

Definition cublasSdot `{CuBLAS} (n : Z) (x y : fvec) : float :=
  dot_kernel (first_n n x) (first_n n y).

(** [y = alpha * x + y]. *)
Definition cublasSaxpy `{CuBLAS} (n : Z) (alpha : float) (x y : fvec) : fvec :=
  overwrite ((fun k => axpy_kernel alpha (dev x k) (dev y k)) <$> seqZ 0 n) y.

(** [x = alpha * x]. *)
Definition cublasSscal (n : Z) (alpha : float) (x : fvec) : fvec :=
  overwrite ((fun k => (alpha * dev x k)%f32) <$> seqZ 0 n) x.

(** [y = x]. *)
Definition cublasScopy (n : Z) (x y : fvec) : fvec := overwrite (first_n n x) y.

(** [util::copy(dst, src, n)] between a device array and a host vector. *)
Definition util_copy (dst src : fvec) (n : Z) : fvec := overwrite (first_n n src) dst.

(** Modelled from the spec: the kernel [elementwiseMultiplication] is not
    part of the embedded file; the specification gives [z = M (.) r], one
    product per element. *)
Definition elementwiseMultiplication (n : Z) (M r z : fvec) : fvec :=
  overwrite ((fun k => (dev M k * dev r k)%f32) <$> seqZ 0 n) z.

(** Sum of the squares of a column, accumulated term by term. *)
Definition sum_of_squares (col : fvec) : float :=
  foldl (fun acc a => (acc + a * a)%f32) F32.zero col.

(** Modelled from the spec: the kernel [computeJacobiPreconditioner] is not
    part of the embedded file; the specification gives
    [M = 1/(2 diag(JtJ))], obtained without forming [JtJ] by accumulating
    the sum of squares of each column. *)
Definition computeJacobiPreconditioner (nUnknowns nResiduals : Z)
    (jacobian M : fvec) : fvec :=
  overwrite
    ((fun j => (F32.one /
                (F32.two * sum_of_squares (matrix_col jacobian nResiduals nResiduals j)))%f32)
       <$> seqZ 0 nUnknowns) M.

(* ================================================================== *)
(** ** The conjugate-gradient solvers *)

(** The locals of [solveUpdatePCG].  The last three fields are bookkeeping
    that the source does not store: how often the loop body was entered,
    whether the loop left through [break], and the right operand of every
    [/] executed, oldest first. *)
Record PcgState := MkPcg {
  pcg_x : fvec;
  pcg_r : fvec;
  pcg_p : fvec;
  pcg_z : fvec;
  pcg_zTr_old : float;
  pcg_zTr : float;
  pcg_i : Z;
  pcg_entered : nat;
  pcg_broke : bool;
  pcg_divisors : list float
}.

(** The locals of [solveUpdateCG], with the same bookkeeping. *)
Record CgState := MkCg {
  cg_x : fvec;
  cg_r : fvec;
  cg_p : fvec;
  cg_rTr_old : float;
  cg_rTr : float;
  cg_i : Z;
  cg_entered : nat;
  cg_broke : bool;
  cg_divisors : list float
}.

Section Solvers.
Context `{CuBLAS}.
Variable m_params : Params.
Variables nUnknowns nResiduals : Z.
Variable jacobian : fvec.
Variable alphaLHS : float.

(** [JTJp]: the two matrix-vector products that apply [JtJ] to [p]
    (lines 498-499 and 552-553). *)
Definition apply_JTJ (p : fvec) : fvec :=
  let alpha := F32.one in
  let Jp :=
    cublasSgemv CUBLAS_OP_N nResiduals nUnknowns alphaLHS jacobian nResiduals p
      (device_array nResiduals) in
  cublasSgemv CUBLAS_OP_T nResiduals nUnknowns alpha jacobian nResiduals Jp
    (device_array nUnknowns).

(** The iteration budget, [std::min(nUnknowns, m_params.num_pcg_iterations)]. *)
Definition inner_budget : Z := Z.min nUnknowns (num_pcg_iterations m_params).

(** Lines 497-515 of the PCG loop body, up to the new [zTr]. *)
Definition pcg_advance (M : fvec) (s : PcgState) : PcgState :=
  let JTJp := apply_JTJ (pcg_p s) in
  let pTJTJp := cublasSdot nUnknowns (pcg_p s) JTJp in
  let den := F32.std_max pTJTJp (kNearZero m_params) in
  let ak := (pcg_zTr_old s / den)%f32 in
  let x := cublasSaxpy nUnknowns ak (pcg_p s) (pcg_x s) in
  let ak := (ak * F32.minus_one)%f32 in
  let r := cublasSaxpy nUnknowns ak JTJp (pcg_r s) in
  let z := elementwiseMultiplication nUnknowns M r (pcg_z s) in
  let zTr := cublasSdot nUnknowns z r in
  MkPcg x r (pcg_p s) z (pcg_zTr_old s) zTr (pcg_i s)
    (S (pcg_entered s)) (pcg_broke s) (pcg_divisors s ++ [den]).

(** Lines 519-525 and the [++i] of the loop header. *)
Definition pcg_redirect (s : PcgState) : PcgState :=
  let alpha := F32.one in
  let den := F32.std_max (pcg_zTr_old s) (kNearZero m_params) in
  let bk := (pcg_zTr s / den)%f32 in
  let p := cublasSscal nUnknowns bk (pcg_p s) in
  let p := cublasSaxpy nUnknowns alpha (pcg_z s) p in
  MkPcg (pcg_x s) (pcg_r s) p (pcg_z s) (pcg_zTr s) (pcg_zTr s)
    (pcg_i s + 1) (pcg_entered s) (pcg_broke s) (pcg_divisors s ++ [den]).

Definition pcg_break (s : PcgState) : PcgState :=
  MkPcg (pcg_x s) (pcg_r s) (pcg_p s) (pcg_z s) (pcg_zTr_old s) (pcg_zTr s)
    (pcg_i s) (pcg_entered s) true (pcg_divisors s).

Definition pcg_below (s : PcgState) : bool :=
  F32.ltb (pcg_zTr s) (kTolerance m_params).

(** The loop of lines 495-526. *)
Definition pcg_loop (M : fvec) (budget : nat) (s : PcgState) : PcgState :=
  break_loop (pcg_advance M) pcg_below pcg_break pcg_redirect budget s.

(** Lines 467-494: the state on entry to the loop. *)
Definition pcg_init (residuals x : fvec) (alphaRHS : float) : fvec * PcgState :=
  let beta := F32.zero in
  let x := memset0 x in
  let r := device_array nUnknowns in
  let p := device_array nUnknowns in
  let M := device_array nUnknowns in
  let z := device_array nUnknowns in
  let M := computeJacobiPreconditioner nUnknowns nResiduals jacobian M in
  let r :=
    cublasSgemv CUBLAS_OP_T nResiduals nUnknowns alphaRHS jacobian nResiduals
      residuals r in
  let z := elementwiseMultiplication nUnknowns M r z in
  let p := cublasScopy nUnknowns z p in
  let zTr_old := cublasSdot nUnknowns z r in
  (M, MkPcg x r p z zTr_old F32.zero 0 0 false []).

Definition solveUpdatePCG_state (residuals x : fvec) (alphaRHS : float)
    : PcgState :=
  let '(M, s0) := pcg_init residuals x alphaRHS in
  pcg_loop M (Z.to_nat inner_budget) s0.

(** [GaussNewtonSolver::solveUpdatePCG]: the new contents of [x]. *)
Definition solveUpdatePCG (residuals x : fvec) (alphaRHS : float) : fvec :=
  pcg_x (solveUpdatePCG_state residuals x alphaRHS).

(** Lines 551-568 of the CG loop body, up to the new [rTr]. *)
Definition cg_advance (s : CgState) : CgState :=
  let JTJp := apply_JTJ (cg_p s) in
  let rTr_old := cg_rTr s in
  let pTJTJp := cublasSdot nUnknowns (cg_p s) JTJp in
  let den := F32.std_max pTJTJp (kNearZero m_params) in
  let ak := (cg_rTr s / den)%f32 in
  let x := cublasSaxpy nUnknowns ak (cg_p s) (cg_x s) in
  let ak := (ak * F32.minus_one)%f32 in
  let r := cublasSaxpy nUnknowns ak JTJp (cg_r s) in
  let rTr := cublasSdot nUnknowns r r in
  MkCg x r (cg_p s) rTr_old rTr (cg_i s)
    (S (cg_entered s)) (cg_broke s) (cg_divisors s ++ [den]).

(** Lines 572-576 and the [++i] of the loop header. *)
Definition cg_redirect (s : CgState) : CgState :=
  let alpha := F32.one in
  let den := F32.std_max (cg_rTr_old s) (kNearZero m_params) in
  let bk := (cg_rTr s / den)%f32 in
  let p := cublasSscal nUnknowns bk (cg_p s) in
  let p := cublasSaxpy nUnknowns alpha (cg_r s) p in
  MkCg (cg_x s) (cg_r s) p (cg_rTr_old s) (cg_rTr s)
    (cg_i s + 1) (cg_entered s) (cg_broke s) (cg_divisors s ++ [den]).

Definition cg_break (s : CgState) : CgState :=
  MkCg (cg_x s) (cg_r s) (cg_p s) (cg_rTr_old s) (cg_rTr s)
    (cg_i s) (cg_entered s) true (cg_divisors s).

Definition cg_below (s : CgState) : bool :=
  F32.ltb (cg_rTr s) (kTolerance m_params).

(** The loop of lines 549-578. *)
Definition cg_loop (budget : nat) (s : CgState) : CgState :=
  break_loop cg_advance cg_below cg_break cg_redirect budget s.

(** Lines 532-548: the state on entry to the loop. *)
Definition cg_init (residuals x : fvec) (alphaRHS : float) : CgState :=
  let beta := F32.zero in
  let x := memset0 x in
  let r := device_array nUnknowns in
  let p := device_array nUnknowns in
  let r :=
    cublasSgemv CUBLAS_OP_T nResiduals nUnknowns alphaRHS jacobian nResiduals
      residuals r in
  let p := cublasScopy nUnknowns r p in
  let rTr_old := F32.zero in
  let rTr := cublasSdot nUnknowns r r in
  MkCg x r p rTr_old rTr 0 0 false [].

Definition solveUpdateCG_state (residuals x : fvec) (alphaRHS : float)
    : CgState :=
  cg_loop (Z.to_nat inner_budget) (cg_init residuals x alphaRHS).

(** [GaussNewtonSolver::solveUpdateCG]: the new contents of [x]. *)
Definition solveUpdateCG (residuals x : fvec) (alphaRHS : float) : fvec :=
  cg_x (solveUpdateCG_state residuals x alphaRHS).

End Solvers.

(** *** The scheme the specification describes

    Following the specification's wording, for comparison with the two
    functions above: start from [x = 0], [r = Jt residual alphaRHS] and
    [p = z]; in each pass compute [JtJ p], the step length
    [ak = rho / max(pt JtJ p, eps)], update [x += ak p] and
    [r -= ak JtJ p], recompute [rho = zt r], stop when it is below the
    tolerance, else take [bk = rho_new / max(rho_old, eps)] and
    [p = z + bk p].  Plain CG is the scheme with [z = r]; PCG is the scheme
    with [z = M (.) r]. *)
Record SchemeState := MkScheme {
  sch_x : fvec;
  sch_r : fvec;
  sch_p : fvec;
  sch_rho : float
}.

Section Scheme.
Context `{CuBLAS}.
Variable m_params : Params.
Variables nUnknowns nResiduals : Z.
Variable jacobian : fvec.
Variable alphaLHS : float.
Variable precondition : fvec -> fvec.

Fixpoint scheme_loop (budget : nat) (s : SchemeState) : SchemeState :=
  match budget with
  | O => s
  | S budget' =>
      let JTJp := apply_JTJ nUnknowns nResiduals jacobian alphaLHS (sch_p s) in
      let ak :=
        (sch_rho s /
         F32.std_max (cublasSdot nUnknowns (sch_p s) JTJp) (kNearZero m_params))%f32 in
      let x := cublasSaxpy nUnknowns ak (sch_p s) (sch_x s) in
      let r := cublasSaxpy nUnknowns (ak * F32.minus_one)%f32 JTJp (sch_r s) in
      let z := precondition r in
      let rho := cublasSdot nUnknowns z r in
      if F32.ltb rho (kTolerance m_params) then MkScheme x r (sch_p s) (sch_rho s)
      else
        let bk := (rho / F32.std_max (sch_rho s) (kNearZero m_params))%f32 in
        let p :=
          cublasSaxpy nUnknowns F32.one z (cublasSscal nUnknowns bk (sch_p s)) in
        scheme_loop budget' (MkScheme x r p rho)
  end.

Definition scheme_solve (residuals x : fvec) (alphaRHS : float) : fvec :=
  let r :=
    cublasSgemv CUBLAS_OP_T nResiduals nUnknowns alphaRHS jacobian nResiduals
      residuals (device_array nUnknowns) in
  let z := precondition r in
  let p := cublasScopy nUnknowns z (device_array nUnknowns) in
  sch_x (scheme_loop (Z.to_nat (inner_budget m_params nUnknowns))
           (MkScheme (memset0 x) r p (cublasSdot nUnknowns z r))).

End Scheme.

(** Entry [(j, k)] of [JtJ] when the matrix is formed explicitly, one
    product accumulated per row of [J]. *)
Definition JTJ_entry (nResiduals : Z) (jacobian : fvec) (j k : Z) : float :=
  foldl (fun acc i =>
           (acc + dev jacobian (i + j * nResiduals) * dev jacobian (i + k * nResiduals))%f32)
        F32.zero (seqZ 0 nResiduals).

(* ================================================================== *)
(** ** Applying the solver's result to the model *)

(** Lines 391-413 of [solve]. *)
Definition solve_apply_step (nShapeCoeffs nExpressionCoeffs : Z) (result : fvec)
    (face : Face) (projection : mat4) : option (Face * mat4) :=
  r0 ← at_ result 0;
  let projection := set_focal projection (focal projection - r0)%f32 in
  r1 ← at_ result 1;
  r2 ← at_ result 2;
  r3 ← at_ result 3;
  let rot := m_rotation_coefficients face in
  let face :=
    set_rotation face
      (Vec3 (v3x rot - r1)%f32 (v3y rot - r2)%f32 (v3z rot - r3)%f32) in
  r4 ← at_ result 4;
  r5 ← at_ result 5;
  r6 ← at_ result 6;
  let tr := m_translation_coefficients face in
  let face :=
    set_translation face
      (Vec3 (v3x tr - r4)%f32 (v3y tr - r5)%f32 (v3z tr - r6)%f32) in
  let sca := F32.one in
  face ← for_int nShapeCoeffs (fun i face =>
            a ← at_ (m_shape_coefficients face) i;
            d ← at_ result (7 + i);
            sd ← at_ (m_shape_std_dev face) i;
            let c := (a - d * sca / sd)%f32 in
            cs ← store (m_shape_coefficients face) i c;
            Some (set_shape face cs)) face;
  face ← for_int nExpressionCoeffs (fun i face =>
            a ← at_ (m_expression_coefficients face) i;
            d ← at_ result (7 + nShapeCoeffs + i);
            sd ← at_ (m_expression_std_dev face) i;
            let c := (a - d * sca / sd)%f32 in
            cs ← store (m_expression_coefficients face) i
                   (F32.std_max F32.zero (F32.std_min F32.one c));
            Some (set_expression face cs)) face;
  Some (face, projection).

(** Lines 237-260 of [solve_CPU]. *)
Definition solve_CPU_apply_step (nShapeCoeffs nExpressionCoeffs : Z)
    (result : fvec) (face : Face) (projection : mat4) : option (Face * mat4) :=
  r0 ← at_ result 0;
  let projection := set_focal projection (focal projection - r0)%f32 in
  let rotation_coefficients := m_rotation_coefficients face in
  r1 ← at_ result 1;
  let rotation_coefficients :=
    Vec3 (v3x rotation_coefficients - r1)%f32 (v3y rotation_coefficients)
      (v3z rotation_coefficients) in
  r2 ← at_ result 2;
  let rotation_coefficients :=
    Vec3 (v3x rotation_coefficients) (v3y rotation_coefficients - r2)%f32
      (v3z rotation_coefficients) in
  r3 ← at_ result 3;
  let rotation_coefficients :=
    Vec3 (v3x rotation_coefficients) (v3y rotation_coefficients)
      (v3z rotation_coefficients - r3)%f32 in
  let face := set_rotation face rotation_coefficients in
  let translation_coefficients := m_translation_coefficients face in
  r4 ← at_ result 4;
  let translation_coefficients :=
    Vec3 (v3x translation_coefficients - r4)%f32 (v3y translation_coefficients)
      (v3z translation_coefficients) in
  r5 ← at_ result 5;
  let translation_coefficients :=
    Vec3 (v3x translation_coefficients) (v3y translation_coefficients - r5)%f32
      (v3z translation_coefficients) in
  r6 ← at_ result 6;
  let translation_coefficients :=
    Vec3 (v3x translation_coefficients) (v3y translation_coefficients)
      (v3z translation_coefficients - r6)%f32 in
  let face := set_translation face translation_coefficients in
  let sca := F32.one in
  shape ← for_int nShapeCoeffs (fun i shape =>
            a ← at_ shape i;
            d ← at_ result (7 + i);
            sd ← at_ (m_shape_std_dev face) i;
            store shape i (a - d * sca / sd)%f32) (m_shape_coefficients face);
  let face := set_shape face shape in
  expression ← for_int nExpressionCoeffs (fun i expression =>
            a ← at_ expression i;
            d ← at_ result (7 + nShapeCoeffs + i);
            sd ← at_ (m_expression_std_dev face) i;
            let c := (a - d * sca / sd)%f32 in
            store expression i (F32.std_max F32.zero (F32.std_min F32.one c)))
          (m_expression_coefficients face);
  Some (set_expression face expression, projection).

(* ================================================================== *)
(** ** The host-side Jacobian of [solve_CPU] *)

(** [jacobian(r, c) = a] on the column-major [nResiduals] x [nUnknowns]
    Eigen matrix. *)
Definition mat_store (nResiduals nUnknowns : Z) (J : fvec) (r c : Z) (a : float)
    : option fvec :=
  if decide (0 <= r < nResiduals /\ 0 <= c < nUnknowns)
  then store J (r + c * nResiduals) a
  else None.

(** [jacobian(r, c)]. *)
Definition mat_get (nResiduals : Z) (J : fvec) (r c : Z) : float :=
  dev J (r + c * nResiduals).

(** [jacobian.block(r0, c0, 2, w) = rows], the two rows of one feature. *)
Definition write_block (nResiduals nUnknowns : Z) (r0 c0 w : Z)
    (rows : Z -> Z -> float) (J : fvec) : option fvec :=
  for_int w (fun c J =>
    J ← mat_store nResiduals nUnknowns J r0 (c0 + c) (rows 0 (c0 + c));
    mat_store nResiduals nUnknowns J (r0 + 1) (c0 + c) (rows 1 (c0 + c))) J.

(** [Eigen::Map<Eigen::MatrixXf>(data, rows, cols)]: a column-major view of
    the storage of a vector.  The map keeps the dimensions it was made
    with; the entries are read from the vector when they are used. *)
Record MatrixMap := MkMatrixMap { map_rows : Z; map_cols : Z }.

(** Lines 56-57: the maps over the two bases, made once before the loop. *)
Definition shape_basis_map (face : Face) : MatrixMap :=
  MkMatrixMap (m_number_of_vertices face * 3)
    (Z.of_nat (length (m_shape_coefficients face))).

Definition expression_basis_map (face : Face) : MatrixMap :=
  MkMatrixMap (m_number_of_vertices face * 3)
    (Z.of_nat (length (m_expression_coefficients face))).

(** [map.block(startRow, startCol, blockRows, blockCols)], read column by
    column.  Eigen requires the block to lie inside the dimensions of the
    map; entry [(k, j)] of the block is [data[(startRow + k) + (startCol +
    j) * rows]], which has to exist. *)
Definition map_block (m : MatrixMap) (data : fvec)
    (startRow startCol blockRows blockCols : Z) : option (list (list float)) :=
  if decide (0 <= startRow /\ 0 <= blockRows /\
             startRow + blockRows <= map_rows m /\
             0 <= startCol /\ 0 <= blockCols /\
             startCol + blockCols <= map_cols m)
  then
    mapM (fun j =>
            mapM (fun k => at_ data ((startRow + k) + (startCol + j) * map_rows m))
              (seqZ 0 blockRows))
      (seqZ 0 blockCols)
  else None.

(** Lines 110-111: [std::vector<glm::vec3> current_face(n)] followed by
    [util::copy(current_face, face.m_current_face_gpu, n)] with
    [n = face.m_number_of_vertices]: the count has to be a size, and the
    device array has to hold that many vertices. *)
Definition copy_current_face (face : Face) : option (list vec3) :=
  let n := m_number_of_vertices face in
  if decide (0 <= n <= Z.of_nat (length (m_current_face_gpu face)))
  then Some (take (Z.to_nat n) (m_current_face_gpu face))
  else None.

Section HostJacobian.
Context `{HostFeatureAlgebra, PriorSparseFeatures}.
Variables nFeatures nShapeCoeffs nExpressionCoeffs nUnknowns nResiduals : Z.
Variable sparse_features : list vec2.

(** Lines 123-185: residuals and Jacobian rows of the sparse features.
    [current_face] is the host copy of the vertices, [shape_basis] and
    [expression_basis] are the maps made before the loop, [face] is the
    object whose basis vectors they view. *)
Definition cpu_sparse_features (current_face : list vec3)
    (shape_basis expression_basis : MatrixMap) (face : Face)
    (args : JacobianArgs) (Jr : fvec * fvec) : option (fvec * fvec) :=
  for_int nFeatures (fun i '(J, residuals) =>
    vertexId ← elem_at getPriorIds i;
    local_coord ← elem_at current_face vertexId;
    observed ← elem_at sparse_features i;
    let '(residual, pose_rows) := sparse_feature_pose args local_coord observed in
    residuals ← store residuals (i * 2) (v2x residual);
    residuals ← store residuals (i * 2 + 1) (v2y residual);
    J ← write_block nResiduals nUnknowns (i * 2) 0 1 pose_rows J;
    J ← write_block nResiduals nUnknowns (i * 2) 1 6 pose_rows J;
    shape_block ← map_block shape_basis (m_shape_basis face) (3 * vertexId) 0 3
                    nShapeCoeffs;
    let jacobian_shape := sparse_feature_basis args local_coord shape_block in
    J ← write_block nResiduals nUnknowns (i * 2) 7 nShapeCoeffs
          (fun k c => jacobian_shape k (c - 7)) J;
    expression_block ← map_block expression_basis (m_expression_basis face)
                         (3 * vertexId) 0 3 nExpressionCoeffs;
    let jacobian_expression :=
      sparse_feature_basis args local_coord expression_block in
    J ← write_block nResiduals nUnknowns (i * 2) (7 + nShapeCoeffs)
          nExpressionCoeffs
          (fun k c => jacobian_expression k (c - (7 + nShapeCoeffs))) J;
    Some (J, residuals)) Jr.

(** Lines 187-207: the regularizer. *)
Definition cpu_regularizer (wReg : float) (face : Face) (Jr : fvec * fvec)
    : option (fvec * fvec) :=
  let offset_cols_shape := 7 in
  let offset_rows_shape := 2 * nFeatures in
  let offset_cols_expression := offset_cols_shape + nShapeCoeffs in
  let offset_rows_expression := offset_rows_shape + nShapeCoeffs in
  Jr ← for_int nShapeCoeffs (fun i '(J, residuals) =>
         sd ← at_ (m_shape_std_dev face) i;
         let divSigma := (F32.one / sd)%f32 in
         a ← at_ (m_shape_coefficients face) i;
         J ← mat_store nResiduals nUnknowns J (offset_rows_shape + i)
               (offset_cols_shape + i)
               (divSigma * divSigma * a * wReg * F32.two)%f32;
         residuals ← store residuals (offset_rows_shape + i) F32.zero;
         Some (J, residuals)) Jr;
  for_int nExpressionCoeffs (fun i '(J, residuals) =>
    sd ← at_ (m_expression_std_dev face) i;
    let divSigma := (F32.one / sd)%f32 in
    a ← at_ (m_expression_coefficients face) i;
    J ← mat_store nResiduals nUnknowns J (offset_rows_expression + i)
          (offset_cols_expression + i)
          (divSigma * divSigma * a * wReg * F32.two)%f32;
    residuals ← store residuals (offset_rows_expression + i) F32.zero;
    Some (J, residuals)) Jr.

End HostJacobian.

(* ================================================================== *)
(** ** The Gauss-Newton drivers *)

(** What one pass of the outer loop does, in the order it does it; the
    source keeps no such record. *)
Inductive Event :=
| EvComputeFace
| EvComputeModelMatrix
| EvComputeRotationDerivatives
| EvJacobianSparseFeatures
| EvRegularizer
| EvLinearSolve (delta : fvec)
| EvApplyUpdate (delta : fvec).

(** The model state together with the buffers that live across passes. *)
Record SolveState := MkSolveState {
  st_face : Face;
  st_projection : mat4;
  st_jacobian : fvec;
  st_residuals : fvec;
  st_jacobian_gpu : fvec;
  st_residuals_gpu : fvec;
  st_result_gpu : fvec;
  st_result : fvec;
  st_log : list Event
}.

(** What a call leaves behind. *)
Record Outcome := MkOutcome {
  out_face : Face;
  out_projection : mat4;
  out_log : list Event
}.

Section Drivers.
Context `{FaceModel, CuBLAS, CudaKernels, HostFeatureAlgebra,
          PriorSparseFeatures, Libm}.
Variable m_params : Params.

Section Pass.
Variable sparse_features : list vec2.
Variable jacobian_world_11 : float.
Let nFeatures : Z := Z.of_nat (length sparse_features).
Let nShapeCoeffs : Z := num_shape_coefficients m_params.
Let nExpressionCoeffs : Z := num_expression_coefficients m_params.
Let nFaceCoeffs : Z := nShapeCoeffs + nExpressionCoeffs.
Let nUnknowns : Z := 7 + nFaceCoeffs.
Let nResiduals : Z := 2 * nFeatures + nFaceCoeffs.

Definition jacobian_args (face : Face) (face_pose : mat4)
    (derivatives : mat3 * mat3 * mat3) (projection : mat4) : JacobianArgs :=
  MkJacobianArgs nFeatures nShapeCoeffs nExpressionCoeffs nUnknowns nResiduals
    face face_pose derivatives projection jacobian_world_11 getPriorIds
    sparse_features.

(** Lines 351-413: one pass of the loop of [solve]. *)
Definition solve_pass (regulatization_weigth : float) (s : SolveState)
    : option SolveState :=
  let face := computeFace (st_face s) in
  let face_pose := computeModelMatrix face in
  let derivatives := computeRotationDerivatives face in
  let Jr :=
    computeJacobianSparseFeatures
      (jacobian_args face face_pose derivatives (st_projection s))
      (st_jacobian_gpu s, st_residuals_gpu s) in
  let '(jacobian_gpu, residuals_gpu) :=
    computeRegularizer face (2 * nFeatures) nUnknowns nResiduals
      regulatization_weigth Jr in
  let result_gpu :=
    solveUpdatePCG m_params nUnknowns nResiduals jacobian_gpu (F32.of_int 2)
      residuals_gpu (st_result_gpu s) (F32.of_int (-1)) in
  let result := util_copy (st_result s) result_gpu nUnknowns in
  '(face, projection) ←
    solve_apply_step nShapeCoeffs nExpressionCoeffs result face (st_projection s);
  Some (MkSolveState face projection (st_jacobian s) (st_residuals s)
          jacobian_gpu residuals_gpu result_gpu result
          (st_log s ++
           [EvComputeFace; EvComputeModelMatrix; EvComputeRotationDerivatives;
            EvJacobianSparseFeatures; EvRegularizer; EvLinearSolve result;
            EvApplyUpdate result])).

(** Lines 108-272: one pass of the loop of [solve_CPU]. *)
Definition solve_CPU_pass (shape_basis expression_basis : MatrixMap)
    (wReg : float) (s : SolveState) : option SolveState :=
  let face := computeFace (st_face s) in
  current_face ← copy_current_face face;
  let face_pose := computeModelMatrix face in
  let derivatives := computeRotationDerivatives face in
  Jr ← cpu_sparse_features nFeatures nShapeCoeffs nExpressionCoeffs nUnknowns
         nResiduals sparse_features current_face shape_basis expression_basis
         face (jacobian_args face face_pose derivatives (st_projection s))
         (st_jacobian s, st_residuals s);
  '(jacobian, residuals) ←
    cpu_regularizer nFeatures nShapeCoeffs nExpressionCoeffs nUnknowns
      nResiduals wReg face Jr;
  let jacobian_gpu :=
    util_copy (st_jacobian_gpu s) jacobian (nUnknowns * nResiduals) in
  let residuals_gpu := util_copy (st_residuals_gpu s) residuals nResiduals in
  let result_gpu :=
    solveUpdatePCG m_params nUnknowns nResiduals jacobian_gpu (F32.of_int 2)
      residuals_gpu (st_result_gpu s) (F32.of_int (-1)) in
  let result := util_copy (st_result s) result_gpu nUnknowns in
  '(face, projection) ←
    solve_CPU_apply_step nShapeCoeffs nExpressionCoeffs result face
      (st_projection s);
  Some (MkSolveState face projection jacobian residuals
          jacobian_gpu residuals_gpu result_gpu result
          (st_log s ++
           [EvComputeFace; EvComputeModelMatrix; EvComputeRotationDerivatives;
            EvJacobianSparseFeatures; EvRegularizer; EvLinearSolve result;
            EvApplyUpdate result])).

(** The buffers allocated before the loop (lines 42-49 and 297-300); the
    host Jacobian is zeroed, the other buffers are fully written before
    they are read. *)
Definition initial_state (face : Face) (projection : mat4) : SolveState :=
  MkSolveState face projection
    (replicate (Z.to_nat (nResiduals * nUnknowns)) F32.zero)
    (replicate (Z.to_nat nResiduals) F32.zero)
    (device_array (nUnknowns * nResiduals))
    (device_array nResiduals)
    (device_array nUnknowns)
    (replicate (Z.to_nat nUnknowns) F32.zero)
    [].

End Pass.

Definition outcome_of (s : SolveState) : Outcome :=
  MkOutcome (st_face s) (st_projection s) (st_log s).

(** [GaussNewtonSolver::solve]. *)
Definition solve (sparse_features : list vec2) (face : Face) (projection : mat4)
    : option Outcome :=
  match sparse_features with
  | [] => Some (MkOutcome face projection [])
  | _ :: _ =>
      let regulatization_weigth :=
        powf F32.ten (regularisation_weight_exponent m_params) in
      let jacobian_world_11 := v4y (m4c1 projection) in
      outcome_of <$>
        for_int (num_gn_iterations m_params)
          (fun iteration s =>
             solve_pass sparse_features jacobian_world_11 regulatization_weigth s)
          (initial_state sparse_features face projection)
  end.

(** [GaussNewtonSolver::solve_CPU]. *)
Definition solve_CPU (sparse_features : list vec2) (face : Face)
    (projection : mat4) : option Outcome :=
  match sparse_features with
  | [] => Some (MkOutcome face projection [])
  | _ :: _ =>
      let wReg := powf F32.ten (regularisation_weight_exponent m_params) in
      let shape_basis := shape_basis_map face in
      let expression_basis := expression_basis_map face in
      let jacobian_world_11 := v4y (m4c1 projection) in
      outcome_of <$>
        for_int (num_gn_iterations m_params)
          (fun iteration s =>
             solve_CPU_pass sparse_features jacobian_world_11 shape_basis
               expression_basis wReg s)
          (initial_state sparse_features face projection)
  end.

End Drivers.

(* ================================================================== *)
(** ** Vocabulary of the statements *)

(** IEEE equality [a == b]: the two zeros are equal, NaN equals nothing. *)
Definition feq (a b : float) : Prop := SFeqb a b = true.

(** [0 <= y <= 1]. *)
Definition in_unit_interval (y : float) : Prop :=
  F32.leb F32.zero y = true /\ F32.leb y F32.one = true.

(** [y] is [x] clamped to [[lo, hi]]: the lower bound when [x] is below it,
    the upper bound when [x] is above it, and [x] itself in between. *)
Definition clamped (x lo hi y : float) : Prop :=
  (F32.ltb x lo = true -> y = lo) /\
  (F32.ltb hi x = true -> y = hi) /\
  (F32.leb lo x = true /\ F32.leb x hi = true -> feq y x).

(** The coefficient vectors are long enough for the configured counts and
    the result vector has one entry per unknown. *)
Definition update_ready (nShapeCoeffs nExpressionCoeffs : Z) (result : fvec)
    (face : Face) : Prop :=
  0 <= nShapeCoeffs <= Z.of_nat (length (m_shape_coefficients face)) /\
  nShapeCoeffs <= Z.of_nat (length (m_shape_std_dev face)) /\
  0 <= nExpressionCoeffs <= Z.of_nat (length (m_expression_coefficients face)) /\
  nExpressionCoeffs <= Z.of_nat (length (m_expression_std_dev face)) /\
  Z.of_nat (length result) = 7 + (nShapeCoeffs + nExpressionCoeffs).

(** The same for the configuration and a face, before any buffer exists. *)
Definition face_ready (m_params : Params) (face : Face) : Prop :=
  0 <= num_shape_coefficients m_params
    <= Z.of_nat (length (m_shape_coefficients face)) /\
  num_shape_coefficients m_params <= Z.of_nat (length (m_shape_std_dev face)) /\
  0 <= num_expression_coefficients m_params
    <= Z.of_nat (length (m_expression_coefficients face)) /\
  num_expression_coefficients m_params
    <= Z.of_nat (length (m_expression_std_dev face)).

(** The record one pass of the outer loop leaves. *)
Definition pass_events (delta : fvec) : list Event :=
  [EvComputeFace; EvComputeModelMatrix; EvComputeRotationDerivatives;
   EvJacobianSparseFeatures; EvRegularizer; EvLinearSolve delta;
   EvApplyUpdate delta].

(** The expression of lines 259 and 412 that bounds a coefficient:
    [std::max(0.0f, std::min(1.f, c))]. *)
Definition unit_clamp (c : float) : float :=
  F32.std_max F32.zero (F32.std_min F32.one c).

(** The value the update computes for a coefficient before any clamping:
    [a - d * sca / sd] with [sca = 1]. *)
Definition raw_update (a d sd : float) : float := (a - d * F32.one / sd)%f32.

(** The first [n] entries of [l] rewritten by [h], the others kept. *)
Definition map_prefix (n : Z) (h : Z -> float -> float) (l : fvec) : fvec :=
  imap (fun k a => if decide (Z.of_nat k < n) then h (Z.of_nat k) a else a) l.

(** The update rule as the specification words it, in closed form: the
    pose entries decremented by the leading entries of [delta], every
    shape coefficient below the configured count decremented by its scaled
    entry, every expression coefficient below the configured count
    decremented and bounded. *)
Definition update_rule (nShapeCoeffs nExpressionCoeffs : Z) (delta : fvec)
    (face : Face) : Face :=
  let rot := m_rotation_coefficients face in
  let tr := m_translation_coefficients face in
  MkFace
    (Vec3 (v3x rot - dev delta 1)%f32 (v3y rot - dev delta 2)%f32
       (v3z rot - dev delta 3)%f32)
    (Vec3 (v3x tr - dev delta 4)%f32 (v3y tr - dev delta 5)%f32
       (v3z tr - dev delta 6)%f32)
    (map_prefix nShapeCoeffs
       (fun i a => raw_update a (dev delta (7 + i)) (dev (m_shape_std_dev face) i))
       (m_shape_coefficients face))
    (map_prefix nExpressionCoeffs
       (fun i a =>
          unit_clamp
            (raw_update a (dev delta (7 + nShapeCoeffs + i))
               (dev (m_expression_std_dev face) i)))
       (m_expression_coefficients face))
    (m_shape_std_dev face) (m_expression_std_dev face)
    (m_number_of_vertices face) (m_shape_basis face) (m_expression_basis face)
    (m_current_face_gpu face).

(** A face with a single shape coefficient [v] of unit standard deviation
    and no expression coefficient. *)
Definition single_shape_face (v : float) : Face :=
  MkFace (Vec3 F32.zero F32.zero F32.zero) (Vec3 F32.zero F32.zero F32.zero)
    [v] [] [F32.one] [] 0 [] [] [].

(** [k] passes of a loop none of which takes the [break]. *)
Fixpoint full_passes {St : Type} (advance redirect : St -> St) (k : nat) (s : St)
    : St :=
  match k with
  | O => s
  | S k' => full_passes advance redirect k' (redirect (advance s))
  end.

(** How a budgeted loop with an early exit ends: [entered] passes were
    started, at most [budget]; no pass before the last one found the test
    true; the loop left through [break] exactly when the last pass found it
    true, and otherwise used the whole budget. *)
Definition budgeted_exit {St : Type} (advance redirect on_break : St -> St)
    (below : St -> bool) (budget : nat) (s0 final : St) (entered : nat)
    (broke : bool) : Prop :=
  (entered <= budget)%nat /\
  (forall j, (S j < entered)%nat ->
     below (advance (full_passes advance redirect j s0)) = false) /\
  (broke = true ->
     exists j, entered = S j /\
       below (advance (full_passes advance redirect j s0)) = true /\
       final = on_break (advance (full_passes advance redirect j s0))) /\
  (broke = false ->
     entered = budget /\
     final = full_passes advance redirect budget s0 /\
     forall j, (j < budget)%nat ->
       below (advance (full_passes advance redirect j s0)) = false).

(** The regularization entry as the specification words it:
    [(1/sigma)^2 * coeff * lambda * 2]. *)
Definition regularizer_entry (sigma coeff lambda : float) : float :=
  ((F32.one / sigma) * (F32.one / sigma) * coeff * lambda * F32.two)%f32.

(** Every entry of the regularization rows (those after the [2 * nFeatures]
    feature rows) that is off the diagonal of the block is zero. *)
Definition regularization_rows_diagonal (nFeatures nResiduals nUnknowns : Z)
    (J : fvec) : Prop :=
  forall r c, 2 * nFeatures <= r < nResiduals -> 0 <= c < nUnknowns ->
    c <> r - 2 * nFeatures + 7 -> mat_get nResiduals J r c = F32.zero.

(** The update step stays inside its vectors: the coefficient and
    standard-deviation vectors hold the configured counts and the result
    holds an entry for every unknown. *)
Definition update_defined (nShapeCoeffs nExpressionCoeffs : Z) (result : fvec)
    (face : Face) : Prop :=
  nShapeCoeffs <= Z.of_nat (length (m_shape_coefficients face)) /\
  nShapeCoeffs <= Z.of_nat (length (m_shape_std_dev face)) /\
  nExpressionCoeffs <= Z.of_nat (length (m_expression_coefficients face)) /\
  nExpressionCoeffs <= Z.of_nat (length (m_expression_std_dev face)) /\
  7 + (nShapeCoeffs + nExpressionCoeffs) <= Z.of_nat (length result).

(** The body of the shape loop (lines 252-253 and 405-406). *)
Definition shape_pass (result sdv : fvec) (i : Z) (shape : fvec) : option fvec :=
  a ← at_ shape i;
  d ← at_ result (7 + i);
  sd ← at_ sdv i;
  store shape i (a - d * F32.one / sd)%f32.

(** The body of the expression loop (lines 258-259 and 411-412). *)
Definition expression_pass (nShapeCoeffs : Z) (result sdv : fvec) (i : Z)
    (expression : fvec) : option fvec :=
  a ← at_ expression i;
  d ← at_ result (7 + nShapeCoeffs + i);
  sd ← at_ sdv i;
  store expression i
    (F32.std_max F32.zero (F32.std_min F32.one (a - d * F32.one / sd)%f32)).

(** The update step with the passes of its two loops taken in the given
    orders, as a [#pragma omp parallel for] is free to do. *)
Definition apply_step_in_order (order_shape order_expression : list Z)
    (nShapeCoeffs : Z) (result : fvec) (face : Face) (projection : mat4)
    : option (Face * mat4) :=
  r0 ← at_ result 0;
  r1 ← at_ result 1;
  r2 ← at_ result 2;
  r3 ← at_ result 3;
  r4 ← at_ result 4;
  r5 ← at_ result 5;
  r6 ← at_ result 6;
  let rot := m_rotation_coefficients face in
  let tr := m_translation_coefficients face in
  shape ← for_each (shape_pass result (m_shape_std_dev face)) order_shape
             (m_shape_coefficients face);
  expression ← for_each
                 (expression_pass nShapeCoeffs result (m_expression_std_dev face))
                 order_expression (m_expression_coefficients face);
  Some
    (MkFace (Vec3 (v3x rot - r1)%f32 (v3y rot - r2)%f32 (v3z rot - r3)%f32)
       (Vec3 (v3x tr - r4)%f32 (v3y tr - r5)%f32 (v3z tr - r6)%f32)
       shape expression (m_shape_std_dev face) (m_expression_std_dev face)
       (m_number_of_vertices face) (m_shape_basis face)
       (m_expression_basis face) (m_current_face_gpu face),
     set_focal projection (focal projection - r0)%f32).

(** The entries of [l] whose index is in [idx] rewritten by [h]. *)
Definition map_at (idx : list Z) (h : Z -> float -> float) (l : fvec) : fvec :=
  imap (fun k a => if decide (Z.of_nat k ∈ idx) then h (Z.of_nat k) a else a) l.

(** Whether the reads of pass [i] of a coefficient loop other than the
    coefficient itself, [result[off + i]] and [sdv[i]], are inside their
    vectors. *)
Definition reads_ok (result sdv : fvec) (off i : Z) : bool :=
  match at_ result (off + i), at_ sdv i with
  | Some _, Some _ => true
  | _, _ => false
  end.

(** What feature [i] contributes, as the loop of lines 123-185 obtains it:
    its residual and the entries of its two Jacobian rows in every column,
    from prior id [i], the vertex with that id, observation [i] and the
    blocks of the two bases at that vertex. *)
Definition feature_entry `{HostFeatureAlgebra, PriorSparseFeatures}
    (nShapeCoeffs nExpressionCoeffs : Z) (sparse_features : list vec2)
    (current_face : list vec3) (shape_basis expression_basis : MatrixMap)
    (face : Face) (args : JacobianArgs) (i : Z)
    : option (vec2 * (Z -> Z -> float)) :=
  vertexId ← elem_at getPriorIds i;
  local_coord ← elem_at current_face vertexId;
  observed ← elem_at sparse_features i;
  shape_block ← map_block shape_basis (m_shape_basis face) (3 * vertexId) 0 3
                  nShapeCoeffs;
  expression_block ← map_block expression_basis (m_expression_basis face)
                       (3 * vertexId) 0 3 nExpressionCoeffs;
  let '(residual, pose_rows) := sparse_feature_pose args local_coord observed in
  Some (residual,
        fun k c =>
          if decide (c < 7) then pose_rows k c
          else if decide (c < 7 + nShapeCoeffs)
               then sparse_feature_basis args local_coord shape_block k (c - 7)
               else sparse_feature_basis args local_coord expression_block k
                      (c - (7 + nShapeCoeffs))).

(** Rows [2 i] and [2 i + 1] of the Jacobian and of the residual vector hold
    what feature [i] contributes, in every column. *)
Definition feature_rows_built `{HostFeatureAlgebra, PriorSparseFeatures}
    (nFeatures nShapeCoeffs nExpressionCoeffs nUnknowns nResiduals : Z)
    (sparse_features : list vec2) (current_face : list vec3)
    (shape_basis expression_basis : MatrixMap) (face : Face)
    (args : JacobianArgs) (J residuals : fvec) : Prop :=
  forall i, 0 <= i < nFeatures ->
    exists residual rows,
      feature_entry nShapeCoeffs nExpressionCoeffs sparse_features current_face
        shape_basis expression_basis face args i = Some (residual, rows) /\
      dev residuals (i * 2) = v2x residual /\
      dev residuals (i * 2 + 1) = v2y residual /\
      forall c, 0 <= c < nUnknowns ->
        mat_get nResiduals J (i * 2) c = rows 0 c /\
        mat_get nResiduals J (i * 2 + 1) c = rows 1 c.

(** [computeFace] leaves a position for every vertex the face counts. *)
Definition geometry_sized `{FaceModel} : Prop :=
  forall face : Face,
    m_number_of_vertices face <= Z.of_nat (length (face_geometry face)).

(** What the host path looks up by vertex exists: the vertex count is a
    size, every feature has a prior id, that id is the index of a vertex,
    and the blocks of the two bases at that vertex can be read through the
    maps. *)
Definition vertices_ready `{PriorSparseFeatures}
    (nFeatures nShapeCoeffs nExpressionCoeffs : Z)
    (shape_basis expression_basis : MatrixMap) (face : Face) : Prop :=
  0 <= m_number_of_vertices face /\
  forall i, 0 <= i < nFeatures ->
    exists vertexId,
      elem_at getPriorIds i = Some vertexId /\
      0 <= vertexId < m_number_of_vertices face /\
      is_Some (map_block shape_basis (m_shape_basis face) (3 * vertexId) 0 3
                 nShapeCoeffs) /\
      is_Some (map_block expression_basis (m_expression_basis face)
                 (3 * vertexId) 0 3 nExpressionCoeffs).

(** A face [solve_CPU] can be called on: it holds the configured counts of
    coefficients, and what is looked up by vertex exists. *)
Definition host_face_ready `{PriorSparseFeatures} (m_params : Params)
    (sparse_features : list vec2) (face : Face) : Prop :=
  face_ready m_params face /\
  vertices_ready (Z.of_nat (length sparse_features))
    (num_shape_coefficients m_params) (num_expression_coefficients m_params)
    (shape_basis_map face) (expression_basis_map face) face.

(** The regularization rows hold one entry per coefficient, the matching
    residuals are zero. *)
Definition regularization_built (nFeatures nShapeCoeffs nExpressionCoeffs : Z)
    (nResiduals : Z) (wReg : float) (face : Face) (J residuals : fvec) : Prop :=
  (forall i, 0 <= i < nShapeCoeffs ->
     mat_get nResiduals J (2 * nFeatures + i) (7 + i)
     = regularizer_entry (dev (m_shape_std_dev face) i)
         (dev (m_shape_coefficients face) i) wReg /\
     dev residuals (2 * nFeatures + i) = F32.zero) /\
  (forall i, 0 <= i < nExpressionCoeffs ->
     mat_get nResiduals J (2 * nFeatures + nShapeCoeffs + i)
       (7 + nShapeCoeffs + i)
     = regularizer_entry (dev (m_expression_std_dev face) i)
         (dev (m_expression_coefficients face) i) wReg /\
     dev residuals (2 * nFeatures + nShapeCoeffs + i) = F32.zero).

(** The six buffers of [solve_CPU] at the sizes it allocates them with
    (lines 42-49). *)
Definition buffers_sized (nUnknowns nResiduals : Z) (s : SolveState) : Prop :=
  length (st_jacobian s) = Z.to_nat (nResiduals * nUnknowns) /\
  length (st_residuals s) = Z.to_nat nResiduals /\
  length (st_jacobian_gpu s) = Z.to_nat (nUnknowns * nResiduals) /\
  length (st_residuals_gpu s) = Z.to_nat nResiduals /\
  length (st_result_gpu s) = Z.to_nat nUnknowns /\
  length (st_result s) = Z.to_nat nUnknowns.

(** A state a pass of [solve_CPU] can start from: the face holds the
    configured counts, what is looked up by vertex through the two maps
    exists, the buffers have their sizes, and the regularization rows of the
    host Jacobian are zero off the diagonal, as [jacobian.setZero()] leaves
    them. *)
Definition host_ready `{PriorSparseFeatures} (m_params : Params)
    (sparse_features : list vec2) (shape_basis expression_basis : MatrixMap)
    (s : SolveState) : Prop :=
  let nFeatures := Z.of_nat (length sparse_features) in
  let nFaceCoeffs :=
    num_shape_coefficients m_params + num_expression_coefficients m_params in
  let nUnknowns := 7 + nFaceCoeffs in
  let nResiduals := 2 * nFeatures + nFaceCoeffs in
  face_ready m_params (st_face s) /\
  vertices_ready nFeatures (num_shape_coefficients m_params)
    (num_expression_coefficients m_params) shape_basis expression_basis
    (st_face s) /\
  buffers_sized nUnknowns nResiduals s /\
  regularization_rows_diagonal nFeatures nResiduals nUnknowns (st_jacobian s).

(** The configuration with another number of Gauss-Newton passes. *)
Definition with_gn_iterations (p : Params) (n : Z) : Params :=
  MkParams n (num_pcg_iterations p) (num_shape_coefficients p)
    (num_expression_coefficients p) (regularisation_weight_exponent p)
    (kNearZero p) (kTolerance p).

(** *** One iteration as the specification words it

    "Each iteration: (1) ask the face model to recompute vertex positions
    and the current model-to-world matrix from its coefficients; (2) ask it
    for rotation-derivative matrices at the current rotation; (3) invoke the
    Jacobian/Residual Builder; (4) invoke a Linear Solver to obtain an
    unknowns-length delta; (5) apply the delta."  The five steps, each on
    what the steps before it produced, and their composition; the
    definitions of the source are [solve_pass] and [solve]. *)
Section Spec_iteration.
Context `{FaceModel, CuBLAS, CudaKernels, PriorSparseFeatures}.
Variable m_params : Params.
Variable sparse_features : list vec2.
Variable jacobian_world_11 : float.
Variable lambda : float.
Let nFeatures : Z := Z.of_nat (length sparse_features).
Let nShapeCoeffs : Z := num_shape_coefficients m_params.
Let nExpressionCoeffs : Z := num_expression_coefficients m_params.
Let nUnknowns : Z := 7 + (nShapeCoeffs + nExpressionCoeffs).
Let nResiduals : Z := 2 * nFeatures + (nShapeCoeffs + nExpressionCoeffs).

(** Step (1): the vertex positions and the model-to-world matrix of the
    current coefficients. *)
Definition spec_recompute (face : Face) : Face * mat4 :=
  let face := computeFace face in
  (face, computeModelMatrix face).

(** Step (2): the three rotation-derivative matrices of the recomputed
    face. *)
Definition spec_rotation_derivatives (face : Face) : mat3 * mat3 * mat3 :=
  computeRotationDerivatives face.

(** Step (3): the builder writes the feature rows and then the
    regularization rows of the Jacobian and the residual, from the
    recomputed face, the model matrix, the derivatives and the projection. *)
Definition spec_build (face : Face) (model_matrix : mat4)
    (derivatives : mat3 * mat3 * mat3) (projection : mat4)
    (buffers : fvec * fvec) : fvec * fvec :=
  computeRegularizer face (2 * nFeatures) nUnknowns nResiduals lambda
    (computeJacobianSparseFeatures
       (jacobian_args m_params sparse_features jacobian_world_11 face
          model_matrix derivatives projection)
       buffers).

(** Step (4): the linear solver on the system that was built, and the host
    copy of its first [nUnknowns] entries, the delta. *)
Definition spec_linear_solve (system : fvec * fvec) (result_gpu result : fvec)
    : fvec * fvec :=
  let x :=
    solveUpdatePCG m_params nUnknowns nResiduals (fst system) (F32.of_int 2)
      (snd system) result_gpu (F32.of_int (-1)) in
  (x, util_copy result x nUnknowns).

(** Step (5): the update rule applied to the recomputed face and the
    projection. *)
Definition spec_apply (delta : fvec) (face : Face) (projection : mat4)
    : Face * mat4 :=
  (update_rule nShapeCoeffs nExpressionCoeffs delta face,
   set_focal projection (focal projection - dev delta 0)%f32).

(** The five steps in order. *)
Definition spec_iteration (s : SolveState) : SolveState :=
  let '(face, model_matrix) := spec_recompute (st_face s) in
  let derivatives := spec_rotation_derivatives face in
  let system :=
    spec_build face model_matrix derivatives (st_projection s)
      (st_jacobian_gpu s, st_residuals_gpu s) in
  let '(result_gpu, delta) :=
    spec_linear_solve system (st_result_gpu s) (st_result s) in
  let '(face, projection) := spec_apply delta face (st_projection s) in
  MkSolveState face projection (st_jacobian s) (st_residuals s)
    (fst system) (snd system) result_gpu delta
    (st_log s ++ pass_events delta).

End Spec_iteration.

(** A quotient as the specification words it for the step length and the
    direction coefficient: the value in the denominator is replaced by
    [max(value, eps)] before dividing. *)
Definition floored_quotient (eps num value : float) : float :=
  (num / F32.std_max value eps)%f32.

(* ================================================================== *)
(** ** A concrete setting

    Instances of the interfaces and a small input, used to run the
    definitions above on concrete values. *)

Module Demo.

(** The decimal [n / d] rounded to binary32. *)
Definition ratio (n d : Z) : float := (F32.of_int n / F32.of_int d)%f32.

(** Reductions that add their terms from left to right, and an unfused
    multiply-add. *)
Definition blas : CuBLAS := {|
  gemv_kernel alpha a x :=
    (alpha * foldl (fun acc ax => acc + fst ax * snd ax) F32.zero (zip a x))%f32;
  dot_kernel x y :=
    foldl (fun acc xy => acc + fst xy * snd xy)%f32 F32.zero (zip x y);
  axpy_kernel alpha x y := (alpha * x + y)%f32
|}.

Definition identity4 : mat4 :=
  Mat4 (Vec4 F32.one F32.zero F32.zero F32.zero)
       (Vec4 F32.zero F32.one F32.zero F32.zero)
       (Vec4 F32.zero F32.zero F32.one F32.zero)
       (Vec4 F32.zero F32.zero F32.zero F32.one).

Definition zero3 : mat3 :=
  Mat3 (Vec3 F32.zero F32.zero F32.zero) (Vec3 F32.zero F32.zero F32.zero)
       (Vec3 F32.zero F32.zero F32.zero).

(** A rigid face with all its vertices at the origin. *)
Definition face_model : FaceModel := {|
  face_geometry f :=
    replicate (Z.to_nat (m_number_of_vertices f))
      (Vec3 F32.zero F32.zero F32.zero);
  computeModelMatrix _ := identity4;
  computeRotationDerivatives _ := (zero3, zero3, zero3)
|}.

(** Kernels that write ones over the first [nUnknowns] entries of the
    Jacobian buffer and the first observed coordinate over the first entry
    of the residual buffer; the regularizer kernel writes nothing. *)
Definition kernels : CudaKernels := {|
  computeJacobianSparseFeatures args Jr :=
    (overwrite (replicate (Z.to_nat (ja_nUnknowns args)) F32.one) (fst Jr),
     overwrite
       (match ja_key_points args with
        | p :: _ => [v2x p]
        | [] => []
        end) (snd Jr));
  computeRegularizer _ _ _ _ _ Jr := Jr
|}.

(** The observation as the residual, ones in the pose columns, and the
    first two rows of a basis block as they are. *)
Definition host_algebra : HostFeatureAlgebra := {|
  sparse_feature_pose _ _ observed := (observed, fun _ _ => F32.one);
  sparse_feature_basis _ _ block k j := dev (default [] (block !! Z.to_nat j)) k
|}.

Definition prior : PriorSparseFeatures := {| getPriorIds := [0] |}.

(** [powf] at the two exponents the demo uses: [b^0 = 1], and [b] for any
    other exponent. *)
Definition libm : Libm := {|
  powf b e := if F32.is_zero e then F32.one else b
|}.

(** One vertex; one shape and one expression coefficient, both 0.5, with
    unit standard deviations and a basis of one column each. *)
Definition face : Face :=
  MkFace (Vec3 F32.zero F32.zero F32.zero) (Vec3 F32.zero F32.zero F32.zero)
    [ratio 1 2] [ratio 1 2] [F32.one] [F32.one] 1
    [F32.one; F32.zero; F32.zero] [F32.zero; F32.one; F32.zero]
    [Vec3 F32.zero F32.zero F32.zero].

Definition params : Params :=
  MkParams 2 3 1 1 F32.zero (ratio 1 1000000) (ratio 1 1000000).

(** The same configuration with the outer loop switched off. *)
Definition params_off : Params :=
  MkParams 0 3 1 1 F32.zero (ratio 1 1000000) (ratio 1 1000000).

Definition features : list vec2 := [Vec2 (ratio 1 4) (ratio 1 8)].

Definition state : SolveState :=
  @initial_state params features face identity4.

(** A delta of nine entries that drives the expression coefficient to
    [0.5 - 0.8 = -0.3] and the shape coefficient to [0.5 + 0.9 = 1.4]. *)
Definition delta_low : fvec :=
  replicate 7 F32.zero ++ [ratio (-9) 10; ratio 8 10].

(** A delta that drives the expression coefficient to [0.5 + 0.9 = 1.4]. *)
Definition delta_high : fvec :=
  replicate 7 F32.zero ++ [ratio (-9) 10; ratio (-9) 10].


(** The same configuration with no pass in the budget of the linear
    solver. *)
Definition params_frozen : Params :=
  MkParams 2 0 1 1 F32.zero (ratio 1 1000000) (ratio 1 1000000).

(** Two shape and two expression coefficients, and a delta of eleven
    entries for them. *)
Definition face2 : Face :=
  MkFace (Vec3 F32.zero F32.zero F32.zero) (Vec3 F32.zero F32.zero F32.zero)
    [ratio 1 2; ratio 1 4] [ratio 1 2; ratio 3 4] [F32.one; F32.two]
    [F32.one; F32.two] 1 [] [] [].

Definition delta2 : fvec :=
  replicate 7 F32.zero ++ [ratio (-9) 10; ratio 1 10; ratio 8 10; ratio (-1) 10].

(** The initial state with other contents in the buffers a pass
    overwrites. *)
Definition state_dirty : SolveState :=
  MkSolveState face identity4 (st_jacobian state)
    (replicate 4 F32.one) (replicate 36 F32.one) (replicate 4 F32.one)
    (replicate 9 F32.one) (replicate 9 F32.two) [].
End Demo.

(* ================================================================== *)
(** ** Facts about single-precision arithmetic *)

Section F32_facts.

Lemma digits2_pos_shift23 (m : positive) :
  Zpos (digits2_pos (m * 8388608)) = Zpos (digits2_pos m) + 23.
Proof.
  rewrite Pos.mul_comm. cbv [Pos.mul]. cbn [digits2_pos].
  change PosDef.Pos.succ with Pos.succ.
  rewrite !Pos2Z.inj_succ. lia.
Qed.

Lemma shr_shift23 (m : positive) (e : Z) :
  shr (shr_record_of_loc (Z.pos (8388608 * m)) loc_Exact) e 23 =
  (Build_shr_record (Z.pos m) false false, e + 23).
Proof. cbv [Pos.mul]. reflexivity. Qed.

(** Multiplying a binary32 value by 1.0f returns it unchanged. *)
Lemma F32_mul_one_r (x : float) : F32.valid x -> (x * F32.one)%f32 = x.
Proof.
  unfold F32.valid, F32.mul, F32.one, F32.prec, F32.emax.
  destruct x as [s|s| |s m e]; cbn [SFmul valid_binary]; intros Hv;
    rewrite ?xorb_false_r; try reflexivity.
  unfold bounded, canonical_mantissa in Hv.
  apply andb_true_iff in Hv as [Hc Hb].
  apply Z.eqb_eq in Hc.
  unfold binary_round_aux, shr_fexp.
  cbn [Zdigits2]. rewrite digits2_pos_shift23.
  replace (Z.pos (digits2_pos m) + 23 + (e + -23))
    with (Z.pos (digits2_pos m) + e) by lia.
  rewrite Hc.
  replace (e - (e + -23)) with 23 by lia.
  rewrite Pos.mul_comm, shr_shift23.
  cbn [shr_m loc_of_shr_record round_nearest_even Zdigits2].
  replace (e + -23 + 23) with e by lia.
  rewrite Hc, Z.sub_diag.
  cbn [shr shr_record_of_loc shr_m].
  rewrite Hb. reflexivity.
Qed.

Lemma F32_sub_zero_r (x : float) : (x - F32.zero)%f32 = x.
Proof. destruct x as [[]|[]| |s m e]; reflexivity. Qed.

Lemma F32_ltb_leb (a b : float) : F32.ltb a b = true -> F32.leb a b = true.
Proof.
  unfold F32.ltb, F32.leb, SFltb, SFleb.
  destruct (SFcompare a b) as [[]|]; congruence.
Qed.

Lemma F32_ltb_irrefl (a : float) : F32.ltb a a = false.
Proof.
  unfold F32.ltb, SFltb.
  destruct a as [s|[]| |[] m e]; cbn; try reflexivity;
    rewrite Z.compare_refl, Pos.compare_cont_refl; reflexivity.
Qed.

(** Against a zero of either sign the comparison is the same. *)
Lemma F32_ltb_zero_sign (s : bool) (b : float) :
  F32.ltb (S754_zero s) b = F32.ltb F32.zero b.
Proof. destruct b; reflexivity. Qed.

Lemma F32_ltb_zero_one_excl (c : float) :
  F32.ltb c F32.zero = true -> F32.ltb c F32.one = true.
Proof.
  intros H. destruct c as [s|[]| |[] m e]; try discriminate H; reflexivity.
Qed.

Lemma SFcompare_antisym (a b : float) :
  SFcompare b a = CompOpp <$> SFcompare a b.
Proof.
  destruct a as [sa|sa| |sa ma ea], b as [sb|sb| |sb mb eb];
    try reflexivity;
    try (destruct sa; reflexivity);
    try (destruct sb; reflexivity);
    try (destruct sa, sb; reflexivity).
  unfold SFcompare.
  change PosDef.Pos.compare_cont with Pos.compare_cont.
  change IntDef.Z.compare with Z.compare.
  rewrite (Z.compare_antisym ea eb).
  replace (Pos.compare_cont Eq mb ma) with (CompOpp (Pos.compare_cont Eq ma mb))
    by apply (Pos.compare_cont_antisym ma mb Eq).
  destruct sa, sb; cbn [fmap option_fmap option_map CompOpp]; try reflexivity;
    destruct (ea ?= eb); cbn [CompOpp]; try reflexivity;
    destruct (Pos.compare_cont Eq ma mb); reflexivity.
Qed.

Lemma F32_ltb_asym (a b : float) :
  F32.ltb a b = true -> F32.ltb b a = false.
Proof.
  unfold F32.ltb, SFltb. rewrite (SFcompare_antisym a b).
  destruct (SFcompare a b) as [[]|]; cbn; congruence.
Qed.

Lemma F32_feq_refl (c : float) : c <> S754_nan -> feq c c.
Proof.
  unfold feq, SFeqb.
  destruct c as [s|[]| |[] m e]; cbn; try congruence; intros _;
    rewrite Z.compare_refl, Pos.compare_cont_refl; reflexivity.
Qed.

Lemma F32_compare_one_eq (c : float) :
  SFcompare c F32.one = Some Eq -> c = F32.one.
Proof.
  destruct c as [s|[]| |[] m e]; try discriminate.
  unfold F32.one, SFcompare.
  change PosDef.Pos.compare_cont with Pos.compare_cont.
  change IntDef.Z.compare with Z.compare.
  destruct (e ?= -23) eqn:He; try discriminate.
  apply Z.compare_eq in He. subst e.
  destruct (Pos.compare_cont Eq m 8388608) eqn:Hm; try discriminate.
  apply Pos.compare_eq in Hm. subst m. reflexivity.
Qed.

Lemma unit_clamp_range (c : float) : in_unit_interval (unit_clamp c).
Proof.
  unfold unit_clamp, F32.std_min, F32.std_max, in_unit_interval.
  destruct (F32.ltb c F32.one) eqn:H1.
  - destruct (F32.ltb F32.zero c) eqn:H0.
    + split; apply F32_ltb_leb; assumption.
    + split; reflexivity.
  - split; reflexivity.
Qed.

Lemma unit_clamp_below (c : float) :
  F32.ltb c F32.zero = true -> unit_clamp c = F32.zero.
Proof.
  intros Hc. unfold unit_clamp, F32.std_min, F32.std_max.
  rewrite (F32_ltb_zero_one_excl c Hc), (F32_ltb_asym _ _ Hc). reflexivity.
Qed.

Lemma unit_clamp_above (c : float) :
  F32.ltb F32.one c = true -> unit_clamp c = F32.one.
Proof.
  intros Hc. unfold unit_clamp, F32.std_min, F32.std_max.
  rewrite (F32_ltb_asym _ _ Hc). reflexivity.
Qed.

Lemma unit_clamp_inside (c : float) :
  F32.leb F32.zero c = true -> F32.leb c F32.one = true ->
  feq (unit_clamp c) c.
Proof.
  intros H0 H1. unfold unit_clamp, F32.std_min, F32.std_max.
  destruct (F32.ltb c F32.one) eqn:L1.
  - destruct (F32.ltb F32.zero c) eqn:L0.
    + apply F32_feq_refl. intros ->. discriminate H0.
    + destruct c as [s|[]| |[] m e]; try discriminate; reflexivity.
  - unfold F32.leb, SFleb, F32.ltb, SFltb in H1, L1.
    destruct (SFcompare c F32.one) as [[]|] eqn:Hc; try discriminate.
    rewrite (F32_compare_one_eq c Hc). reflexivity.
Qed.

Lemma unit_clamp_clamped (c : float) :
  clamped c F32.zero F32.one (unit_clamp c).
Proof.
  split; [apply unit_clamp_below|].
  split; [apply unit_clamp_above|].
  intros [H0 H1]. apply unit_clamp_inside; assumption.
Qed.

(** A floored divisor never compares below the floor. *)
Lemma std_max_not_below (v eps : float) :
  F32.ltb (F32.std_max v eps) eps = false.
Proof.
  unfold F32.std_max. destruct (F32.ltb v eps) eqn:Hv.
  - apply F32_ltb_irrefl.
  - exact Hv.
Qed.

(** With a positive floor, a floored divisor is not a zero. *)
Lemma std_max_nonzero (v eps : float) :
  F32.ltb F32.zero eps = true -> F32.is_zero (F32.std_max v eps) = false.
Proof.
  intros Heps. unfold F32.std_max. destruct (F32.ltb v eps) eqn:Hv.
  - destruct eps; try reflexivity. discriminate Heps.
  - destruct v as [s| | |]; try reflexivity.
    rewrite F32_ltb_zero_sign in Hv. congruence.
Qed.

Lemma SFcompare_number (a b : float) :
  a <> S754_nan -> b <> S754_nan -> exists c, SFcompare a b = Some c.
Proof.
  intros Ha Hb.
  destruct a as [sa|sa| |sa ma ea], b as [sb|sb| |sb mb eb];
    try congruence; cbn; eauto.
Qed.

(** Between numbers, a floored value is at least the floor. *)
Lemma std_max_at_least (v eps : float) :
  v <> S754_nan -> eps <> S754_nan -> F32.leb eps (F32.std_max v eps) = true.
Proof.
  intros Hv He. unfold F32.std_max. destruct (F32.ltb v eps) eqn:Hlt.
  - pose proof (F32_feq_refl eps He) as Hr. unfold feq, SFeqb in Hr.
    unfold F32.leb, SFleb. destruct (SFcompare eps eps) as [[]|]; done.
  - unfold F32.ltb, SFltb in Hlt. unfold F32.leb, SFleb.
    rewrite (SFcompare_antisym v eps).
    destruct (SFcompare_number v eps Hv He) as [c Hc]. rewrite Hc in *.
    destruct c; done.
Qed.

End F32_facts.

(* ================================================================== *)
(** ** Facts about vectors and loops *)

Section Loop_facts.

Lemma at_Some (v : fvec) (i : Z) :
  0 <= i < Z.of_nat (length v) -> at_ v i = Some (dev v i).
Proof.
  intros Hi. unfold dev, at_. rewrite decide_True by lia.
  destruct (v !! Z.to_nat i) eqn:E; [reflexivity|].
  apply lookup_ge_None in E. lia.
Qed.

Lemma at_of_nat (v : fvec) (k : nat) : at_ v (Z.of_nat k) = v !! k.
Proof. unfold at_. rewrite decide_True by lia. by rewrite Nat2Z.id. Qed.

Lemma store_Some (v : fvec) (i : Z) (a : float) :
  0 <= i < Z.of_nat (length v) -> store v i a = Some (<[Z.to_nat i := a]> v).
Proof. intros Hi. unfold store. by rewrite decide_True. Qed.

Lemma for_each_app {S : Type} (body : Z -> S -> option S) (l1 l2 : list Z) (s : S) :
  for_each body (l1 ++ l2) s = for_each body l1 s ≫= for_each body l2.
Proof.
  revert s. induction l1 as [|i l1 IH]; intros s; cbn; [reflexivity|].
  destruct (body i s); cbn; [apply IH | reflexivity].
Qed.

(** A loop on a structure that only rewrites one component is the loop on
    that component. *)
Lemma for_each_lens {S T : Type} (put : T -> S) (bodyS : Z -> S -> option S)
    (bodyT : Z -> T -> option T) (idx : list Z) (t : T) :
  (forall i t', bodyS i (put t') = put <$> bodyT i t') ->
  for_each bodyS idx (put t) = put <$> for_each bodyT idx t.
Proof.
  intros Hb. revert t. induction idx as [|i idx IH]; intros t; cbn; [reflexivity|].
  rewrite Hb. destruct (bodyT i t); cbn; [apply IH | reflexivity].
Qed.

Lemma for_each_focus {S T : Type} (put : T -> S) (get : S -> T)
    (bodyS : Z -> S -> option S) (bodyT : Z -> T -> option T)
    (idx : list Z) (s : S) :
  put (get s) = s ->
  (forall i t', bodyS i (put t') = put <$> bodyT i t') ->
  for_each bodyS idx s = put <$> for_each bodyT idx (get s).
Proof.
  intros Hs Hb. rewrite <- Hs at 1. by apply for_each_lens.
Qed.

Lemma seqZ_snoc (k : nat) :
  seqZ 0 (Z.of_nat (S k)) = seqZ 0 (Z.of_nat k) ++ [Z.of_nat k].
Proof.
  replace (Z.of_nat (S k)) with (Z.of_nat k + 1) by lia.
  rewrite seqZ_app by lia. reflexivity.
Qed.

Lemma map_prefix_length (n : Z) (h : Z -> float -> float) (l : fvec) :
  length (map_prefix n h l) = length l.
Proof. apply length_imap. Qed.

Lemma map_prefix_lookup (n : Z) (h : Z -> float -> float) (l : fvec) (k : nat) :
  map_prefix n h l !! k =
  (fun a => if decide (Z.of_nat k < n) then h (Z.of_nat k) a else a) <$> l !! k.
Proof. apply list_lookup_imap. Qed.

Lemma map_prefix_0 (h : Z -> float -> float) (l : fvec) : map_prefix 0 h l = l.
Proof.
  apply list_eq. intros k. rewrite map_prefix_lookup.
  destruct (l !! k); cbn; [|reflexivity].
  by rewrite decide_False by lia.
Qed.

Lemma map_prefix_step (k : nat) (h : Z -> float -> float) (l : fvec) (a : float) :
  l !! k = Some a ->
  <[k := h (Z.of_nat k) a]> (map_prefix (Z.of_nat k) h l)
  = map_prefix (Z.of_nat (S k)) h l.
Proof.
  intros Ha. apply list_eq. intros j.
  destruct (decide (j = k)) as [->|Hne].
  - rewrite list_lookup_insert_eq
      by (rewrite map_prefix_length; eapply lookup_lt_Some; eassumption).
    rewrite map_prefix_lookup, Ha. cbn. by rewrite decide_True by lia.
  - rewrite list_lookup_insert_ne by congruence.
    rewrite !map_prefix_lookup. destruct (l !! j); cbn; [|reflexivity].
    repeat case_decide; try reflexivity; lia.
Qed.

(** A counted loop that rewrites entry [i] from its old value in pass [i]. *)
Lemma pointwise_loop (n : Z) (h : Z -> float -> float)
    (body : Z -> fvec -> option fvec) (l : fvec) :
  0 <= n <= Z.of_nat (length l) ->
  (forall i l', 0 <= i < n -> body i l' = (a ← at_ l' i; store l' i (h i a))) ->
  for_int n body l = Some (map_prefix n h l).
Proof.
  intros [Hn0 Hn] Hb. unfold for_int.
  rewrite <- (Z2Nat.id n) in * by assumption.
  induction (Z.to_nat n) as [|k IH].
  - cbn. by rewrite map_prefix_0.
  - rewrite seqZ_snoc, for_each_app.
    rewrite IH by (try lia; intros; apply Hb; lia). cbn.
    rewrite Hb by lia.
    destruct (l !! k) as [a|] eqn:Ha;
      [|apply lookup_ge_None in Ha; lia].
    rewrite at_of_nat, map_prefix_lookup, Ha. cbn.
    rewrite decide_False by lia.
    rewrite store_Some by (rewrite map_prefix_length; lia).
    rewrite Nat2Z.id. by rewrite (map_prefix_step k h l a Ha).
Qed.

Lemma first_n_length (n : Z) (x : fvec) : length (first_n n x) = Z.to_nat n.
Proof. unfold first_n. by rewrite length_fmap, length_seqZ. Qed.

Lemma overwrite_length (computed y : fvec) :
  length y = length computed -> length (overwrite computed y) = length computed.
Proof.
  intros Hy. unfold overwrite. rewrite length_app, length_drop. lia.
Qed.

Lemma util_copy_length (dst src : fvec) (n : Z) :
  length dst = Z.to_nat n -> length (util_copy dst src n) = Z.to_nat n.
Proof.
  intros Hd. unfold util_copy.
  rewrite overwrite_length; rewrite first_n_length; done.
Qed.

End Loop_facts.

(* ================================================================== *)
(** ** Facts about the update step *)

Section Update_facts.

Lemma set_shape_eta (f : Face) : set_shape f (m_shape_coefficients f) = f.
Proof. by destruct f. Qed.

Lemma set_expression_eta (f : Face) :
  set_expression f (m_expression_coefficients f) = f.
Proof. by destruct f. Qed.

(** The two transcriptions of the update step compute the same thing on
    every input, faults included. *)
Lemma apply_steps_agree (nShapeCoeffs nExpressionCoeffs : Z) (result : fvec)
    (face : Face) (projection : mat4) :
  solve_CPU_apply_step nShapeCoeffs nExpressionCoeffs result face projection
  = solve_apply_step nShapeCoeffs nExpressionCoeffs result face projection.
Proof.
  unfold solve_CPU_apply_step, solve_apply_step.
  destruct (at_ result 0) as [r0|]; cbn; [|reflexivity].
  destruct (at_ result 1) as [r1|]; cbn; [|reflexivity].
  destruct (at_ result 2) as [r2|]; cbn; [|reflexivity].
  destruct (at_ result 3) as [r3|]; cbn; [|reflexivity].
  destruct (at_ result 4) as [r4|]; cbn; [|reflexivity].
  destruct (at_ result 5) as [r5|]; cbn; [|reflexivity].
  destruct (at_ result 6) as [r6|]; cbn; [|reflexivity].
  set (f2 := set_translation (set_rotation face _) _).
  unfold for_int.
  rewrite (for_each_focus (set_shape f2) m_shape_coefficients _
             (fun i shape =>
                a ← at_ shape i; d ← at_ result (7 + i);
                sd ← at_ (m_shape_std_dev f2) i;
                store shape i (a - d * F32.one / sd)%f32) _ f2
             (set_shape_eta f2)).
  2:{ intros i t. cbn.
      destruct (at_ t i); cbn; [|reflexivity].
      destruct (at_ result (7 + i)); cbn; [|reflexivity].
      destruct (at_ (m_shape_std_dev face) i); cbn; [|reflexivity].
      destruct (store t i _); reflexivity. }
  cbn.
  destruct (for_each _ (seqZ 0 nShapeCoeffs) (m_shape_coefficients face))
    as [shape|]; cbn; [|reflexivity].
  set (f3 := set_shape f2 shape).
  rewrite (for_each_focus (set_expression f3) m_expression_coefficients _
             (fun i expression =>
                a ← at_ expression i; d ← at_ result (7 + nShapeCoeffs + i);
                sd ← at_ (m_expression_std_dev f3) i;
                store expression i
                  (F32.std_max F32.zero
                     (F32.std_min F32.one (a - d * F32.one / sd)%f32))) _ f3
             (set_expression_eta f3)).
  2:{ intros i t. cbn.
      destruct (at_ t i); cbn; [|reflexivity].
      destruct (at_ result (7 + nShapeCoeffs + i)); cbn; [|reflexivity].
      destruct (at_ (m_expression_std_dev face) i); cbn; [|reflexivity].
      destruct (store t i _); reflexivity. }
  cbn.
  destruct (for_each _ (seqZ 0 nExpressionCoeffs) (m_expression_coefficients face));
    reflexivity.
Qed.

(** Under [update_ready] the step cannot fault and computes the closed
    form. *)
Lemma solve_CPU_apply_step_rule (nShapeCoeffs nExpressionCoeffs : Z)
    (result : fvec) (face : Face) (projection : mat4) :
  update_ready nShapeCoeffs nExpressionCoeffs result face ->
  solve_CPU_apply_step nShapeCoeffs nExpressionCoeffs result face projection
  = Some (update_rule nShapeCoeffs nExpressionCoeffs result face,
          set_focal projection (focal projection - dev result 0)%f32).
Proof.
  intros (HS & HSd & HE & HEd & HR).
  unfold solve_CPU_apply_step.
  rewrite !(at_Some result) by lia. cbn.
  rewrite (pointwise_loop nShapeCoeffs
             (fun i a => raw_update a (dev result (7 + i))
                           (dev (m_shape_std_dev face) i))); [|assumption|].
  2:{ intros i l' Hi. destruct (at_ l' i); cbn; [|reflexivity].
      rewrite (at_Some result), (at_Some (m_shape_std_dev face)) by lia.
      reflexivity. }
  cbn.
  rewrite (pointwise_loop nExpressionCoeffs
             (fun i a => unit_clamp
                           (raw_update a (dev result (7 + nShapeCoeffs + i))
                              (dev (m_expression_std_dev face) i))));
    [|assumption|].
  2:{ intros i l' Hi. destruct (at_ l' i); cbn; [|reflexivity].
      rewrite (at_Some result), (at_Some (m_expression_std_dev face)) by lia.
      reflexivity. }
  reflexivity.
Qed.

Lemma solve_apply_step_rule (nShapeCoeffs nExpressionCoeffs : Z)
    (result : fvec) (face : Face) (projection : mat4) :
  update_ready nShapeCoeffs nExpressionCoeffs result face ->
  solve_apply_step nShapeCoeffs nExpressionCoeffs result face projection
  = Some (update_rule nShapeCoeffs nExpressionCoeffs result face,
          set_focal projection (focal projection - dev result 0)%f32).
Proof.
  intros Hr. rewrite <- apply_steps_agree.
  by apply solve_CPU_apply_step_rule.
Qed.

(** The rule keeps every length, so a ready state stays ready. *)
Lemma update_rule_ready (nS nE : Z) (delta result : fvec) (face : Face) :
  update_ready nS nE result face ->
  update_ready nS nE result (update_rule nS nE delta face).
Proof.
  unfold update_ready, update_rule. cbn.
  rewrite !map_prefix_length. tauto.
Qed.

(** Reading the closed form entry by entry. *)
Lemma update_rule_shape (nS nE : Z) (delta : fvec) (face : Face) (i : Z) :
  0 <= i < nS -> nS <= Z.of_nat (length (m_shape_coefficients face)) ->
  at_ (m_shape_coefficients (update_rule nS nE delta face)) i
  = Some (raw_update (dev (m_shape_coefficients face) i) (dev delta (7 + i))
            (dev (m_shape_std_dev face) i)).
Proof.
  intros Hi Hn. cbn.
  rewrite <- (Z2Nat.id i) at 1 by lia.
  rewrite at_of_nat, map_prefix_lookup.
  assert (at_ (m_shape_coefficients face) i
          = Some (dev (m_shape_coefficients face) i)) as Ha
    by (apply at_Some; lia).
  unfold at_ in Ha. rewrite decide_True in Ha by lia. rewrite Ha. cbn.
  rewrite Z2Nat.id by lia. by rewrite decide_True by lia.
Qed.

Lemma update_rule_expression (nS nE : Z) (delta : fvec) (face : Face) (i : Z) :
  0 <= i < nE -> nE <= Z.of_nat (length (m_expression_coefficients face)) ->
  at_ (m_expression_coefficients (update_rule nS nE delta face)) i
  = Some (unit_clamp
            (raw_update (dev (m_expression_coefficients face) i)
               (dev delta (7 + nS + i)) (dev (m_expression_std_dev face) i))).
Proof.
  intros Hi Hn. cbn.
  rewrite <- (Z2Nat.id i) at 1 by lia.
  rewrite at_of_nat, map_prefix_lookup.
  assert (at_ (m_expression_coefficients face) i
          = Some (dev (m_expression_coefficients face) i)) as Ha
    by (apply at_Some; lia).
  unfold at_ in Ha. rewrite decide_True in Ha by lia. rewrite Ha. cbn.
  rewrite Z2Nat.id by lia. by rewrite decide_True by lia.
Qed.

Lemma update_rule_expression_length (nS nE : Z) (delta : fvec) (face : Face) :
  length (m_expression_coefficients (update_rule nS nE delta face))
  = length (m_expression_coefficients face).
Proof. apply map_prefix_length. Qed.

(** Entries at or beyond the configured count are left as they were. *)
Lemma update_rule_expression_beyond (nS nE : Z) (delta : fvec) (face : Face)
    (k : nat) :
  nE <= Z.of_nat k ->
  m_expression_coefficients (update_rule nS nE delta face) !! k
  = m_expression_coefficients face !! k.
Proof.
  intros Hk. cbn. rewrite map_prefix_lookup.
  destruct (m_expression_coefficients face !! k); cbn; [|reflexivity].
  by rewrite decide_False by lia.
Qed.

(** A shape coefficient is handed back as it is when its delta entry is
    zero, whatever its value. *)
Lemma shape_step_keeps_any_value (v : float) (P : mat4) :
  exists face' P',
    solve_apply_step 1 0 (replicate 8 F32.zero) (single_shape_face v) P
    = Some (face', P') /\
    m_shape_coefficients face' = [v].
Proof.
  rewrite solve_apply_step_rule by (unfold update_ready; cbn; lia).
  do 2 eexists. split; [reflexivity|].
  change (m_shape_coefficients
            (update_rule 1 0 (replicate 8 F32.zero) (single_shape_face v)))
    with [(v - F32.zero)%f32].
  by rewrite F32_sub_zero_r.
Qed.

Lemma raw_update_valid (a d sd : float) :
  F32.valid d -> raw_update a d sd = (a - d / sd)%f32.
Proof. intros Hd. unfold raw_update. by rewrite F32_mul_one_r. Qed.

Lemma dev_valid (v : fvec) (i : Z) : Forall F32.valid v -> F32.valid (dev v i).
Proof.
  intros Hv. unfold dev, at_. case_decide; [|reflexivity].
  destruct (v !! Z.to_nat i) eqn:E; [|reflexivity].
  cbn. eapply Forall_lookup_1; eassumption.
Qed.

End Update_facts.

(* ================================================================== *)
(** ** The passes of the Gauss-Newton loop *)

Section Pass_facts.
Context `{FaceModel, CuBLAS, CudaKernels, HostFeatureAlgebra,
          PriorSparseFeatures, Libm}.
Variable m_params : Params.
Variable sparse_features : list vec2.
Variable jacobian_world_11 : float.
Variable wReg : float.
Let nFeatures : Z := Z.of_nat (length sparse_features).
Let nShapeCoeffs : Z := num_shape_coefficients m_params.
Let nExpressionCoeffs : Z := num_expression_coefficients m_params.
Let nUnknowns : Z := 7 + (nShapeCoeffs + nExpressionCoeffs).
Let nResiduals : Z := 2 * nFeatures + (nShapeCoeffs + nExpressionCoeffs).

(** A state from which a pass cannot fault. *)
Let ready (s : SolveState) : Prop :=
  update_ready nShapeCoeffs nExpressionCoeffs (st_result s) (st_face s).

(** One pass of [solve] from a ready state, in closed form. *)
Lemma solve_pass_closed (s : SolveState) :
  ready s ->
  exists (jacobian_gpu residuals_gpu : fvec),
    let result_gpu :=
      solveUpdatePCG m_params nUnknowns nResiduals jacobian_gpu (F32.of_int 2)
        residuals_gpu (st_result_gpu s) (F32.of_int (-1)) in
    let result := util_copy (st_result s) result_gpu nUnknowns in
    Z.of_nat (length result) = nUnknowns /\
    solve_pass m_params sparse_features jacobian_world_11 wReg s
    = Some (MkSolveState
              (update_rule nShapeCoeffs nExpressionCoeffs result
                 (computeFace (st_face s)))
              (set_focal (st_projection s)
                 (focal (st_projection s) - dev result 0)%f32)
              (st_jacobian s) (st_residuals s) jacobian_gpu residuals_gpu
              result_gpu result (st_log s ++ pass_events result)).
Proof.
  intros Hr. unfold solve_pass.
  destruct (computeRegularizer _ _ _ _ _ _) as [J r] eqn:EJ.
  exists J, r. cbn zeta.
  set (result := util_copy _ _ _).
  assert (Z.of_nat (length result) = nUnknowns) as Hlen.
  { destruct Hr as (? & ? & ? & ? & Hres).
    subst result. rewrite util_copy_length; unfold nUnknowns; lia. }
  split; [exact Hlen|].
  rewrite solve_apply_step_rule.
  - reflexivity.
  - destruct Hr as (? & ? & ? & ? & ?). repeat split; cbn; try lia.
Qed.

(** A pass leaves a ready state ready. *)
Lemma solve_pass_ready (s s' : SolveState) :
  ready s ->
  solve_pass m_params sparse_features jacobian_world_11 wReg s = Some s' ->
  ready s'.
Proof.
  intros Hr Hs. destruct (solve_pass_closed s Hr) as (J & r & Hlen & Heq).
  rewrite Heq in Hs. injection Hs as <-. unfold ready. cbn.
  apply update_rule_ready.
  destruct Hr as (? & ? & ? & ? & ?).
  unfold update_ready. cbn.
  repeat split; try lia. exact Hlen.
Qed.

Lemma initial_state_ready (face : Face) (projection : mat4) :
  face_ready m_params face ->
  ready (initial_state m_params sparse_features face projection).
Proof.
  intros (? & ? & ? & ?). unfold ready, update_ready, initial_state. cbn.
  rewrite length_replicate.
  unfold nShapeCoeffs, nExpressionCoeffs. repeat split; try lia.
Qed.

(** A pass of [solve] from a ready state is the iteration of the
    specification. *)
Lemma solve_pass_spec (s : SolveState) :
  ready s ->
  solve_pass m_params sparse_features jacobian_world_11 wReg s
  = Some (spec_iteration m_params sparse_features jacobian_world_11 wReg s) /\
  ready (spec_iteration m_params sparse_features jacobian_world_11 wReg s) /\
  Z.of_nat (length (st_result
                      (spec_iteration m_params sparse_features
                         jacobian_world_11 wReg s))) = nUnknowns.
Proof.
  intros Hr.
  assert (solve_pass m_params sparse_features jacobian_world_11 wReg s
          = Some (spec_iteration m_params sparse_features jacobian_world_11
                    wReg s)) as Heq.
  { unfold solve_pass, spec_iteration, spec_recompute,
      spec_rotation_derivatives, spec_build, spec_linear_solve, spec_apply.
    destruct (computeRegularizer _ _ _ _ _ _) as [J r] eqn:EJ.
    cbn [fst snd].
    rewrite solve_apply_step_rule; [reflexivity|].
    destruct Hr as (? & ? & ? & ? & Hres).
    repeat split; cbn; try lia.
    rewrite util_copy_length; unfold nUnknowns in *; lia. }
  split; [exact Heq|].
  split; [eapply solve_pass_ready; [exact Hr | exact Heq]|].
  unfold spec_iteration, spec_recompute, spec_linear_solve, spec_apply.
  cbn [st_result].
  destruct Hr as (_ & _ & _ & _ & Hres).
  rewrite util_copy_length; unfold nUnknowns in *; lia.
Qed.

(** A loop whose body does not read its index is the iteration of that
    body, as often as the loop has passes. *)
Lemma for_each_iter {St : Type} (P : St -> Prop) (f : St -> option St)
    (g : St -> St) (idx : list Z) (s : St) :
  (forall s, P s -> f s = Some (g s) /\ P (g s)) ->
  P s ->
  for_each (fun _ s => f s) idx s = Some (Nat.iter (length idx) g s) /\
  P (Nat.iter (length idx) g s).
Proof.
  intros Hstep. revert s. induction idx as [|i idx IH]; intros s Hs.
  - split; [reflexivity | exact Hs].
  - destruct (Hstep s Hs) as [Hf Hg]. cbn [for_each length].
    rewrite Hf. cbn [mbind option_bind].
    rewrite Nat.iter_succ_r. by apply IH.
Qed.

End Pass_facts.

(* ================================================================== *)
(** ** The Gauss-Newton driver: statements *)

Section Driver_statements.
Context `{FaceModel, CuBLAS, CudaKernels, HostFeatureAlgebra,
          PriorSparseFeatures, Libm}.
Variable m_params : Params.
Let nShapeCoeffs : Z := num_shape_coefficients m_params.
Let nExpressionCoeffs : Z := num_expression_coefficients m_params.
Let nUnknowns : Z := 7 + (nShapeCoeffs + nExpressionCoeffs).

(** C1.  In every pass of the loop of [solve], from any state whose
    coefficient vectors hold the configured counts, the pass completes and
    the delta it applies is the host copy of what [solveUpdatePCG] returned,
    one entry per unknown.  The focal entry of the projection is decremented
    by [delta[0]], the rotation by [delta[1..3]], the translation by
    [delta[4..6]]; shape coefficient [i] becomes
    [shape[i] - delta[7+i] * sca / sd[i]] with [sca = 1] and is not clamped;
    and when the entries of the delta are binary32 values this is
    [shape[i] - delta[7+i] / sd[i]], while expression coefficient [i] is
    [expr[i] - delta[7+nShape+i] / sd[i]] clamped to [[0, 1]]. *)
Theorem solve_pass_update_rule (sparse_features : list vec2)
    (jacobian_world_11 wReg : float) (s : SolveState) :
  update_ready nShapeCoeffs nExpressionCoeffs (st_result s) (st_face s) ->
  exists s' : SolveState,
    solve_pass m_params sparse_features jacobian_world_11 wReg s = Some s' /\
    let delta := st_result s' in
    let face := st_face s in
    let nResiduals :=
      2 * Z.of_nat (length sparse_features) + (nShapeCoeffs + nExpressionCoeffs) in
    st_result_gpu s'
    = solveUpdatePCG m_params nUnknowns nResiduals (st_jacobian_gpu s')
        (F32.of_int 2) (st_residuals_gpu s') (st_result_gpu s)
        (F32.of_int (-1)) /\
    delta = util_copy (st_result s) (st_result_gpu s') nUnknowns /\
    Z.of_nat (length delta) = nUnknowns /\
    focal (st_projection s') = (focal (st_projection s) - dev delta 0)%f32 /\
    m_rotation_coefficients (st_face s')
    = Vec3 (v3x (m_rotation_coefficients face) - dev delta 1)%f32
           (v3y (m_rotation_coefficients face) - dev delta 2)%f32
           (v3z (m_rotation_coefficients face) - dev delta 3)%f32 /\
    m_translation_coefficients (st_face s')
    = Vec3 (v3x (m_translation_coefficients face) - dev delta 4)%f32
           (v3y (m_translation_coefficients face) - dev delta 5)%f32
           (v3z (m_translation_coefficients face) - dev delta 6)%f32 /\
    (forall i, 0 <= i < nShapeCoeffs ->
       at_ (m_shape_coefficients (st_face s')) i
       = Some (dev (m_shape_coefficients face) i
               - dev delta (7 + i) * F32.one / dev (m_shape_std_dev face) i)%f32) /\
    (Forall F32.valid delta ->
       (forall i, 0 <= i < nShapeCoeffs ->
          at_ (m_shape_coefficients (st_face s')) i
          = Some (dev (m_shape_coefficients face) i
                  - dev delta (7 + i) / dev (m_shape_std_dev face) i)%f32) /\
       (forall i, 0 <= i < nExpressionCoeffs ->
          exists y,
            at_ (m_expression_coefficients (st_face s')) i = Some y /\
            clamped
              (dev (m_expression_coefficients face) i
               - dev delta (7 + nShapeCoeffs + i)
                 / dev (m_expression_std_dev face) i)%f32
              F32.zero F32.one y)).
Proof.
  intros Hr.
  destruct (solve_pass_closed m_params sparse_features jacobian_world_11 wReg s Hr)
    as (J & r & Hlen & Heq).
  destruct Hr as (HS & HSd & HE & HEd & HR).
  eexists. split; [exact Heq|].
  cbn [st_result st_face st_projection st_result_gpu st_jacobian_gpu
       st_residuals_gpu].
  split; [reflexivity|]. split; [reflexivity|]. split; [exact Hlen|].
  split; [reflexivity|]. split; [reflexivity|]. split; [reflexivity|].
  split.
  - intros i Hi. rewrite update_rule_shape by (cbn; lia). reflexivity.
  - intros Hv. split.
    + intros i Hi. rewrite update_rule_shape by (cbn; lia). cbn.
      by rewrite raw_update_valid by (by apply dev_valid).
    + intros i Hi. eexists. split.
      * apply update_rule_expression; cbn; lia.
      * cbn. rewrite <- raw_update_valid by (by apply dev_valid).
        apply unit_clamp_clamped.
Qed.

(** C2.  With an empty feature sequence [solve] (and [solve_CPU]) returns
    at once: no pass runs, and the face model and the projection matrix are
    the ones passed in. *)
Theorem solve_empty_is_noop (face : Face) (projection : mat4) :
  solve m_params [] face projection = Some (MkOutcome face projection []) /\
  solve_CPU m_params [] face projection = Some (MkOutcome face projection []).
Proof. split; reflexivity. Qed.

(** C3.  After every pass of the loop of [solve], each of the
    [num_expression_coefficients] expression coefficients the pass updates
    lies in [[0, 1]]: it is 0 when the raw update is below 0 and 1 when the
    raw update is above 1.  Entries of the vector beyond that count, if the
    face has any, are not touched; when the count is the length of the
    vector, every expression coefficient of the face lies in [[0, 1]].
    Shape coefficients receive the raw update unclamped, and a shape
    coefficient can end a step at any value. *)
Theorem solve_pass_expression_bounds (sparse_features : list vec2)
    (jacobian_world_11 wReg : float) (s : SolveState) :
  update_ready nShapeCoeffs nExpressionCoeffs (st_result s) (st_face s) ->
  exists s' : SolveState,
    solve_pass m_params sparse_features jacobian_world_11 wReg s = Some s' /\
    let delta := st_result s' in
    let face := st_face s in
    (forall i, 0 <= i < nExpressionCoeffs ->
       let raw :=
         raw_update (dev (m_expression_coefficients face) i)
           (dev delta (7 + nShapeCoeffs + i)) (dev (m_expression_std_dev face) i) in
       exists y,
         at_ (m_expression_coefficients (st_face s')) i = Some y /\
         in_unit_interval y /\
         (F32.ltb raw F32.zero = true -> y = F32.zero) /\
         (F32.ltb F32.one raw = true -> y = F32.one)) /\
    (forall k : nat, nExpressionCoeffs <= Z.of_nat k ->
       m_expression_coefficients (st_face s') !! k
       = m_expression_coefficients face !! k) /\
    (nExpressionCoeffs = Z.of_nat (length (m_expression_coefficients face)) ->
       Forall in_unit_interval (m_expression_coefficients (st_face s'))) /\
    (forall i, 0 <= i < nShapeCoeffs ->
       at_ (m_shape_coefficients (st_face s')) i
       = Some (raw_update (dev (m_shape_coefficients face) i)
                 (dev delta (7 + i)) (dev (m_shape_std_dev face) i))) /\
    (forall (v : float) (P : mat4),
       exists face' P',
         solve_apply_step 1 0 (replicate 8 F32.zero) (single_shape_face v) P
         = Some (face', P') /\
         m_shape_coefficients face' = [v]).
Proof.
  intros Hr.
  destruct (solve_pass_closed m_params sparse_features jacobian_world_11 wReg s Hr)
    as (J & r & Hlen & Heq).
  destruct Hr as (HS & HSd & HE & HEd & HR).
  eexists. split; [exact Heq|].
  cbn [st_result st_face st_projection st_result_gpu st_jacobian_gpu
       st_residuals_gpu].
  split; [|split; [|split; [|split]]].
  - intros i Hi. eexists. split; [apply update_rule_expression; cbn; lia|].
    split; [apply unit_clamp_range|].
    split; [apply unit_clamp_below | apply unit_clamp_above].
  - intros k Hk. rewrite update_rule_expression_beyond by exact Hk.
    reflexivity.
  - intros Hn. apply Forall_lookup_2. intros k y Hk.
    assert (Z.of_nat k < nExpressionCoeffs) as Hlt.
    { apply lookup_lt_Some in Hk.
      rewrite update_rule_expression_length in Hk. cbn in Hk. lia. }
    rewrite <- at_of_nat in Hk.
    rewrite update_rule_expression in Hk by (cbn; lia).
    injection Hk as <-. apply unit_clamp_range.
  - intros i Hi. rewrite update_rule_shape by (cbn; lia). reflexivity.
  - intros v P. apply shape_step_keeps_any_value.
Qed.

(** C4.  On a non-empty feature sequence, and a face whose coefficient
    vectors hold the configured counts, [solve] returns the state reached by
    exactly [num_gn_iterations] iterations of the specification (none when
    the count is not positive), whatever the residuals are: no pass is cut
    short or left out.  Each iteration recomputes the vertex positions and
    the model matrix from the current coefficients, takes the three
    rotation derivatives of the recomputed face, builds the Jacobian and the
    residual from them and the projection, runs the linear solver on that
    system, and applies the resulting delta to the recomputed face and the
    projection, each step on what the steps before it produced; the delta
    has one entry per unknown. *)
Theorem solve_runs_all_passes (sparse_features : list vec2) (face : Face)
    (projection : mat4) :
  sparse_features <> [] ->
  face_ready m_params face ->
  let iteration :=
    spec_iteration m_params sparse_features (v4y (m4c1 projection))
      (powf F32.ten (regularisation_weight_exponent m_params)) in
  let state (k : nat) :=
    Nat.iter k iteration
      (initial_state m_params sparse_features face projection) in
  solve m_params sparse_features face projection
  = Some (outcome_of (state (Z.to_nat (num_gn_iterations m_params)))) /\
  (forall k : nat, Z.of_nat (length (st_result (state k))) = nUnknowns).
Proof.
  intros Hne Hf iteration state.
  assert (forall s,
            update_ready nShapeCoeffs nExpressionCoeffs (st_result s) (st_face s) ->
            solve_pass m_params sparse_features (v4y (m4c1 projection))
              (powf F32.ten (regularisation_weight_exponent m_params)) s
            = Some (iteration s) /\
            update_ready nShapeCoeffs nExpressionCoeffs (st_result (iteration s))
              (st_face (iteration s))) as Hstep.
  { intros s Hs.
    destruct (solve_pass_spec m_params sparse_features (v4y (m4c1 projection))
                (powf F32.ten (regularisation_weight_exponent m_params)) s Hs)
      as (Heq & Hr & _).
    split; [exact Heq | exact Hr]. }
  pose proof (initial_state_ready m_params sparse_features face projection Hf)
    as Hinit.
  assert (forall k : nat,
            update_ready nShapeCoeffs nExpressionCoeffs (st_result (state k))
              (st_face (state k))) as Hready.
  { intros k. induction k as [|k IH]; [exact Hinit|].
    apply (Hstep (state k) IH). }
  split.
  - destruct (for_each_iter _ _ iteration
                (seqZ 0 (num_gn_iterations m_params)) _ Hstep Hinit)
      as [Hrun _].
    rewrite length_seqZ in Hrun.
    unfold solve. destruct sparse_features as [|p ps]; [congruence|].
    unfold for_int. rewrite Hrun. reflexivity.
  - intros k. apply (Hready k).
Qed.

(** C9.  The update step of [solve_CPU] and the update step of [solve]
    return the same result on every delta, face and projection; when the
    coefficient vectors hold the configured counts and the delta has
    [7 + nShape + nExpr] entries, both return the state the update rule
    describes. *)
Theorem update_steps_coincide (nS nE : Z) (delta : fvec) (face : Face)
    (projection : mat4) :
  solve_CPU_apply_step nS nE delta face projection
  = solve_apply_step nS nE delta face projection /\
  (update_ready nS nE delta face ->
   solve_CPU_apply_step nS nE delta face projection
   = Some (update_rule nS nE delta face,
           set_focal projection (focal projection - dev delta 0)%f32) /\
   solve_apply_step nS nE delta face projection
   = Some (update_rule nS nE delta face,
           set_focal projection (focal projection - dev delta 0)%f32)).
Proof.
  split; [apply apply_steps_agree|].
  intros Hr. split;
    [by apply solve_CPU_apply_step_rule | by apply solve_apply_step_rule].
Qed.

(** C10.  When [num_gn_iterations] is zero or negative, [solve] (and
    [solve_CPU]) runs no pass and returns the face model and the projection
    matrix it was given, also on a non-empty feature sequence. *)
Theorem solve_without_iterations (sparse_features : list vec2) (face : Face)
    (projection : mat4) :
  num_gn_iterations m_params <= 0 ->
  solve m_params sparse_features face projection
  = Some (MkOutcome face projection []) /\
  solve_CPU m_params sparse_features face projection
  = Some (MkOutcome face projection []).
Proof.
  intros Hn. unfold solve, solve_CPU, for_int.
  rewrite seqZ_nil by lia.
  destruct sparse_features; split; reflexivity.
Qed.

End Driver_statements.

(* ================================================================== *)
(** ** Facts about the conjugate-gradient loops *)

Section Break_loop_facts.
Context {St : Type}.
Variables (advance : St -> St) (below : St -> bool) (on_break redirect : St -> St).

Lemma break_loop_cases (budget : nat) (s : St) :
  (exists j, (j < budget)%nat /\
     (forall j', (j' < j)%nat ->
        below (advance (full_passes advance redirect j' s)) = false) /\
     below (advance (full_passes advance redirect j s)) = true /\
     break_loop advance below on_break redirect budget s
     = on_break (advance (full_passes advance redirect j s)))
  \/
  ((forall j', (j' < budget)%nat ->
      below (advance (full_passes advance redirect j' s)) = false) /\
   break_loop advance below on_break redirect budget s
   = full_passes advance redirect budget s).
Proof.
  revert s. induction budget as [|b IH]; intros s.
  - right. split; [intros j' Hj'; lia | reflexivity].
  - cbn [break_loop]. destruct (below (advance s)) eqn:E.
    + left. exists 0%nat. repeat split; [lia | intros j' Hj'; lia | exact E].
    + destruct (IH (redirect (advance s))) as [(j & Hj & Hbefore & Hat & Heq)|[Hall Heq]].
      * left. exists (S j). split; [lia|]. split.
        { intros [|j'] Hj'; [exact E|]. apply Hbefore. lia. }
        split; [exact Hat | exact Heq].
      * right. split; [|exact Heq].
        intros [|j'] Hj'; [exact E|]. apply Hall. lia.
Qed.

Lemma break_loop_invariant (P : St -> Prop) (budget : nat) (s : St) :
  (forall s, P s -> P (advance s)) ->
  (forall s, P s -> P (on_break s)) ->
  (forall s, P s -> P (redirect s)) ->
  P s -> P (break_loop advance below on_break redirect budget s).
Proof.
  intros Ha Hb Hr. revert s. induction budget as [|b IH]; intros s Hs.
  - exact Hs.
  - cbn [break_loop]. destruct (below (advance s)).
    + apply Hb, Ha, Hs.
    + apply IH, Hr, Ha, Hs.
Qed.

(** The loop ends as [budgeted_exit] says, for any way of counting started
    passes and recording the [break] that the three steps respect. *)
Lemma break_loop_exit (entered : St -> nat) (broke : St -> bool)
    (budget : nat) (s0 : St) :
  (forall s, entered (advance s) = S (entered s)) ->
  (forall s, entered (redirect s) = entered s) ->
  (forall s, entered (on_break s) = entered s) ->
  (forall s, broke (advance s) = broke s) ->
  (forall s, broke (redirect s) = broke s) ->
  (forall s, broke (on_break s) = true) ->
  entered s0 = 0%nat -> broke s0 = false ->
  let final := break_loop advance below on_break redirect budget s0 in
  budgeted_exit advance redirect on_break below budget s0 final
    (entered final) (broke final).
Proof.
  intros Hea Her Heb Hba Hbr Hbb He0 Hb0 final.
  assert (forall k, entered (full_passes advance redirect k s0) = k
                    /\ broke (full_passes advance redirect k s0) = false) as Hfull.
  { intros k.
    enough (forall s, entered (full_passes advance redirect k s)
                      = (entered s + k)%nat
                      /\ broke (full_passes advance redirect k s) = broke s) as Hk.
    { destruct (Hk s0) as [-> ->]. split; [lia | exact Hb0]. }
    induction k as [|k IH]; intros s; cbn; [split; [lia|reflexivity]|].
    destruct (IH (redirect (advance s))) as [-> ->].
    rewrite Her, Hea, Hbr, Hba. split; [lia|reflexivity]. }
  unfold budgeted_exit.
  destruct (break_loop_cases budget s0) as [(j & Hj & Hbefore & Hat & Heq)|[Hall Heq]];
    fold final in Heq.
  - assert (entered final = S j) as Hent.
    { rewrite Heq, Heb, Hea. by destruct (Hfull j) as [-> _]. }
    assert (broke final = true) as Hbk by (rewrite Heq; apply Hbb).
    rewrite Hent, Hbk. split; [lia|]. split.
    + intros j' Hj'. apply Hbefore. lia.
    + split; [intros _; exists j; auto | discriminate].
  - destruct (Hfull budget) as [Hent Hbk].
    rewrite <- Heq in Hent, Hbk. rewrite Hent, Hbk.
    split; [lia|]. split.
    + intros j' Hj'. apply Hall. lia.
    + split; [discriminate | intros _; auto].
Qed.

End Break_loop_facts.

Section Solver_facts.
Context `{CuBLAS}.
Variable m_params : Params.
Variables nUnknowns nResiduals : Z.
Variable jacobian : fvec.
Variable alphaLHS : float.

Lemma overwrite_full (computed y : fvec) :
  length y = length computed -> overwrite computed y = computed.
Proof.
  intros Hy. unfold overwrite.
  rewrite drop_ge by lia. apply app_nil_r.
Qed.

Lemma device_array_length (n : Z) : length (device_array n) = Z.to_nat n.
Proof. apply length_replicate. Qed.

(** The element-wise product rewrites the whole of a buffer of [n]
    entries, so the old contents do not matter. *)
Lemma elementwise_fresh (n : Z) (M r z : fvec) :
  length z = Z.to_nat n ->
  elementwiseMultiplication n M r z
  = elementwiseMultiplication n M r (device_array n).
Proof.
  intros Hz. unfold elementwiseMultiplication.
  rewrite !overwrite_full;
    rewrite ?length_fmap, ?length_seqZ, ?device_array_length; done.
Qed.

Lemma elementwise_length (n : Z) (M r z : fvec) :
  length z = Z.to_nat n ->
  length (elementwiseMultiplication n M r z) = Z.to_nat n.
Proof.
  intros Hz. unfold elementwiseMultiplication.
  rewrite overwrite_full; rewrite length_fmap, length_seqZ; done.
Qed.

(** Plain CG, pass by pass, is the scheme with [z = r]. *)
Lemma cg_loop_scheme (budget : nat) (s : CgState) :
  cg_x (cg_loop m_params nUnknowns nResiduals jacobian alphaLHS budget s)
  = sch_x (scheme_loop m_params nUnknowns nResiduals jacobian alphaLHS
             (fun r => r) budget
             (MkScheme (cg_x s) (cg_r s) (cg_p s) (cg_rTr s))).
Proof.
  revert s. induction budget as [|b IH]; intros s; [reflexivity|].
  unfold cg_loop in *. cbn [break_loop scheme_loop sch_x sch_r sch_p sch_rho].
  unfold cg_below at 1. cbn [cg_advance cg_rTr].
  destruct (F32.ltb _ (kTolerance m_params)); [reflexivity|].
  rewrite IH. reflexivity.
Qed.

(** PCG, pass by pass, is the scheme with [z = M (.) r]. *)
Lemma pcg_loop_scheme (M : fvec) (budget : nat) (s : PcgState) :
  length (pcg_z s) = Z.to_nat nUnknowns ->
  pcg_x (pcg_loop m_params nUnknowns nResiduals jacobian alphaLHS M budget s)
  = sch_x (scheme_loop m_params nUnknowns nResiduals jacobian alphaLHS
             (fun r => elementwiseMultiplication nUnknowns M r
                         (device_array nUnknowns))
             budget
             (MkScheme (pcg_x s) (pcg_r s) (pcg_p s) (pcg_zTr_old s))).
Proof.
  revert s. induction budget as [|b IH]; intros s Hz; [reflexivity|].
  unfold pcg_loop in *. cbn [break_loop scheme_loop sch_x sch_r sch_p sch_rho].
  unfold pcg_below at 1. cbn [pcg_advance pcg_zTr].
  rewrite (elementwise_fresh nUnknowns M _ (pcg_z s) Hz).
  destruct (F32.ltb _ (kTolerance m_params)); [reflexivity|].
  rewrite IH.
  - cbn. rewrite (elementwise_fresh nUnknowns M _ (pcg_z s) Hz). reflexivity.
  - cbn. by apply elementwise_length.
Qed.

Lemma sum_of_squares_diag (j : Z) :
  sum_of_squares (matrix_col jacobian nResiduals nResiduals j)
  = JTJ_entry nResiduals jacobian j j.
Proof.
  unfold sum_of_squares, matrix_col, JTJ_entry.
  rewrite foldl_fmap. reflexivity.
Qed.

Lemma preconditioner_entry (M0 : fvec) (j : Z) :
  0 <= j < nUnknowns ->
  dev (computeJacobiPreconditioner nUnknowns nResiduals jacobian M0) j
  = (F32.one / (F32.two * JTJ_entry nResiduals jacobian j j))%f32.
Proof.
  intros Hj. unfold computeJacobiPreconditioner, overwrite, dev, at_.
  rewrite decide_True by lia.
  rewrite lookup_app_l by (rewrite length_fmap, length_seqZ; lia).
  rewrite list_lookup_fmap, lookup_seqZ_lt by lia. cbn.
  rewrite Z2Nat.id by lia. by rewrite sum_of_squares_diag.
Qed.

End Solver_facts.

(* ================================================================== *)
(** ** The conjugate-gradient solvers: statements *)

Section Solver_statements.
Context `{CuBLAS}.
Variable m_params : Params.
Variables nUnknowns nResiduals : Z.
Variable jacobian : fvec.
Variable alphaLHS : float.

(** C5.  [solveUpdateCG] is the scheme of the specification run with
    [z = r]; [solveUpdatePCG] is the same scheme run with [z = M (.) r], so
    [z] takes the place of [r] in the inner product ([zt r] for [rt r] in the
    step length, in the direction coefficient and in the exit test) and in
    the new direction [p]; and each entry [j] of [M] is
    [1 / (2 (JtJ)(j,j))], obtained from the sum of squares of column [j]
    alone. *)
Theorem pcg_is_preconditioned_cg (residuals x : fvec) (alphaRHS : float) :
  let M :=
    computeJacobiPreconditioner nUnknowns nResiduals jacobian
      (device_array nUnknowns) in
  solveUpdateCG m_params nUnknowns nResiduals jacobian alphaLHS residuals x
    alphaRHS
  = scheme_solve m_params nUnknowns nResiduals jacobian alphaLHS
      (fun r => r) residuals x alphaRHS /\
  solveUpdatePCG m_params nUnknowns nResiduals jacobian alphaLHS residuals x
    alphaRHS
  = scheme_solve m_params nUnknowns nResiduals jacobian alphaLHS
      (fun r => elementwiseMultiplication nUnknowns M r (device_array nUnknowns))
      residuals x alphaRHS /\
  forall j, 0 <= j < nUnknowns ->
    dev M j = (F32.one / (F32.two * JTJ_entry nResiduals jacobian j j))%f32 /\
    sum_of_squares (matrix_col jacobian nResiduals nResiduals j)
    = JTJ_entry nResiduals jacobian j j.
Proof.
  intros M. split; [|split].
  - unfold solveUpdateCG, solveUpdateCG_state, scheme_solve.
    rewrite cg_loop_scheme. reflexivity.
  - unfold solveUpdatePCG, solveUpdatePCG_state, scheme_solve, pcg_init.
    rewrite pcg_loop_scheme.
    + reflexivity.
    + cbn. apply elementwise_length, device_array_length.
  - intros j Hj. split;
      [by apply preconditioner_entry | apply sum_of_squares_diag].
Qed.

(** C6.  Both loops start at most [min(nUnknowns, num_pcg_iterations)]
    passes.  They leave through [break] exactly when a pass finds the inner
    product ([zt r] in PCG, [rt r] in CG) below [kTolerance], at the first
    such pass; otherwise every pass of the budget runs.  Either way the
    function returns the iterate [x] of the final state, and there is no
    other way out. *)
Theorem cg_loops_budgeted (residuals x : fvec) (alphaRHS : float) :
  let budget := Z.to_nat (Z.min nUnknowns (num_pcg_iterations m_params)) in
  let M := fst (pcg_init nUnknowns nResiduals jacobian residuals x alphaRHS) in
  let p0 := snd (pcg_init nUnknowns nResiduals jacobian residuals x alphaRHS) in
  let pf :=
    solveUpdatePCG_state m_params nUnknowns nResiduals jacobian alphaLHS
      residuals x alphaRHS in
  let c0 := cg_init nUnknowns nResiduals jacobian residuals x alphaRHS in
  let cf :=
    solveUpdateCG_state m_params nUnknowns nResiduals jacobian alphaLHS
      residuals x alphaRHS in
  (budgeted_exit
     (pcg_advance m_params nUnknowns nResiduals jacobian alphaLHS M)
     (pcg_redirect m_params nUnknowns) pcg_break
     (fun s => F32.ltb (pcg_zTr s) (kTolerance m_params))
     budget p0 pf (pcg_entered pf) (pcg_broke pf) /\
   solveUpdatePCG m_params nUnknowns nResiduals jacobian alphaLHS residuals x
     alphaRHS = pcg_x pf) /\
  (budgeted_exit
     (cg_advance m_params nUnknowns nResiduals jacobian alphaLHS)
     (cg_redirect m_params nUnknowns) cg_break
     (fun s => F32.ltb (cg_rTr s) (kTolerance m_params))
     budget c0 cf (cg_entered cf) (cg_broke cf) /\
   solveUpdateCG m_params nUnknowns nResiduals jacobian alphaLHS residuals x
     alphaRHS = cg_x cf).
Proof.
  intros budget M p0 pf c0 cf. split; (split; [|reflexivity]).
  - apply (break_loop_exit
             (pcg_advance m_params nUnknowns nResiduals jacobian alphaLHS M)
             (fun s => F32.ltb (pcg_zTr s) (kTolerance m_params))
             pcg_break (pcg_redirect m_params nUnknowns)
             pcg_entered pcg_broke budget p0); reflexivity.
  - apply (break_loop_exit
             (cg_advance m_params nUnknowns nResiduals jacobian alphaLHS)
             (fun s => F32.ltb (cg_rTr s) (kTolerance m_params))
             cg_break (cg_redirect m_params nUnknowns)
             cg_entered cg_broke budget c0); reflexivity.
Qed.

(** C7.  In both loops, and in every state a pass can start from, the
    step length [ak] that moves [x] and [r] is the previous inner product
    divided by [max(pt JtJ p, kNearZero)], and the direction coefficient [bk]
    that scales [p] is the new inner product divided by
    [max(previous inner product, kNearZero)]; these are the divisions of the
    loop bodies.  A divisor [max(v, kNearZero)] never compares below
    [kNearZero]; between numbers it is at least [kNearZero]; and it is not a
    zero when [kNearZero] is positive. *)
Theorem cg_divisors_floored :
  let eps := kNearZero m_params in
  (forall (M : fvec) (s : PcgState),
     let JTJp := apply_JTJ nUnknowns nResiduals jacobian alphaLHS (pcg_p s) in
     let ak :=
       floored_quotient eps (pcg_zTr_old s)
         (cublasSdot nUnknowns (pcg_p s) JTJp) in
     let bk := floored_quotient eps (pcg_zTr s) (pcg_zTr_old s) in
     let s1 := pcg_advance m_params nUnknowns nResiduals jacobian alphaLHS M s in
     pcg_x s1 = cublasSaxpy nUnknowns ak (pcg_p s) (pcg_x s) /\
     pcg_r s1 = cublasSaxpy nUnknowns (ak * F32.minus_one)%f32 JTJp (pcg_r s) /\
     pcg_p (pcg_redirect m_params nUnknowns s)
     = cublasSaxpy nUnknowns F32.one (pcg_z s)
         (cublasSscal nUnknowns bk (pcg_p s))) /\
  (forall s : CgState,
     let JTJp := apply_JTJ nUnknowns nResiduals jacobian alphaLHS (cg_p s) in
     let ak :=
       floored_quotient eps (cg_rTr s) (cublasSdot nUnknowns (cg_p s) JTJp) in
     let bk := floored_quotient eps (cg_rTr s) (cg_rTr_old s) in
     let s1 := cg_advance m_params nUnknowns nResiduals jacobian alphaLHS s in
     cg_x s1 = cublasSaxpy nUnknowns ak (cg_p s) (cg_x s) /\
     cg_r s1 = cublasSaxpy nUnknowns (ak * F32.minus_one)%f32 JTJp (cg_r s) /\
     cg_p (cg_redirect m_params nUnknowns s)
     = cublasSaxpy nUnknowns F32.one (cg_r s)
         (cublasSscal nUnknowns bk (cg_p s))) /\
  (forall v : float,
     let d := F32.std_max v eps in
     F32.ltb d eps = false /\
     (v <> S754_nan -> eps <> S754_nan -> F32.leb eps d = true) /\
     (F32.ltb F32.zero eps = true -> F32.is_zero d = false)).
Proof.
  intros eps. split; [|split].
  - intros M s. cbn zeta. repeat split.
  - intros s. cbn zeta. repeat split.
  - intros v. cbn zeta. split; [apply std_max_not_below|].
    split; [apply std_max_at_least | apply std_max_nonzero].
Qed.

End Solver_statements.

(* ================================================================== *)
(** ** Facts about the host-side Jacobian *)

Section Matrix_facts.

(** A counted loop with an invariant that may mention the loop index. *)
Lemma for_int_inv {St : Type} (P : Z -> St -> Prop) (n : Z)
    (body : Z -> St -> option St) (s : St) :
  0 <= n -> P 0 s ->
  (forall i s, 0 <= i < n -> P i s -> exists s', body i s = Some s' /\ P (i + 1) s') ->
  exists s', for_int n body s = Some s' /\ P n s'.
Proof.
  intros Hn H0 Hstep. unfold for_int.
  rewrite <- (Z2Nat.id n) in * by assumption.
  induction (Z.to_nat n) as [|k IH].
  - exists s. split; [reflexivity | exact H0].
  - destruct IH as (s1 & Hrun & Hs1); [lia | intros; apply Hstep; [lia|assumption] |].
    destruct (Hstep (Z.of_nat k) s1) as (s2 & Hb & Hs2); [lia | exact Hs1 |].
    exists s2. rewrite seqZ_snoc, for_each_app, Hrun. cbn.
    rewrite Hb. split; [reflexivity|].
    replace (Z.of_nat (S k)) with (Z.of_nat k + 1) by lia. exact Hs2.
Qed.

Lemma dev_insert_same (v : fvec) (k : Z) (a : float) :
  0 <= k < Z.of_nat (length v) -> dev (<[Z.to_nat k := a]> v) k = a.
Proof.
  intros Hk. unfold dev, at_. rewrite decide_True by lia.
  by rewrite list_lookup_insert_eq by lia.
Qed.

Lemma dev_insert_other (v : fvec) (k j : Z) (a : float) :
  0 <= k -> j <> k -> dev (<[Z.to_nat k := a]> v) j = dev v j.
Proof.
  intros Hk Hj. unfold dev, at_. case_decide; [|reflexivity].
  by rewrite list_lookup_insert_ne by lia.
Qed.

(** What [v[i] = a] does to an entry that exists. *)
Lemma store_spec (v : fvec) (i : Z) (a : float) :
  0 <= i < Z.of_nat (length v) ->
  exists v', store v i a = Some v' /\ length v' = length v /\
    dev v' i = a /\ forall j, j <> i -> dev v' j = dev v j.
Proof.
  intros Hi. exists (<[Z.to_nat i := a]> v).
  split; [by apply store_Some|]. split; [apply length_insert|].
  split; [by apply dev_insert_same|].
  intros j Hj. apply dev_insert_other; lia.
Qed.

(** What [jacobian(r, c) = a] does to an entry that exists. *)
Lemma mat_store_spec (nResiduals nUnknowns : Z) (J : fvec) (r c : Z) (a : float) :
  0 <= r < nResiduals -> 0 <= c < nUnknowns ->
  length J = Z.to_nat (nResiduals * nUnknowns) ->
  exists J', mat_store nResiduals nUnknowns J r c a = Some J' /\
    length J' = length J /\
    mat_get nResiduals J' r c = a /\
    forall r' c', 0 <= r' < nResiduals -> 0 <= c' -> r' <> r \/ c' <> c ->
      mat_get nResiduals J' r' c' = mat_get nResiduals J r' c'.
Proof.
  intros Hr Hc HJ. unfold mat_store, mat_get.
  rewrite decide_True by lia.
  assert (0 <= r + c * nResiduals < Z.of_nat (length J)) as Hidx by nia.
  destruct (store_spec J (r + c * nResiduals) a Hidx) as (J' & Hs & Hl & Hsame & Hoth).
  exists J'. split; [exact Hs|]. split; [exact Hl|]. split; [exact Hsame|].
  intros r' c' Hr' Hc' Hne. apply Hoth. intros Heq.
  assert (c' = c) as Hcc.
  { destruct (Z.lt_trichotomy c' c) as [Hlt|[Hcc|Hlt]];
      [exfalso | exact Hcc | exfalso]; nia. }
  subst c'. assert (r' = r) by lia. destruct Hne; contradiction.
Qed.

End Matrix_facts.

Section Host_jacobian_facts.
Context `{HostFeatureAlgebra, PriorSparseFeatures}.
Variables nResiduals nUnknowns : Z.

(** A block write touches the two rows it names and nothing else. *)
Lemma write_block_frame (r0 c0 w : Z) (rows : Z -> Z -> float) (J : fvec) :
  0 <= w -> 0 <= r0 -> r0 + 1 < nResiduals -> 0 <= c0 -> c0 + w <= nUnknowns ->
  length J = Z.to_nat (nResiduals * nUnknowns) ->
  exists J', write_block nResiduals nUnknowns r0 c0 w rows J = Some J' /\
    length J' = length J /\
    forall r c, 0 <= r < nResiduals -> 0 <= c -> r <> r0 -> r <> r0 + 1 ->
      mat_get nResiduals J' r c = mat_get nResiduals J r c.
Proof.
  intros Hw Hr0 Hr1 Hc0 Hcw HJ. unfold write_block.
  apply (for_int_inv
           (fun _ J' => length J' = length J /\
              forall r c, 0 <= r < nResiduals -> 0 <= c -> r <> r0 -> r <> r0 + 1 ->
                mat_get nResiduals J' r c = mat_get nResiduals J r c));
    [exact Hw | split; [reflexivity | auto] |].
  intros i J1 Hi (Hl1 & Hf1).
  destruct (mat_store_spec nResiduals nUnknowns J1 r0 (c0 + i) (rows 0 (c0 + i)))
    as (J2 & Hs2 & Hl2 & _ & Hf2); [lia | lia | congruence |].
  destruct (mat_store_spec nResiduals nUnknowns J2 (r0 + 1) (c0 + i)
              (rows 1 (c0 + i)))
    as (J3 & Hs3 & Hl3 & _ & Hf3); [lia | lia | congruence |].
  exists J3. rewrite Hs2. cbn. rewrite Hs3.
  split; [reflexivity|]. split; [congruence|].
  intros r c Hr Hc Hn0 Hn1.
  rewrite Hf3, Hf2, Hf1 by (auto; lia). reflexivity.
Qed.

(** One of the two loops of the regularizer, on the block whose first row
    is [r0] and first column is [c0]. *)
Lemma regularizer_loop (wReg : float) (sdv coeffs : fvec) (r0 c0 n : Z)
    (J residuals : fvec) :
  0 <= n <= Z.of_nat (length sdv) -> n <= Z.of_nat (length coeffs) ->
  0 <= r0 -> r0 + n <= nResiduals -> 0 <= c0 -> c0 + n <= nUnknowns ->
  length J = Z.to_nat (nResiduals * nUnknowns) ->
  length residuals = Z.to_nat nResiduals ->
  exists J' residuals',
    for_int n (fun i '(J, residuals) =>
         sd ← at_ sdv i;
         a ← at_ coeffs i;
         J ← mat_store nResiduals nUnknowns J (r0 + i) (c0 + i)
               ((F32.one / sd) * (F32.one / sd) * a * wReg * F32.two)%f32;
         residuals ← store residuals (r0 + i) F32.zero;
         Some (J, residuals)) (J, residuals) = Some (J', residuals') /\
    length J' = length J /\ length residuals' = length residuals /\
    (forall i, 0 <= i < n ->
       mat_get nResiduals J' (r0 + i) (c0 + i)
       = regularizer_entry (dev sdv i) (dev coeffs i) wReg /\
       dev residuals' (r0 + i) = F32.zero) /\
    (forall r c, 0 <= r < nResiduals -> 0 <= c ->
       ~ (r0 <= r < r0 + n /\ c = c0 + (r - r0)) ->
       mat_get nResiduals J' r c = mat_get nResiduals J r c) /\
    (forall j, ~ (r0 <= j < r0 + n) -> dev residuals' j = dev residuals j).
Proof.
  intros Hn Hnc Hr0 Hrn Hc0 Hcn HJ Hres.
  destruct (for_int_inv
              (fun k (st : fvec * fvec) =>
                 length (fst st) = length J /\ length (snd st) = length residuals /\
                 (forall i, 0 <= i < k ->
                    mat_get nResiduals (fst st) (r0 + i) (c0 + i)
                    = regularizer_entry (dev sdv i) (dev coeffs i) wReg /\
                    dev (snd st) (r0 + i) = F32.zero) /\
                 (forall r c, 0 <= r < nResiduals -> 0 <= c ->
                    ~ (r0 <= r < r0 + k /\ c = c0 + (r - r0)) ->
                    mat_get nResiduals (fst st) r c = mat_get nResiduals J r c) /\
                 (forall j, ~ (r0 <= j < r0 + k) -> dev (snd st) j = dev residuals j))
              n
              (fun i '(J, residuals) =>
                 sd ← at_ sdv i;
                 a ← at_ coeffs i;
                 J ← mat_store nResiduals nUnknowns J (r0 + i) (c0 + i)
                       ((F32.one / sd) * (F32.one / sd) * a * wReg * F32.two)%f32;
                 residuals ← store residuals (r0 + i) F32.zero;
                 Some (J, residuals))
              (J, residuals))
    as ([J' residuals'] & Hrun & Hl & Hlr & Hd & Hf & Hfr).
  - lia.
  - cbn [fst snd]. split; [reflexivity|]. split; [reflexivity|].
    split; [intros i Hi; lia|]. split; auto.
  - intros k [J1 res1] Hk (Hl1 & Hlr1 & Hd1 & Hf1 & Hfr1). cbn [fst snd] in *.
    rewrite (at_Some sdv), (at_Some coeffs) by lia. cbn [mbind option_bind].
    destruct (mat_store_spec nResiduals nUnknowns J1 (r0 + k) (c0 + k)
                (regularizer_entry (dev sdv k) (dev coeffs k) wReg))
      as (J2 & Hs2 & Hl2 & Hsame2 & Hoth2); [lia | lia | congruence |].
    destruct (store_spec res1 (r0 + k) F32.zero)
      as (res2 & Hs3 & Hl3 & Hsame3 & Hoth3); [lia|].
    unfold regularizer_entry in Hs2. rewrite Hs2. cbn [mbind option_bind].
    rewrite Hs3. cbn [mbind option_bind].
    eexists. split; [reflexivity|]. cbn [fst snd].
    split; [congruence|]. split; [congruence|]. split; [|split].
    + intros i Hi. destruct (decide (i = k)) as [->|Hne].
      * split; [exact Hsame2 | exact Hsame3].
      * destruct (Hd1 i) as [Hd1a Hd1b]; [lia|].
        rewrite Hoth2 by lia. rewrite Hoth3 by lia. split; assumption.
    + intros r c Hr Hc Hnot. rewrite Hoth2 by lia. apply Hf1; [lia..|]. lia.
    + intros j Hj. rewrite Hoth3 by lia. apply Hfr1. lia.
  - exists J', residuals'. cbn [fst snd] in *. auto 10.
Qed.

(** The regularizer completes; it writes the diagonal of its block and the
    matching residual entries, and no other entry of the Jacobian. *)
Lemma cpu_regularizer_spec (nFeatures nShapeCoeffs nExpressionCoeffs : Z)
    (wReg : float) (face : Face) (J residuals : fvec) :
  0 <= nFeatures ->
  0 <= nShapeCoeffs <= Z.of_nat (length (m_shape_coefficients face)) ->
  nShapeCoeffs <= Z.of_nat (length (m_shape_std_dev face)) ->
  0 <= nExpressionCoeffs <= Z.of_nat (length (m_expression_coefficients face)) ->
  nExpressionCoeffs <= Z.of_nat (length (m_expression_std_dev face)) ->
  nUnknowns = 7 + (nShapeCoeffs + nExpressionCoeffs) ->
  nResiduals = 2 * nFeatures + (nShapeCoeffs + nExpressionCoeffs) ->
  length J = Z.to_nat (nResiduals * nUnknowns) ->
  length residuals = Z.to_nat nResiduals ->
  exists J' residuals',
    cpu_regularizer nFeatures nShapeCoeffs nExpressionCoeffs nUnknowns
      nResiduals wReg face (J, residuals) = Some (J', residuals') /\
    length J' = length J /\ length residuals' = length residuals /\
    (forall i, 0 <= i < nShapeCoeffs ->
       mat_get nResiduals J' (2 * nFeatures + i) (7 + i)
       = regularizer_entry (dev (m_shape_std_dev face) i)
           (dev (m_shape_coefficients face) i) wReg /\
       dev residuals' (2 * nFeatures + i) = F32.zero) /\
    (forall i, 0 <= i < nExpressionCoeffs ->
       mat_get nResiduals J' (2 * nFeatures + nShapeCoeffs + i)
         (7 + nShapeCoeffs + i)
       = regularizer_entry (dev (m_expression_std_dev face) i)
           (dev (m_expression_coefficients face) i) wReg /\
       dev residuals' (2 * nFeatures + nShapeCoeffs + i) = F32.zero) /\
    (forall r c, 0 <= r < nResiduals -> 0 <= c ->
       r < 2 * nFeatures \/ c <> r - 2 * nFeatures + 7 ->
       mat_get nResiduals J' r c = mat_get nResiduals J r c).
Proof.
  intros HF HS HSd HE HEd HU HR HJ Hres.
  unfold cpu_regularizer. cbv zeta.
  destruct (regularizer_loop wReg (m_shape_std_dev face)
              (m_shape_coefficients face) (2 * nFeatures) 7 nShapeCoeffs
              J residuals)
    as (J1 & res1 & Hrun1 & Hl1 & Hlr1 & Hd1 & Hf1 & Hfr1); [lia..| | |];
    [assumption | assumption |].
  rewrite Hrun1. cbn [mbind option_bind].
  destruct (regularizer_loop wReg (m_expression_std_dev face)
              (m_expression_coefficients face) (2 * nFeatures + nShapeCoeffs)
              (7 + nShapeCoeffs) nExpressionCoeffs J1 res1)
    as (J2 & res2 & Hrun2 & Hl2 & Hlr2 & Hd2 & Hf2 & Hfr2); [lia..| | |];
    [congruence | congruence |].
  exists J2, res2. split; [exact Hrun2|].
  split; [congruence|]. split; [congruence|]. split; [|split].
  - intros i Hi. destruct (Hd1 i Hi) as [Ha Hb].
    rewrite Hf2 by lia. rewrite Hfr2 by lia. split; assumption.
  - exact Hd2.
  - intros r c Hr Hc Hoff. rewrite Hf2 by lia. apply Hf1; lia.
Qed.

End Host_jacobian_facts.

(* ================================================================== *)
(** ** More about the update step *)

Section Pointwise_passes.
(** A loop body that rewrites entry [i] from its old value, provided the
    other reads of pass [i] succeed. *)
Variable valid : Z -> bool.
Variable h : Z -> float -> float.
Variable body : Z -> fvec -> option fvec.
Hypothesis body_eq :
  forall i l, body i l = if valid i then (a ← at_ l i; store l i (h i a)) else None.

Lemma pointwise_pass_Some (i : Z) (l l' : fvec) :
  body i l = Some l' ->
  valid i = true /\ 0 <= i < Z.of_nat (length l) /\
  l' = <[Z.to_nat i := h i (dev l i)]> l.
Proof.
  rewrite body_eq. destruct (valid i); [|discriminate].
  unfold dev. destruct (at_ l i) as [a|] eqn:Ea; [|discriminate]. cbn.
  unfold store. case_decide; [|discriminate]. intros [= <-]. auto.
Qed.

Lemma pointwise_pass_run (i : Z) (l : fvec) :
  valid i = true -> 0 <= i < Z.of_nat (length l) ->
  body i l = Some (<[Z.to_nat i := h i (dev l i)]> l).
Proof.
  intros Hv Hi. rewrite body_eq, Hv, (at_Some l i Hi). cbn.
  by apply store_Some.
Qed.

(** If the loop completes, every pass was inside the vectors. *)
Lemma pointwise_loop_defined (idx : list Z) (l l' : fvec) :
  for_each body idx l = Some l' ->
  length l' = length l /\
  forall i, i ∈ idx -> valid i = true /\ 0 <= i < Z.of_nat (length l).
Proof.
  revert l. induction idx as [|j idx IH]; intros l Hrun.
  - injection Hrun as <-. split; [reflexivity|]. intros i Hi. inversion Hi.
  - cbn [for_each] in Hrun.
    destruct (body j l) as [l1|] eqn:Ej; [|discriminate]. cbn in Hrun.
    destruct (pointwise_pass_Some j l l1 Ej) as (Hv & Hj & ->).
    destruct (IH _ Hrun) as [Hlen Hall]. rewrite length_insert in Hlen, Hall.
    split; [exact Hlen|].
    intros i Hi. apply elem_of_cons in Hi as [->|Hi]; [auto | by apply Hall].
Qed.

(** The value of the loop over any duplicate-free list of valid indices. *)
Lemma pointwise_loop_value (idx : list Z) (l : fvec) :
  NoDup idx ->
  (forall i, i ∈ idx -> valid i = true /\ 0 <= i < Z.of_nat (length l)) ->
  for_each body idx l = Some (map_at idx h l).
Proof.
  revert l. induction idx as [|j idx IH]; intros l Hnd Hall.
  - cbn. f_equal. apply list_eq. intros k. unfold map_at.
    rewrite list_lookup_imap. destruct (l !! k); cbn; [|reflexivity].
    rewrite decide_False; [reflexivity | intros Hk; inversion Hk].
  - apply NoDup_cons in Hnd as [Hj Hnd].
    destruct (Hall j) as [Hv Hij]; [left|].
    cbn [for_each]. rewrite (pointwise_pass_run j l Hv Hij). cbn.
    rewrite IH; [|exact Hnd|].
    2:{ intros i Hi. rewrite length_insert. apply Hall. by right. }
    f_equal. apply list_eq. intros k. unfold map_at.
    rewrite !list_lookup_imap.
    destruct (decide (k = Z.to_nat j)) as [->|Hne].
    + rewrite list_lookup_insert_eq by lia.
      assert (l !! Z.to_nat j = Some (dev l j)) as Hl.
      { pose proof (at_Some l j Hij) as Ha. unfold at_ in Ha.
        by rewrite decide_True in Ha by lia. }
      rewrite Hl. cbn. rewrite Z2Nat.id by lia.
      rewrite decide_False by exact Hj.
      rewrite decide_True by left. reflexivity.
    + rewrite list_lookup_insert_ne by congruence.
      destruct (l !! k) as [a|]; cbn; [|reflexivity].
      destruct (decide (Z.of_nat k ∈ idx)) as [Hin|Hnin].
      * rewrite decide_True by (by right). reflexivity.
      * rewrite decide_False; [reflexivity|].
        intros Hc. apply elem_of_cons in Hc as [Hc|Hc]; [lia | contradiction].
Qed.

(** The loop gives the same result over any reordering of its passes. *)
Lemma pointwise_loop_reorder (idx idx' : list Z) (l : fvec) :
  NoDup idx -> idx' ≡ₚ idx ->
  for_each body idx' l = for_each body idx l.
Proof.
  intros Hnd Hp.
  assert (NoDup idx') as Hnd' by (by rewrite Hp).
  assert (forall (i1 i2 : list Z) (l2 : fvec), NoDup i1 -> i2 ≡ₚ i1 ->
            for_each body i1 l = Some l2 ->
            for_each body i2 l = Some (map_at i1 h l)) as Hone.
  { intros i1 i2 l2 Hn1 Hp12 Hrun.
    destruct (pointwise_loop_defined i1 l l2 Hrun) as [_ Hall].
    rewrite pointwise_loop_value.
    - f_equal. unfold map_at. apply imap_ext. intros k a _.
      destruct (decide (Z.of_nat k ∈ i2)) as [Hin|Hnin].
      + rewrite decide_True; [reflexivity | by rewrite <- Hp12].
      + rewrite decide_False; [reflexivity | by rewrite <- Hp12].
    - by rewrite Hp12.
    - intros i Hi. apply Hall. by rewrite <- Hp12. }
  destruct (for_each body idx l) as [l2|] eqn:E2.
  - rewrite (Hone idx idx' l2 Hnd Hp E2).
    destruct (pointwise_loop_defined idx l l2 E2) as [_ Hall].
    rewrite (pointwise_loop_value idx l Hnd Hall) in E2. congruence.
  - destruct (for_each body idx' l) as [l1|] eqn:E1; [|reflexivity].
    symmetry in Hp. rewrite (Hone idx' idx l1 Hnd' Hp E1) in E2. discriminate.
Qed.

End Pointwise_passes.

Section Update_more.

Lemma reads_ok_iff (result sdv : fvec) (off i : Z) :
  0 <= off -> 0 <= i ->
  reads_ok result sdv off i = true <->
  off + i < Z.of_nat (length result) /\ i < Z.of_nat (length sdv).
Proof.
  intros Ho Hi. unfold reads_ok, at_. rewrite !decide_True by lia.
  destruct (result !! Z.to_nat (off + i)) eqn:E1;
    destruct (sdv !! Z.to_nat i) eqn:E2;
    try apply lookup_lt_Some in E1; try apply lookup_lt_Some in E2;
    try apply lookup_ge_None in E1; try apply lookup_ge_None in E2;
    split; intros; try done; lia.
Qed.

Lemma shape_pass_eq (result sdv : fvec) (i : Z) (l : fvec) :
  shape_pass result sdv i l
  = if reads_ok result sdv 7 i
    then (a ← at_ l i;
          store l i (raw_update a (dev result (7 + i)) (dev sdv i)))
    else None.
Proof.
  unfold shape_pass, reads_ok, dev, raw_update.
  destruct (at_ l i); cbn;
    destruct (at_ result (7 + i)); cbn; try reflexivity;
    destruct (at_ sdv i); reflexivity.
Qed.

Lemma expression_pass_eq (nS : Z) (result sdv : fvec) (i : Z) (l : fvec) :
  expression_pass nS result sdv i l
  = if reads_ok result sdv (7 + nS) i
    then (a ← at_ l i;
          store l i
            (unit_clamp (raw_update a (dev result (7 + nS + i)) (dev sdv i))))
    else None.
Proof.
  unfold expression_pass, reads_ok, dev, raw_update, unit_clamp.
  destruct (at_ l i); cbn;
    destruct (at_ result (7 + nS + i)); cbn; try reflexivity;
    destruct (at_ sdv i); reflexivity.
Qed.

Lemma map_at_seqZ (n : Z) (h : Z -> float -> float) (l : fvec) :
  map_at (seqZ 0 n) h l = map_prefix n h l.
Proof.
  unfold map_at, map_prefix. apply imap_ext. intros k a _.
  destruct (decide (Z.of_nat k < n)) as [Hlt|Hge].
  - rewrite decide_True; [reflexivity | apply elem_of_seqZ; lia].
  - rewrite decide_False; [reflexivity|]. rewrite elem_of_seqZ. lia.
Qed.

(** The transcription of the step with explicit loop bodies, taken in the
    order of the source. *)
Lemma apply_step_in_source_order (nS nE : Z) (result : fvec) (face : Face)
    (projection : mat4) :
  apply_step_in_order (seqZ 0 nS) (seqZ 0 nE) nS result face projection
  = solve_CPU_apply_step nS nE result face projection.
Proof.
  unfold apply_step_in_order, solve_CPU_apply_step, for_int.
  destruct (at_ result 0) as [r0|]; cbn; [|reflexivity].
  destruct (at_ result 1) as [r1|]; cbn; [|reflexivity].
  destruct (at_ result 2) as [r2|]; cbn; [|reflexivity].
  destruct (at_ result 3) as [r3|]; cbn; [|reflexivity].
  destruct (at_ result 4) as [r4|]; cbn; [|reflexivity].
  destruct (at_ result 5) as [r5|]; cbn; [|reflexivity].
  destruct (at_ result 6) as [r6|]; cbn; [|reflexivity].
  reflexivity.
Qed.

Lemma dev_of_at (v : fvec) (i : Z) (a : float) : at_ v i = Some a -> dev v i = a.
Proof. intros Ha. unfold dev. by rewrite Ha. Qed.

Lemma at_Some_lt (v : fvec) (i : Z) (a : float) :
  at_ v i = Some a -> 0 <= i < Z.of_nat (length v).
Proof.
  unfold at_. case_decide; [|discriminate].
  intros Ha. apply lookup_lt_Some in Ha. lia.
Qed.

(** Whenever the update step returns, it returns the closed form. *)
Lemma apply_step_Some_closed (nS nE : Z) (result : fvec) (face face' : Face)
    (projection projection' : mat4) :
  solve_apply_step nS nE result face projection = Some (face', projection') ->
  face' = update_rule nS nE result face /\
  projection' = set_focal projection (focal projection - dev result 0)%f32 /\
  6 < Z.of_nat (length result) /\
  (forall i, 0 <= i < nS ->
     reads_ok result (m_shape_std_dev face) 7 i = true /\
     i < Z.of_nat (length (m_shape_coefficients face))) /\
  (forall i, 0 <= i < nE ->
     reads_ok result (m_expression_std_dev face) (7 + nS) i = true /\
     i < Z.of_nat (length (m_expression_coefficients face))).
Proof.
  rewrite <- apply_steps_agree, <- apply_step_in_source_order.
  unfold apply_step_in_order.
  destruct (at_ result 0) as [r0|] eqn:E0; cbn; [|discriminate].
  destruct (at_ result 1) as [r1|] eqn:E1; cbn; [|discriminate].
  destruct (at_ result 2) as [r2|] eqn:E2; cbn; [|discriminate].
  destruct (at_ result 3) as [r3|] eqn:E3; cbn; [|discriminate].
  destruct (at_ result 4) as [r4|] eqn:E4; cbn; [|discriminate].
  destruct (at_ result 5) as [r5|] eqn:E5; cbn; [|discriminate].
  destruct (at_ result 6) as [r6|] eqn:E6; cbn; [|discriminate].
  destruct (for_each (shape_pass _ _) _ _) as [shape|] eqn:Es; cbn; [|discriminate].
  destruct (for_each (expression_pass _ _ _) _ _) as [expression|] eqn:Ee; cbn;
    [|discriminate].
  intros [= <- <-].
  destruct (pointwise_loop_defined _ _ _ (shape_pass_eq result (m_shape_std_dev face))
              _ _ _ Es) as [_ Hs].
  destruct (pointwise_loop_defined _ _ _
              (expression_pass_eq nS result (m_expression_std_dev face))
              _ _ _ Ee) as [_ He].
  rewrite (pointwise_loop_value _ _ _ (shape_pass_eq result (m_shape_std_dev face))
             _ _ (NoDup_seqZ 0 nS) Hs) in Es.
  rewrite (pointwise_loop_value _ _ _
             (expression_pass_eq nS result (m_expression_std_dev face))
             _ _ (NoDup_seqZ 0 nE) He) in Ee.
  injection Es as <-. injection Ee as <-.
  rewrite !map_at_seqZ.
  split; [|split; [|split; [|split]]].
  - unfold update_rule.
    rewrite (dev_of_at _ _ _ E1), (dev_of_at _ _ _ E2), (dev_of_at _ _ _ E3),
      (dev_of_at _ _ _ E4), (dev_of_at _ _ _ E5), (dev_of_at _ _ _ E6).
    reflexivity.
  - by rewrite (dev_of_at _ _ _ E0).
  - apply at_Some_lt in E6. lia.
  - intros i Hi. destruct (Hs i) as [Hv Hl]; [apply elem_of_seqZ; lia|].
    split; [exact Hv | lia].
  - intros i Hi. destruct (He i) as [Hv Hl]; [apply elem_of_seqZ; lia|].
    split; [exact Hv | lia].
Qed.

(** Under [update_defined] the step completes. *)
Lemma apply_step_defined_closed (nS nE : Z) (result : fvec) (face : Face)
    (projection : mat4) :
  0 <= nS -> 0 <= nE ->
  update_defined nS nE result face ->
  solve_apply_step nS nE result face projection
  = Some (update_rule nS nE result face,
          set_focal projection (focal projection - dev result 0)%f32).
Proof.
  intros HnS HnE (HS & HSd & HE & HEd & HR).
  rewrite <- apply_steps_agree, <- apply_step_in_source_order.
  unfold apply_step_in_order.
  rewrite !(at_Some result) by lia. cbn.
  rewrite (pointwise_loop_value _ _ _ (shape_pass_eq result (m_shape_std_dev face))
             _ _ (NoDup_seqZ 0 nS)).
  2:{ intros i Hi. apply elem_of_seqZ in Hi.
      split; [apply reads_ok_iff; lia | lia]. }
  cbn.
  rewrite (pointwise_loop_value _ _ _
             (expression_pass_eq nS result (m_expression_std_dev face))
             _ _ (NoDup_seqZ 0 nE)).
  2:{ intros i Hi. apply elem_of_seqZ in Hi.
      split; [apply reads_ok_iff; lia | lia]. }
  cbn. rewrite !map_at_seqZ. reflexivity.
Qed.

(** An update step that returns has stayed inside its vectors. *)
Lemma apply_step_Some_defined (nS nE : Z) (result : fvec) (face face' : Face)
    (projection projection' : mat4) :
  0 <= nS -> 0 <= nE ->
  solve_apply_step nS nE result face projection = Some (face', projection') ->
  update_defined nS nE result face.
Proof.
  intros HnS HnE Hrun.
  destruct (apply_step_Some_closed _ _ _ _ _ _ _ Hrun)
    as (_ & _ & H6 & Hs & He).
  assert (nS = 0 \/ 0 <= nS - 1 < nS) as [->|HiS] by lia;
    assert (nE = 0 \/ 0 <= nE - 1 < nE) as [->|HiE] by lia;
    unfold update_defined.
  - lia.
  - destruct (He _ HiE) as [Hv Hl].
    apply reads_ok_iff in Hv; lia.
  - destruct (Hs _ HiS) as [Hv Hl].
    apply reads_ok_iff in Hv; lia.
  - destruct (Hs _ HiS) as [Hv Hl]. destruct (He _ HiE) as [Hv' Hl'].
    apply reads_ok_iff in Hv; [|lia..].
    apply reads_ok_iff in Hv'; lia.
Qed.

(** X1.  For non-negative counts, the update step of [solve] (lines 391-413)
    stays inside its vectors, and so returns, exactly when the shape and
    expression vectors and their standard deviations hold the configured
    counts and the result holds [7 + nShape + nExpr] entries. *)
Theorem update_step_defined_iff (nS nE : Z) (result : fvec) (face : Face)
    (projection : mat4) :
  0 <= nS -> 0 <= nE ->
  (is_Some (solve_apply_step nS nE result face projection) <->
   update_defined nS nE result face).
Proof.
  intros HnS HnE. split.
  - intros [[face' projection'] Hrun].
    by apply (apply_step_Some_defined _ _ _ _ _ _ _ HnS HnE Hrun).
  - intros Hd. rewrite apply_step_defined_closed by assumption. by eexists.
Qed.

(** X2.  Whatever the update step of [solve] returns, it has written
    nothing but the focal entry of the projection, the rotation, the
    translation and the first [nShape] and [nExpr] coefficients: the standard
    deviations, the bases, the vertex data, the lengths of the coefficient
    vectors, the coefficients beyond the counts and the fifteen other
    entries of the projection are as before. *)
Theorem update_step_frame (nS nE : Z) (result : fvec) (face face' : Face)
    (projection projection' : mat4) :
  solve_apply_step nS nE result face projection = Some (face', projection') ->
  m_shape_std_dev face' = m_shape_std_dev face /\
  m_expression_std_dev face' = m_expression_std_dev face /\
  m_number_of_vertices face' = m_number_of_vertices face /\
  m_shape_basis face' = m_shape_basis face /\
  m_expression_basis face' = m_expression_basis face /\
  m_current_face_gpu face' = m_current_face_gpu face /\
  length (m_shape_coefficients face') = length (m_shape_coefficients face) /\
  length (m_expression_coefficients face')
  = length (m_expression_coefficients face) /\
  (forall k : nat, nS <= Z.of_nat k ->
     m_shape_coefficients face' !! k = m_shape_coefficients face !! k) /\
  (forall k : nat, nE <= Z.of_nat k ->
     m_expression_coefficients face' !! k = m_expression_coefficients face !! k) /\
  m4c1 projection' = m4c1 projection /\
  m4c2 projection' = m4c2 projection /\
  m4c3 projection' = m4c3 projection /\
  v4y (m4c0 projection') = v4y (m4c0 projection) /\
  v4z (m4c0 projection') = v4z (m4c0 projection) /\
  v4w (m4c0 projection') = v4w (m4c0 projection).
Proof.
  intros Hrun.
  destruct (apply_step_Some_closed _ _ _ _ _ _ _ Hrun) as (-> & -> & _).
  repeat (split; [reflexivity|]).
  split; [apply map_prefix_length|]. split; [apply map_prefix_length|].
  split; [|split; [|repeat split]].
  - intros k Hk. cbn. rewrite map_prefix_lookup.
    destruct (m_shape_coefficients face !! k); cbn; [|reflexivity].
    by rewrite decide_False by lia.
  - intros k Hk. by apply update_rule_expression_beyond.
Qed.

(** X3.  The two coefficient loops of the update step may take their
    passes in any order: over any reordering of [0 .. nShape-1] and of
    [0 .. nExpr-1] the step returns what the source order returns, faults
    included. *)
Theorem update_step_order_independent (order_shape order_expression : list Z)
    (nS nE : Z) (result : fvec) (face : Face) (projection : mat4) :
  order_shape ≡ₚ seqZ 0 nS ->
  order_expression ≡ₚ seqZ 0 nE ->
  apply_step_in_order order_shape order_expression nS result face projection
  = solve_apply_step nS nE result face projection.
Proof.
  intros Hs He.
  rewrite <- apply_steps_agree, <- apply_step_in_source_order.
  unfold apply_step_in_order.
  rewrite (pointwise_loop_reorder _ _ _
             (shape_pass_eq result (m_shape_std_dev face))
             (seqZ 0 nS) order_shape _ (NoDup_seqZ 0 nS) Hs).
  rewrite (pointwise_loop_reorder _ _ _
             (expression_pass_eq nS result (m_expression_std_dev face))
             (seqZ 0 nE) order_expression _ (NoDup_seqZ 0 nE) He).
  reflexivity.
Qed.

(** X4.  The bound of lines 259 and 412, [max(0, min(1, c))], is
    idempotent, and it returns its argument (up to the sign of a zero)
    exactly when the argument lies in [[0, 1]]. *)
Theorem unit_clamp_fixed_points (c : float) :
  unit_clamp (unit_clamp c) = unit_clamp c /\
  (feq (unit_clamp c) c <-> in_unit_interval c).
Proof.
  split.
  - unfold unit_clamp, F32.std_min, F32.std_max.
    destruct (F32.ltb c F32.one) eqn:H1.
    + destruct (F32.ltb F32.zero c) eqn:H0.
      * by rewrite H1, H0.
      * reflexivity.
    + reflexivity.
  - split.
    + intros Hq. unfold feq in Hq.
      pose proof (unit_clamp_range c) as Hr. revert Hq Hr.
      unfold unit_clamp, F32.std_min, F32.std_max.
      destruct (F32.ltb c F32.one) eqn:H1.
      * destruct (F32.ltb F32.zero c) eqn:H0.
        -- intros _ Hr. exact Hr.
        -- intros Hq _.
           destruct c as [s|[]| |[] m e]; try discriminate Hq; split; reflexivity.
      * change (if F32.ltb F32.zero F32.one then F32.one else F32.zero)
          with F32.one.
        intros Hq _. unfold SFeqb in Hq. rewrite SFcompare_antisym in Hq.
        destruct (SFcompare c F32.one) as [[]|] eqn:Hc; try discriminate Hq.
        rewrite (F32_compare_one_eq c Hc). split; reflexivity.
    + intros [H0 H1]. by apply unit_clamp_inside.
Qed.

End Update_more.

(* ================================================================== *)
(** ** More about the solvers and the drivers *)

Section Solver_more.
Context `{CuBLAS}.
Variable m_params : Params.
Variables nUnknowns nResiduals : Z.
Variable jacobian : fvec.
Variable alphaLHS : float.

Lemma cublasSaxpy_length (n : Z) (alpha : float) (x y : fvec) :
  (Z.to_nat n <= length y)%nat -> length (cublasSaxpy n alpha x y) = length y.
Proof.
  intros Hn. unfold cublasSaxpy, overwrite.
  rewrite length_app, length_drop, length_fmap, length_seqZ. lia.
Qed.

(** The result of [solveUpdatePCG] has the size of the buffer it is given. *)
Lemma solveUpdatePCG_length (residuals x : fvec) (alphaRHS : float) :
  (Z.to_nat nUnknowns <= length x)%nat ->
  length (solveUpdatePCG m_params nUnknowns nResiduals jacobian alphaLHS
            residuals x alphaRHS) = length x.
Proof.
  intros Hn.
  unfold solveUpdatePCG, solveUpdatePCG_state, pcg_init, pcg_loop.
  apply (break_loop_invariant _ _ _ _ (fun s => length (pcg_x s) = length x)).
  - intros s Hs. cbn. rewrite cublasSaxpy_length; lia.
  - intros s Hs. exact Hs.
  - intros s Hs. exact Hs.
  - cbn. apply length_replicate.
Qed.

(** X5.  [solveUpdatePCG] and [solveUpdateCG] return a vector of the size
    of the buffer [x] they are given (a buffer of at least [nUnknowns]
    entries), and the contents [x] comes in with never reach the result:
    both start from [x.memset(0)], so two buffers of one size give one
    result. *)
Theorem solvers_ignore_incoming_x (residuals x x' : fvec) (alphaRHS : float) :
  (Z.to_nat nUnknowns <= length x)%nat ->
  length x' = length x ->
  length (solveUpdatePCG m_params nUnknowns nResiduals jacobian alphaLHS
            residuals x alphaRHS) = length x /\
  length (solveUpdateCG m_params nUnknowns nResiduals jacobian alphaLHS
            residuals x alphaRHS) = length x /\
  solveUpdatePCG m_params nUnknowns nResiduals jacobian alphaLHS residuals x'
    alphaRHS
  = solveUpdatePCG m_params nUnknowns nResiduals jacobian alphaLHS residuals x
      alphaRHS /\
  solveUpdateCG m_params nUnknowns nResiduals jacobian alphaLHS residuals x'
    alphaRHS
  = solveUpdateCG m_params nUnknowns nResiduals jacobian alphaLHS residuals x
      alphaRHS.
Proof.
  intros Hn Hl. split; [|split; [|split]].
  - unfold solveUpdatePCG, solveUpdatePCG_state, pcg_init, pcg_loop.
    apply (break_loop_invariant _ _ _ _ (fun s => length (pcg_x s) = length x)).
    + intros s Hs. cbn. rewrite cublasSaxpy_length; lia.
    + intros s Hs. exact Hs.
    + intros s Hs. exact Hs.
    + cbn. apply length_replicate.
  - unfold solveUpdateCG, solveUpdateCG_state, cg_init, cg_loop.
    apply (break_loop_invariant _ _ _ _ (fun s => length (cg_x s) = length x)).
    + intros s Hs. cbn. rewrite cublasSaxpy_length; lia.
    + intros s Hs. exact Hs.
    + intros s Hs. exact Hs.
    + cbn. apply length_replicate.
  - unfold solveUpdatePCG, solveUpdatePCG_state, pcg_init, memset0.
    by rewrite Hl.
  - unfold solveUpdateCG, solveUpdateCG_state, cg_init, memset0.
    by rewrite Hl.
Qed.

(** With no pass in the budget both solvers hand back the zeroed buffer. *)
Lemma solvers_without_budget (residuals x : fvec) (alphaRHS : float) :
  Z.min nUnknowns (num_pcg_iterations m_params) <= 0 ->
  solveUpdatePCG m_params nUnknowns nResiduals jacobian alphaLHS residuals x
    alphaRHS = memset0 x /\
  solveUpdateCG m_params nUnknowns nResiduals jacobian alphaLHS residuals x
    alphaRHS = memset0 x.
Proof.
  intros Hb.
  unfold solveUpdatePCG, solveUpdatePCG_state, solveUpdateCG,
    solveUpdateCG_state, pcg_init, cg_init, pcg_loop, cg_loop, inner_budget.
  replace (Z.to_nat (Z.min nUnknowns (num_pcg_iterations m_params)))
    with 0%nat by lia.
  split; reflexivity.
Qed.

End Solver_more.

Section Driver_more.
Context `{FaceModel, CuBLAS, CudaKernels, HostFeatureAlgebra,
          PriorSparseFeatures, Libm}.
Variable m_params : Params.
Variable sparse_features : list vec2.
Let nShapeCoeffs : Z := num_shape_coefficients m_params.
Let nExpressionCoeffs : Z := num_expression_coefficients m_params.
Let nUnknowns : Z := 7 + (nShapeCoeffs + nExpressionCoeffs).

Lemma dev_replicate_zero (m : nat) (k : Z) : dev (replicate m F32.zero) k = F32.zero.
Proof.
  unfold dev, at_. case_decide; [|reflexivity].
  destruct (replicate m F32.zero !! Z.to_nat k) eqn:E; [|reflexivity].
  apply lookup_replicate in E as [-> _]. reflexivity.
Qed.

Lemma first_n_zero (n : Z) (m : nat) :
  first_n n (replicate m F32.zero) = replicate (Z.to_nat n) F32.zero.
Proof.
  unfold first_n. apply list_eq. intros j.
  rewrite list_lookup_fmap.
  destruct (decide (j < Z.to_nat n)%nat) as [Hlt|Hge].
  - rewrite lookup_seqZ_lt by lia. cbn. rewrite dev_replicate_zero.
    symmetry. by apply lookup_replicate_2.
  - rewrite lookup_seqZ_ge by lia. cbn. symmetry.
    apply lookup_ge_None. rewrite length_replicate. lia.
Qed.

Lemma util_copy_zero (dst x : fvec) (n : Z) :
  length dst = Z.to_nat n ->
  util_copy dst (memset0 x) n = replicate (Z.to_nat n) F32.zero.
Proof.
  intros Hd. unfold util_copy, memset0. rewrite first_n_zero.
  unfold overwrite. rewrite drop_ge by (rewrite length_replicate; lia).
  apply app_nil_r.
Qed.

Lemma set_focal_same (P : mat4) : set_focal P (focal P) = P.
Proof. destruct P as [[] ? ? ?]. reflexivity. Qed.

Lemma vec3_sub_zero (v : vec3) :
  Vec3 (v3x v - F32.zero)%f32 (v3y v - F32.zero)%f32 (v3z v - F32.zero)%f32 = v.
Proof. rewrite !F32_sub_zero_r. by destruct v. Qed.

(** A zero delta entry over a positive standard deviation leaves a shape
    coefficient as it is. *)
Lemma raw_update_zero (a sd : float) :
  F32.ltb F32.zero sd = true -> raw_update a F32.zero sd = a.
Proof.
  intros Hsd. unfold raw_update.
  replace (F32.zero * F32.one / sd)%f32 with F32.zero.
  - apply F32_sub_zero_r.
  - destruct sd as [s|[]| |[] m e]; try discriminate Hsd; reflexivity.
Qed.

(** Passes from a ready state with an invariant of one's own. *)
Lemma solve_passes_inv (Inv : SolveState -> Prop) (jacobian_world_11 wReg : float)
    (idx : list Z) (s : SolveState) :
  (forall s s',
     update_ready nShapeCoeffs nExpressionCoeffs (st_result s) (st_face s) ->
     Inv s ->
     solve_pass m_params sparse_features jacobian_world_11 wReg s = Some s' ->
     Inv s') ->
  update_ready nShapeCoeffs nExpressionCoeffs (st_result s) (st_face s) ->
  Inv s ->
  exists s',
    for_each (fun _ s => solve_pass m_params sparse_features jacobian_world_11
                           wReg s) idx s = Some s' /\
    Inv s'.
Proof.
  intros Hstep. revert s. induction idx as [|i idx IH]; intros s Hr Hi.
  - exists s. auto.
  - destruct (solve_pass_closed m_params sparse_features jacobian_world_11 wReg
                s Hr) as (J & r & _ & Heq).
    cbn [for_each]. rewrite Heq. cbn [mbind option_bind].
    apply IH.
    + eapply solve_pass_ready; [exact Hr | exact Heq].
    + eapply Hstep; [exact Hr | exact Hi | exact Heq].
Qed.

(** One pass with no inner budget. *)
Lemma solve_pass_frozen (jacobian_world_11 wReg : float) (s s' : SolveState) :
  num_pcg_iterations m_params <= 0 ->
  update_ready nShapeCoeffs nExpressionCoeffs (st_result s) (st_face s) ->
  solve_pass m_params sparse_features jacobian_world_11 wReg s = Some s' ->
  st_projection s' = st_projection s /\
  m_rotation_coefficients (st_face s') = m_rotation_coefficients (st_face s) /\
  m_translation_coefficients (st_face s')
  = m_translation_coefficients (st_face s) /\
  m_shape_std_dev (st_face s') = m_shape_std_dev (st_face s) /\
  ((forall i, 0 <= i < nShapeCoeffs ->
      F32.ltb F32.zero (dev (m_shape_std_dev (st_face s)) i) = true) ->
   m_shape_coefficients (st_face s') = m_shape_coefficients (st_face s)).
Proof.
  intros Hb Hr Hrun.
  destruct (solve_pass_closed m_params sparse_features jacobian_world_11 wReg
              s Hr) as (J & r & _ & Heq).
  rewrite Heq in Hrun. injection Hrun as <-.
  destruct Hr as (HS & HSd & HE & HEd & HR).
  cbn [st_projection st_face].
  match goal with
  | |- context [solveUpdatePCG ?p ?n ?m ?j ?a ?b ?x ?c] =>
      destruct (solvers_without_budget p n m j a b x c) as [-> _];
        [unfold nShapeCoeffs, nExpressionCoeffs in *; lia|]
  end.
  rewrite util_copy_zero
    by (unfold nShapeCoeffs, nExpressionCoeffs in *; lia).
  unfold update_rule. cbn [m_rotation_coefficients m_translation_coefficients
    m_shape_std_dev m_shape_coefficients computeFace set_current_face].
  rewrite !dev_replicate_zero, !vec3_sub_zero, F32_sub_zero_r, set_focal_same.
  repeat (split; [reflexivity|]).
  intros Hpos. apply list_eq. intros k. rewrite map_prefix_lookup.
  destruct (m_shape_coefficients (st_face s) !! k) as [a|] eqn:Ek; cbn;
    [|reflexivity].
  case_decide; [|reflexivity].
  rewrite dev_replicate_zero, raw_update_zero; [reflexivity|]. apply Hpos. lia.
Qed.

(** X6.  With [num_pcg_iterations <= 0] the linear solver returns the zero
    vector in every pass, and [solve] gives back the projection matrix, the
    rotation and the translation it was given, bit for bit; the shape
    coefficients too when the standard deviations in use are positive. *)
Theorem solve_frozen_without_inner_budget (face : Face) (projection : mat4) :
  sparse_features <> [] ->
  face_ready m_params face ->
  num_pcg_iterations m_params <= 0 ->
  exists out : Outcome,
    solve m_params sparse_features face projection = Some out /\
    out_projection out = projection /\
    m_rotation_coefficients (out_face out) = m_rotation_coefficients face /\
    m_translation_coefficients (out_face out)
    = m_translation_coefficients face /\
    ((forall i, 0 <= i < nShapeCoeffs ->
        F32.ltb F32.zero (dev (m_shape_std_dev face) i) = true) ->
     m_shape_coefficients (out_face out) = m_shape_coefficients face).
Proof.
  intros Hne Hf Hb. destruct sparse_features as [|p ps] eqn:Efs; [congruence|].
  unfold solve, for_int.
  destruct (solve_passes_inv
              (fun s =>
                 st_projection s = projection /\
                 m_rotation_coefficients (st_face s)
                 = m_rotation_coefficients face /\
                 m_translation_coefficients (st_face s)
                 = m_translation_coefficients face /\
                 m_shape_std_dev (st_face s) = m_shape_std_dev face /\
                 ((forall i, 0 <= i < nShapeCoeffs ->
                     F32.ltb F32.zero (dev (m_shape_std_dev face) i) = true) ->
                  m_shape_coefficients (st_face s) = m_shape_coefficients face))
              (v4y (m4c1 projection))
              (powf F32.ten (regularisation_weight_exponent m_params))
              (seqZ 0 (num_gn_iterations m_params))
              (initial_state m_params sparse_features face projection))
    as (s' & Hrun & HP & HR & HT & _ & HSh).
  - intros s s1 Hr (HP & HR & HT & HSd & HSh) Hpass.
    destruct (solve_pass_frozen _ _ s s1 Hb Hr Hpass)
      as (HP1 & HR1 & HT1 & HSd1 & HSh1).
    split; [congruence|]. split; [congruence|]. split; [congruence|].
    split; [congruence|].
    intros Hpos. rewrite HSh1; [by apply HSh|].
    rewrite HSd. exact Hpos.
  - by apply initial_state_ready.
  - cbn. auto.
  - rewrite <- Efs. rewrite Hrun. eexists. split; [reflexivity|].
    cbn. auto.
Qed.

End Driver_more.

(* ================================================================== *)
(** ** The linear system of [solve_CPU] *)

Lemma dev_ext (a b : fvec) :
  length a = length b ->
  (forall k, 0 <= k < Z.of_nat (length a) -> dev a k = dev b k) -> a = b.
Proof.
  intros Hl He. apply list_eq. intros j.
  destruct (decide (j < length a)%nat) as [Hj|Hj].
  - assert (0 <= Z.of_nat j < Z.of_nat (length a)) as Hk by lia.
    specialize (He (Z.of_nat j) Hk).
    unfold dev, at_ in He. rewrite !decide_True in He by lia.
    rewrite !Nat2Z.id in He.
    destruct (a !! j) eqn:Ea; [|apply lookup_ge_None in Ea; lia].
    destruct (b !! j) eqn:Eb; [|apply lookup_ge_None in Eb; lia].
    cbn in He. by subst.
  - rewrite (proj2 (lookup_ge_None a j)) by lia.
    rewrite (proj2 (lookup_ge_None b j)) by lia. reflexivity.
Qed.

Lemma first_n_all (n : Z) (x : fvec) : length x = Z.to_nat n -> first_n n x = x.
Proof.
  intros Hl. apply dev_ext; [by rewrite first_n_length|].
  intros k Hk. rewrite first_n_length in Hk.
  unfold first_n, dev at 1, at_. rewrite decide_True by lia.
  rewrite list_lookup_fmap, lookup_seqZ_lt by lia. cbn.
  f_equal. lia.
Qed.

(** A copy of a whole buffer over a buffer of the same size. *)
Lemma util_copy_all (dst src : fvec) (n : Z) :
  length src = Z.to_nat n -> length dst = Z.to_nat n -> util_copy dst src n = src.
Proof.
  intros Hs Hd. unfold util_copy, overwrite. rewrite first_n_all by exact Hs.
  rewrite drop_ge by lia. apply app_nil_r.
Qed.

Lemma set_focal_twice (P : mat4) (a b : float) :
  set_focal (set_focal P a) b = set_focal P b.
Proof. reflexivity. Qed.

Lemma focal_set_focal (P : mat4) (a : float) : focal (set_focal P a) = a.
Proof. reflexivity. Qed.

(** What holds before a loop and is kept by every pass that completes holds
    after the loop. *)
Lemma for_each_Some_inv {St : Type} (P : St -> Prop) (body : Z -> St -> option St)
    (idx : list Z) (s s' : St) :
  (forall i s s', P s -> body i s = Some s' -> P s') ->
  P s -> for_each body idx s = Some s' -> P s'.
Proof.
  intros Hstep. revert s. induction idx as [|i idx IH]; intros s Hs; cbn.
  - intros [= <-]. exact Hs.
  - destruct (body i s) as [s1|] eqn:E; cbn; [|discriminate].
    apply IH. eapply Hstep; [exact Hs | exact E].
Qed.

(** A loop that completes has completed each of its passes. *)
Lemma for_each_Some_each {St : Type} (body : Z -> St -> option St)
    (idx : list Z) (s s' : St) (i : Z) :
  for_each body idx s = Some s' -> i ∈ idx ->
  exists s0 s1, body i s0 = Some s1.
Proof.
  revert s. induction idx as [|j idx IH]; intros s Hrun Hi.
  - by apply elem_of_nil in Hi.
  - cbn in Hrun. destruct (body j s) as [s1|] eqn:E; cbn in Hrun; [|discriminate].
    apply elem_of_cons in Hi as [->|Hi]; [by exists s, s1|].
    by apply (IH s1).
Qed.

Lemma zero_jacobian_diagonal (nFeatures nResiduals nUnknowns : Z) (m : nat) :
  regularization_rows_diagonal nFeatures nResiduals nUnknowns
    (replicate m F32.zero).
Proof.
  intros r c _ _ _. unfold mat_get, dev, at_.
  case_decide; [|reflexivity].
  destruct (replicate _ F32.zero !! _) eqn:E; [|reflexivity].
  apply lookup_replicate in E as [-> _]. reflexivity.
Qed.

Section Host_system_facts.
Context `{HostFeatureAlgebra, PriorSparseFeatures}.
Variables nResiduals nUnknowns : Z.

(** A block write puts the two rows it is given into the columns it names
    and touches nothing else. *)
Lemma write_block_spec (r0 c0 w : Z) (rows : Z -> Z -> float) (J : fvec) :
  0 <= w -> 0 <= r0 -> r0 + 1 < nResiduals -> 0 <= c0 -> c0 + w <= nUnknowns ->
  length J = Z.to_nat (nResiduals * nUnknowns) ->
  exists J', write_block nResiduals nUnknowns r0 c0 w rows J = Some J' /\
    length J' = length J /\
    (forall c, c0 <= c < c0 + w ->
       mat_get nResiduals J' r0 c = rows 0 c /\
       mat_get nResiduals J' (r0 + 1) c = rows 1 c) /\
    (forall r c, 0 <= r < nResiduals -> 0 <= c ->
       ~ ((r = r0 \/ r = r0 + 1) /\ c0 <= c < c0 + w) ->
       mat_get nResiduals J' r c = mat_get nResiduals J r c).
Proof.
  intros Hw Hr0 Hr1 Hc0 Hcw HJ. unfold write_block.
  apply (for_int_inv
           (fun k J' => length J' = length J /\
              (forall c, c0 <= c < c0 + k ->
                 mat_get nResiduals J' r0 c = rows 0 c /\
                 mat_get nResiduals J' (r0 + 1) c = rows 1 c) /\
              (forall r c, 0 <= r < nResiduals -> 0 <= c ->
                 ~ ((r = r0 \/ r = r0 + 1) /\ c0 <= c < c0 + k) ->
                 mat_get nResiduals J' r c = mat_get nResiduals J r c))).
  - exact Hw.
  - split; [reflexivity|]. split; [intros; lia | auto].
  - intros i J1 Hi (Hl1 & Hv1 & Hf1).
    destruct (mat_store_spec nResiduals nUnknowns J1 r0 (c0 + i) (rows 0 (c0 + i)))
      as (J2 & Hs2 & Hl2 & Hsame2 & Hf2); [lia | lia | congruence |].
    destruct (mat_store_spec nResiduals nUnknowns J2 (r0 + 1) (c0 + i)
                (rows 1 (c0 + i)))
      as (J3 & Hs3 & Hl3 & Hsame3 & Hf3); [lia | lia | congruence |].
    exists J3. rewrite Hs2. cbn. rewrite Hs3.
    split; [reflexivity|]. split; [congruence|]. split.
    + intros c Hc. destruct (decide (c = c0 + i)) as [->|Hne].
      * split; [|exact Hsame3]. rewrite Hf3 by lia. exact Hsame2.
      * destruct (Hv1 c) as [Ha Hb]; [lia|].
        split; rewrite Hf3, Hf2 by lia; assumption.
    + intros r c Hr Hc Hn. rewrite Hf3, Hf2 by lia. apply Hf1; lia.
Qed.

Lemma elem_at_Some {A : Type} (v : list A) (i : Z) (a : A) :
  elem_at v i = Some a <-> 0 <= i /\ v !! Z.to_nat i = Some a.
Proof.
  unfold elem_at. case_decide; [tauto|]. split; [discriminate | lia].
Qed.

(** With the vertices copied and what is looked up by vertex in place,
    every feature has its contribution. *)
Lemma feature_entries_ready (nFeatures nShapeCoeffs nExpressionCoeffs : Z)
    (sparse_features : list vec2) (current_face : list vec3)
    (shape_basis expression_basis : MatrixMap) (face : Face)
    (args : JacobianArgs) :
  nFeatures = Z.of_nat (length sparse_features) ->
  vertices_ready nFeatures nShapeCoeffs nExpressionCoeffs shape_basis
    expression_basis face ->
  Z.of_nat (length current_face) = m_number_of_vertices face ->
  forall i, 0 <= i < nFeatures ->
    is_Some (feature_entry nShapeCoeffs nExpressionCoeffs sparse_features
               current_face shape_basis expression_basis face args i).
Proof.
  intros HnF [_ Hv] Hlen i Hi.
  destruct (Hv i Hi) as (v & Hid & Hrange & [sb Hsb] & [eb Heb]).
  unfold feature_entry. rewrite Hid. cbn [mbind option_bind].
  destruct (current_face !! Z.to_nat v) as [local_coord|] eqn:Elc;
    [|apply lookup_ge_None in Elc; lia].
  rewrite (proj2 (elem_at_Some current_face v local_coord))
    by (split; [lia | exact Elc]).
  cbn [mbind option_bind].
  destruct (sparse_features !! Z.to_nat i) as [observed|] eqn:Eo;
    [|apply lookup_ge_None in Eo; lia].
  rewrite (proj2 (elem_at_Some sparse_features i observed))
    by (split; [lia | exact Eo]).
  cbn [mbind option_bind]. rewrite Hsb, Heb. cbn [mbind option_bind].
  destruct (sparse_feature_pose args local_coord observed). by eexists.
Qed.

(** Conversely, where every feature has its contribution, what is looked
    up by vertex is in place. *)
Lemma feature_entries_vertices (nFeatures nShapeCoeffs nExpressionCoeffs : Z)
    (sparse_features : list vec2) (current_face : list vec3)
    (shape_basis expression_basis : MatrixMap) (face : Face)
    (args : JacobianArgs) :
  Z.of_nat (length current_face) = m_number_of_vertices face ->
  (forall i, 0 <= i < nFeatures ->
     is_Some (feature_entry nShapeCoeffs nExpressionCoeffs sparse_features
                current_face shape_basis expression_basis face args i)) ->
  vertices_ready nFeatures nShapeCoeffs nExpressionCoeffs shape_basis
    expression_basis face.
Proof.
  intros Hlen He. split; [lia|]. intros i Hi.
  destruct (He i Hi) as [entry Hentry]. unfold feature_entry in Hentry.
  destruct (elem_at getPriorIds i) as [v|]; [|discriminate Hentry].
  cbn [mbind option_bind] in Hentry.
  destruct (elem_at current_face v) as [local_coord|] eqn:Elc;
    [|discriminate Hentry].
  cbn [mbind option_bind] in Hentry.
  destruct (elem_at sparse_features i) as [observed|]; [|discriminate Hentry].
  cbn [mbind option_bind] in Hentry.
  destruct (map_block shape_basis _ _ _ _ _) as [sb|] eqn:Esb;
    [|discriminate Hentry].
  cbn [mbind option_bind] in Hentry.
  destruct (map_block expression_basis _ _ _ _ _) as [eb|] eqn:Eeb;
    [|discriminate Hentry].
  apply elem_at_Some in Elc as [Hv0 Hlk]. apply lookup_lt_Some in Hlk.
  exists v. split; [reflexivity|]. split; [lia|].
  rewrite Esb, Eeb. split; by eexists.
Qed.

(** The loop over the sparse features completes when every feature has its
    contribution; it fills both rows of every feature in every column and
    leaves the rows after them as they were. *)
Lemma cpu_sparse_features_spec (nFeatures nShapeCoeffs nExpressionCoeffs : Z)
    (sparse_features : list vec2) (current_face : list vec3)
    (shape_basis expression_basis : MatrixMap) (face : Face)
    (args : JacobianArgs) (J residuals : fvec) :
  (forall i, 0 <= i < nFeatures ->
     is_Some (feature_entry nShapeCoeffs nExpressionCoeffs sparse_features
                current_face shape_basis expression_basis face args i)) ->
  0 <= nFeatures -> 0 <= nShapeCoeffs -> 0 <= nExpressionCoeffs ->
  nUnknowns = 7 + (nShapeCoeffs + nExpressionCoeffs) ->
  nResiduals = 2 * nFeatures + (nShapeCoeffs + nExpressionCoeffs) ->
  length J = Z.to_nat (nResiduals * nUnknowns) ->
  length residuals = Z.to_nat nResiduals ->
  exists J' residuals',
    cpu_sparse_features nFeatures nShapeCoeffs nExpressionCoeffs nUnknowns
      nResiduals sparse_features current_face shape_basis expression_basis
      face args (J, residuals) = Some (J', residuals') /\
    length J' = length J /\ length residuals' = length residuals /\
    feature_rows_built nFeatures nShapeCoeffs nExpressionCoeffs nUnknowns
      nResiduals sparse_features current_face shape_basis expression_basis
      face args J' residuals' /\
    (forall r c, 2 * nFeatures <= r < nResiduals -> 0 <= c ->
       mat_get nResiduals J' r c = mat_get nResiduals J r c) /\
    (forall j, 2 * nFeatures <= j -> dev residuals' j = dev residuals j).
Proof.
  intros Hentries HnF HS HE HU HR HJ Hres. unfold cpu_sparse_features.
  destruct (for_int_inv
              (fun k (st : fvec * fvec) =>
                 length (fst st) = length J /\ length (snd st) = length residuals /\
                 feature_rows_built k nShapeCoeffs nExpressionCoeffs nUnknowns
                   nResiduals sparse_features current_face shape_basis
                   expression_basis face args (fst st) (snd st) /\
                 (forall r c, 2 * k <= r < nResiduals -> 0 <= c ->
                    mat_get nResiduals (fst st) r c = mat_get nResiduals J r c) /\
                 (forall j, 2 * k <= j -> dev (snd st) j = dev residuals j))
              nFeatures
              (fun i '(J, residuals) =>
                 vertexId ← elem_at getPriorIds i;
                 local_coord ← elem_at current_face vertexId;
                 observed ← elem_at sparse_features i;
                 let '(residual, pose_rows) :=
                   sparse_feature_pose args local_coord observed in
                 residuals ← store residuals (i * 2) (v2x residual);
                 residuals ← store residuals (i * 2 + 1) (v2y residual);
                 J ← write_block nResiduals nUnknowns (i * 2) 0 1 pose_rows J;
                 J ← write_block nResiduals nUnknowns (i * 2) 1 6 pose_rows J;
                 shape_block ← map_block shape_basis (m_shape_basis face)
                                 (3 * vertexId) 0 3 nShapeCoeffs;
                 let jacobian_shape :=
                   sparse_feature_basis args local_coord shape_block in
                 J ← write_block nResiduals nUnknowns (i * 2) 7 nShapeCoeffs
                       (fun k c => jacobian_shape k (c - 7)) J;
                 expression_block ← map_block expression_basis
                                      (m_expression_basis face)
                                      (3 * vertexId) 0 3 nExpressionCoeffs;
                 let jacobian_expression :=
                   sparse_feature_basis args local_coord expression_block in
                 J ← write_block nResiduals nUnknowns (i * 2) (7 + nShapeCoeffs)
                       nExpressionCoeffs
                       (fun k c => jacobian_expression k (c - (7 + nShapeCoeffs)))
                       J;
                 Some (J, residuals))
              (J, residuals))
    as ([J' residuals'] & Hrun & Hl & Hlr & Hb & Hf & Hfr).
  - lia.
  - cbn [fst snd]. split; [reflexivity|]. split; [reflexivity|].
    split; [intros i Hi; lia|]. split; auto.
  - intros k [J1 res1] Hk (Hl1 & Hlr1 & Hb1 & Hf1 & Hfr1). cbn [fst snd] in *.
    destruct (Hentries k Hk) as [entry Hentry].
    pose proof Hentry as Hentry'. unfold feature_entry in Hentry'.
    destruct (elem_at getPriorIds k) as [vertexId|]; [|discriminate Hentry'].
    cbn [mbind option_bind] in Hentry' |- *.
    destruct (elem_at current_face vertexId) as [local_coord|];
      [|discriminate Hentry'].
    cbn [mbind option_bind] in Hentry' |- *.
    destruct (elem_at sparse_features k) as [observed|]; [|discriminate Hentry'].
    cbn [mbind option_bind] in Hentry' |- *.
    destruct (map_block shape_basis _ _ _ _ _) as [shape_block|];
      [|discriminate Hentry'].
    cbn [mbind option_bind] in Hentry'.
    destruct (map_block expression_basis _ _ _ _ _) as [expression_block|];
      [|discriminate Hentry'].
    cbn [mbind option_bind] in Hentry'.
    destruct (sparse_feature_pose args local_coord observed)
      as [residual pose_rows].
    injection Hentry' as <-.
    destruct (store_spec res1 (k * 2) (v2x residual))
      as (res2 & Hs2 & Hl2 & Hv2 & Ho2); [lia|].
    destruct (store_spec res2 (k * 2 + 1) (v2y residual))
      as (res3 & Hs3 & Hl3 & Hv3 & Ho3); [lia|].
    rewrite Hs2. cbn [mbind option_bind]. rewrite Hs3. cbn [mbind option_bind].
    destruct (write_block_spec (k * 2) 0 1 pose_rows J1)
      as (J2 & Hw2 & Hj2 & Hv_a & Hf2); [lia..|].
    destruct (write_block_spec (k * 2) 1 6 pose_rows J2)
      as (J3 & Hw3 & Hj3 & Hv_b & Hf3); [lia..|].
    destruct (write_block_spec (k * 2) 7 nShapeCoeffs
                (fun k c => sparse_feature_basis args local_coord shape_block k
                              (c - 7)) J3)
      as (J4 & Hw4 & Hj4 & Hv_c & Hf4); [lia..|].
    destruct (write_block_spec (k * 2) (7 + nShapeCoeffs) nExpressionCoeffs
                (fun k c => sparse_feature_basis args local_coord
                              expression_block k (c - (7 + nShapeCoeffs))) J4)
      as (J5 & Hw5 & Hj5 & Hv_d & Hf5); [lia..|].
    rewrite Hw2. cbn [mbind option_bind]. rewrite Hw3. cbn [mbind option_bind].
    rewrite Hw4. cbn [mbind option_bind]. rewrite Hw5. cbn [mbind option_bind].
    eexists. split; [reflexivity|]. cbn [fst snd].
    split; [congruence|]. split; [congruence|]. split; [|split].
    + intros i Hi. destruct (decide (i = k)) as [->|Hne].
      * eexists _, _. split; [exact Hentry|]. split; [|split].
        -- rewrite Ho3 by lia. exact Hv2.
        -- exact Hv3.
        -- intros c Hc.
           destruct (decide (c < 7)) as [Hc7|Hc7];
             [destruct (decide (c < 1)) as [Hc1|Hc1]
             |destruct (decide (c < 7 + nShapeCoeffs)) as [HcS|HcS]].
           ++ destruct (Hv_a c) as [Ha Hb']; [lia|].
              split; rewrite Hf5, Hf4, Hf3 by lia; assumption.
           ++ destruct (Hv_b c) as [Ha Hb']; [lia|].
              split; rewrite Hf5, Hf4 by lia; assumption.
           ++ destruct (Hv_c c) as [Ha Hb']; [lia|].
              split; rewrite Hf5 by lia; assumption.
           ++ destruct (Hv_d c) as [Ha Hb']; [lia|]. split; assumption.
      * destruct (Hb1 i) as (residual' & rows' & He & Hx & Hy & Hrows); [lia|].
        exists residual', rows'. split; [exact He|].
        split; [rewrite Ho3, Ho2 by lia; exact Hx|].
        split; [rewrite Ho3, Ho2 by lia; exact Hy|].
        intros c Hc. destruct (Hrows c Hc) as [Ha Hb'].
        split; rewrite Hf5, Hf4, Hf3, Hf2 by lia; assumption.
    + intros r c Hr Hc.
      rewrite Hf5, Hf4, Hf3, Hf2 by lia. apply Hf1; lia.
    + intros j Hj. rewrite Ho3, Ho2 by lia. apply Hfr1. lia.
  - exists J', residuals'. cbn [fst snd] in *. auto 10.
Qed.

(** A feature loop that completes has found the contribution of every
    feature. *)
Lemma cpu_sparse_features_Some_entries
    (nFeatures nShapeCoeffs nExpressionCoeffs : Z)
    (sparse_features : list vec2) (current_face : list vec3)
    (shape_basis expression_basis : MatrixMap) (face : Face)
    (args : JacobianArgs) (Jr Jr' : fvec * fvec) :
  cpu_sparse_features nFeatures nShapeCoeffs nExpressionCoeffs nUnknowns
    nResiduals sparse_features current_face shape_basis expression_basis
    face args Jr = Some Jr' ->
  forall i, 0 <= i < nFeatures ->
    is_Some (feature_entry nShapeCoeffs nExpressionCoeffs sparse_features
               current_face shape_basis expression_basis face args i).
Proof.
  unfold cpu_sparse_features, for_int. intros Hrun i Hi.
  destruct (for_each_Some_each _ _ _ _ i Hrun)
    as ([J0 r0] & s1 & Hbody); [apply elem_of_seqZ; lia|].
  unfold feature_entry.
  destruct (elem_at getPriorIds i) as [vertexId|]; [|discriminate Hbody].
  cbn [mbind option_bind] in Hbody |- *.
  destruct (elem_at current_face vertexId) as [local_coord|];
    [|discriminate Hbody].
  cbn [mbind option_bind] in Hbody |- *.
  destruct (elem_at sparse_features i) as [observed|]; [|discriminate Hbody].
  cbn [mbind option_bind] in Hbody |- *.
  destruct (sparse_feature_pose args local_coord observed)
    as [residual pose_rows].
  destruct (store r0 _ _) as [r1|]; [|discriminate Hbody].
  cbn [mbind option_bind] in Hbody.
  destruct (store r1 _ _) as [r2|]; [|discriminate Hbody].
  cbn [mbind option_bind] in Hbody.
  destruct (write_block _ _ _ 0 1 _ _) as [J1|]; [|discriminate Hbody].
  cbn [mbind option_bind] in Hbody.
  destruct (write_block _ _ _ 1 6 _ _) as [J2|]; [|discriminate Hbody].
  cbn [mbind option_bind] in Hbody.
  destruct (map_block shape_basis _ _ _ _ _) as [shape_block|];
    [|discriminate Hbody].
  cbn [mbind option_bind] in Hbody |- *.
  destruct (write_block _ _ _ 7 _ _ _) as [J3|]; [|discriminate Hbody].
  cbn [mbind option_bind] in Hbody.
  destruct (map_block expression_basis _ _ _ _ _) as [expression_block|];
    [|discriminate Hbody].
  cbn [mbind option_bind]. by eexists.
Qed.

(** The regularizer completes; it writes the diagonal of its block and the
    matching residuals and leaves the feature rows as they were. *)
Lemma cpu_regularizer_full (nFeatures nShapeCoeffs nExpressionCoeffs : Z)
    (wReg : float) (face : Face) (J residuals : fvec) :
  0 <= nFeatures ->
  0 <= nShapeCoeffs <= Z.of_nat (length (m_shape_coefficients face)) ->
  nShapeCoeffs <= Z.of_nat (length (m_shape_std_dev face)) ->
  0 <= nExpressionCoeffs <= Z.of_nat (length (m_expression_coefficients face)) ->
  nExpressionCoeffs <= Z.of_nat (length (m_expression_std_dev face)) ->
  nUnknowns = 7 + (nShapeCoeffs + nExpressionCoeffs) ->
  nResiduals = 2 * nFeatures + (nShapeCoeffs + nExpressionCoeffs) ->
  length J = Z.to_nat (nResiduals * nUnknowns) ->
  length residuals = Z.to_nat nResiduals ->
  exists J' residuals',
    cpu_regularizer nFeatures nShapeCoeffs nExpressionCoeffs nUnknowns
      nResiduals wReg face (J, residuals) = Some (J', residuals') /\
    length J' = length J /\ length residuals' = length residuals /\
    regularization_built nFeatures nShapeCoeffs nExpressionCoeffs nResiduals
      wReg face J' residuals' /\
    (forall r c, 0 <= r < nResiduals -> 0 <= c ->
       r < 2 * nFeatures \/ c <> r - 2 * nFeatures + 7 ->
       mat_get nResiduals J' r c = mat_get nResiduals J r c) /\
    (forall j, j < 2 * nFeatures -> dev residuals' j = dev residuals j).
Proof.
  intros HF HS HSd HE HEd HU HR HJ Hres.
  unfold cpu_regularizer. cbv zeta.
  destruct (regularizer_loop nResiduals nUnknowns wReg (m_shape_std_dev face)
              (m_shape_coefficients face) (2 * nFeatures) 7 nShapeCoeffs
              J residuals)
    as (J1 & res1 & Hrun1 & Hl1 & Hlr1 & Hd1 & Hf1 & Hfr1); [lia..| | |];
    [assumption | assumption |].
  rewrite Hrun1. cbn [mbind option_bind].
  destruct (regularizer_loop nResiduals nUnknowns wReg (m_expression_std_dev face)
              (m_expression_coefficients face) (2 * nFeatures + nShapeCoeffs)
              (7 + nShapeCoeffs) nExpressionCoeffs J1 res1)
    as (J2 & res2 & Hrun2 & Hl2 & Hlr2 & Hd2 & Hf2 & Hfr2); [lia..| | |];
    [congruence | congruence |].
  exists J2, res2. split; [exact Hrun2|].
  split; [congruence|]. split; [congruence|]. split; [split|split].
  - intros i Hi. destruct (Hd1 i Hi) as [Ha Hb].
    rewrite Hf2 by lia. rewrite Hfr2 by lia. split; assumption.
  - exact Hd2.
  - intros r c Hr Hc Hoff. rewrite Hf2 by lia. apply Hf1; lia.
  - intros j Hj. rewrite Hfr2 by lia. apply Hfr1. lia.
Qed.

(** The feature rows, the regularization entries and the zeros around them
    determine the whole system. *)
Lemma host_system_unique (nFeatures nShapeCoeffs nExpressionCoeffs : Z)
    (sparse_features : list vec2) (current_face : list vec3)
    (shape_basis expression_basis : MatrixMap) (basis_face : Face)
    (args : JacobianArgs) (wReg : float)
    (face : Face) (J J' residuals residuals' : fvec) :
  0 <= nFeatures -> 0 <= nShapeCoeffs -> 0 <= nExpressionCoeffs ->
  nUnknowns = 7 + (nShapeCoeffs + nExpressionCoeffs) ->
  nResiduals = 2 * nFeatures + (nShapeCoeffs + nExpressionCoeffs) ->
  length J = Z.to_nat (nResiduals * nUnknowns) ->
  length J' = Z.to_nat (nResiduals * nUnknowns) ->
  length residuals = Z.to_nat nResiduals ->
  length residuals' = Z.to_nat nResiduals ->
  feature_rows_built nFeatures nShapeCoeffs nExpressionCoeffs nUnknowns
    nResiduals sparse_features current_face shape_basis expression_basis
    basis_face args J residuals ->
  feature_rows_built nFeatures nShapeCoeffs nExpressionCoeffs nUnknowns
    nResiduals sparse_features current_face shape_basis expression_basis
    basis_face args J' residuals' ->
  regularization_built nFeatures nShapeCoeffs nExpressionCoeffs nResiduals
    wReg face J residuals ->
  regularization_built nFeatures nShapeCoeffs nExpressionCoeffs nResiduals
    wReg face J' residuals' ->
  regularization_rows_diagonal nFeatures nResiduals nUnknowns J ->
  regularization_rows_diagonal nFeatures nResiduals nUnknowns J' ->
  J = J' /\ residuals = residuals'.
Proof.
  intros HF HS HE HU HR HJ HJ' Hr Hr' Hfb Hfb' [Hsh Hex] [Hsh' Hex'] Hd Hd'.
  assert (forall i, 0 <= i < nFeatures ->
            dev residuals (i * 2) = dev residuals' (i * 2) /\
            dev residuals (i * 2 + 1) = dev residuals' (i * 2 + 1) /\
            forall c, 0 <= c < nUnknowns ->
              mat_get nResiduals J (i * 2) c = mat_get nResiduals J' (i * 2) c /\
              mat_get nResiduals J (i * 2 + 1) c
              = mat_get nResiduals J' (i * 2 + 1) c) as Hfeat.
  { intros i Hi.
    destruct (Hfb i Hi) as (res1 & rows1 & He1 & Hx1 & Hy1 & Hrows1).
    destruct (Hfb' i Hi) as (res2 & rows2 & He2 & Hx2 & Hy2 & Hrows2).
    rewrite He1 in He2. injection He2 as <- <-.
    split; [congruence|]. split; [congruence|].
    intros c Hc. destruct (Hrows1 c Hc), (Hrows2 c Hc). split; congruence. }
  split.
  - apply dev_ext; [congruence|]. intros k Hk. rewrite HJ in Hk.
    assert (0 < nResiduals) as Hpos by nia.
    pose proof (Z.div_mod k nResiduals ltac:(lia)) as Hdm.
    pose proof (Z.mod_pos_bound k nResiduals Hpos) as Hmod.
    set (r := k mod nResiduals) in *. set (c := k / nResiduals) in *.
    assert (0 <= c < nUnknowns) as Hc by nia.
    replace k with (r + c * nResiduals) by lia.
    change (mat_get nResiduals J r c = mat_get nResiduals J' r c).
    destruct (decide (r < 2 * nFeatures)) as [Hlow|Hhigh].
    + pose proof (Z.div_mod r 2 ltac:(lia)) as Hdm2.
      pose proof (Z.mod_pos_bound r 2 ltac:(lia)) as Hmod2.
      set (i := r / 2) in *.
      destruct (Hfeat i) as (_ & _ & Hrows); [lia|].
      destruct (Hrows c Hc) as [Ha Hb].
      destruct (decide (r mod 2 = 0)) as [Hev|Hod].
      * replace r with (i * 2) by lia. exact Ha.
      * replace r with (i * 2 + 1) by lia. exact Hb.
    + destruct (decide (c = r - 2 * nFeatures + 7)) as [Hdiag|Hoff].
      * destruct (decide (r - 2 * nFeatures < nShapeCoeffs)) as [Hs|He].
        -- destruct (Hsh (r - 2 * nFeatures)) as [Ha _]; [lia|].
           destruct (Hsh' (r - 2 * nFeatures)) as [Ha' _]; [lia|].
           replace (2 * nFeatures + (r - 2 * nFeatures)) with r in * by lia.
           replace (7 + (r - 2 * nFeatures)) with c in * by lia.
           congruence.
        -- destruct (Hex (r - 2 * nFeatures - nShapeCoeffs)) as [Ha _]; [lia|].
           destruct (Hex' (r - 2 * nFeatures - nShapeCoeffs)) as [Ha' _]; [lia|].
           replace (2 * nFeatures + nShapeCoeffs
                    + (r - 2 * nFeatures - nShapeCoeffs)) with r in * by lia.
           replace (7 + nShapeCoeffs + (r - 2 * nFeatures - nShapeCoeffs))
             with c in * by lia.
           congruence.
      * rewrite Hd, Hd' by lia. reflexivity.
  - apply dev_ext; [congruence|]. intros j Hj. rewrite Hr in Hj.
    destruct (decide (j < 2 * nFeatures)) as [Hlow|Hhigh].
    + pose proof (Z.div_mod j 2 ltac:(lia)) as Hdm2.
      pose proof (Z.mod_pos_bound j 2 ltac:(lia)) as Hmod2.
      set (i := j / 2) in *.
      destruct (Hfeat i) as (Hx & Hy & _); [lia|].
      destruct (decide (j mod 2 = 0)) as [Hev|Hod].
      * replace j with (i * 2) by lia. exact Hx.
      * replace j with (i * 2 + 1) by lia. exact Hy.
    + destruct (decide (j - 2 * nFeatures < nShapeCoeffs)) as [Hs|He].
      * destruct (Hsh (j - 2 * nFeatures)) as [_ Ha]; [lia|].
        destruct (Hsh' (j - 2 * nFeatures)) as [_ Ha']; [lia|].
        replace (2 * nFeatures + (j - 2 * nFeatures)) with j in * by lia.
        congruence.
      * destruct (Hex (j - 2 * nFeatures - nShapeCoeffs)) as [_ Ha]; [lia|].
        destruct (Hex' (j - 2 * nFeatures - nShapeCoeffs)) as [_ Ha']; [lia|].
        replace (2 * nFeatures + nShapeCoeffs
                 + (j - 2 * nFeatures - nShapeCoeffs)) with j in * by lia.
        congruence.
Qed.

End Host_system_facts.

Section Host_system.
Context `{FaceModel, CuBLAS, CudaKernels, HostFeatureAlgebra,
          PriorSparseFeatures, Libm}.
Variable m_params : Params.
Variable sparse_features : list vec2.
Let nFeatures : Z := Z.of_nat (length sparse_features).
Let nShapeCoeffs : Z := num_shape_coefficients m_params.
Let nExpressionCoeffs : Z := num_expression_coefficients m_params.
Let nUnknowns : Z := 7 + (nShapeCoeffs + nExpressionCoeffs).
Let nResiduals : Z := 2 * nFeatures + (nShapeCoeffs + nExpressionCoeffs).

(** The arguments of the feature loop in a pass that starts from [s]. *)
Let args_of (jacobian_world_11 : float) (s : SolveState) : JacobianArgs :=
  jacobian_args m_params sparse_features jacobian_world_11
    (computeFace (st_face s))
    (computeModelMatrix (computeFace (st_face s)))
    (computeRotationDerivatives (computeFace (st_face s)))
    (st_projection s).

(** The copy of the vertices succeeds on a recomputed face with a vertex
    count that is a size, and holds that many vertices. *)
Lemma copy_current_face_ready (face : Face) :
  geometry_sized ->
  0 <= m_number_of_vertices face ->
  exists current_face,
    copy_current_face (computeFace face) = Some current_face /\
    Z.of_nat (length current_face) = m_number_of_vertices face.
Proof.
  intros Hgeo Hn. specialize (Hgeo face).
  unfold copy_current_face, computeFace.
  cbn [m_number_of_vertices m_current_face_gpu set_current_face].
  rewrite decide_True by lia. eexists. split; [reflexivity|].
  rewrite length_take. lia.
Qed.

(** A copy of the vertices that succeeded holds as many as the face
    counts. *)
Lemma copy_current_face_Some (face : Face) (current_face : list vec3) :
  copy_current_face face = Some current_face ->
  0 <= m_number_of_vertices face /\
  Z.of_nat (length current_face) = m_number_of_vertices face.
Proof.
  unfold copy_current_face. case_decide as Hn; [|discriminate].
  intros [= <-]. rewrite length_take. lia.
Qed.

(** A pass of [solve_CPU] from a ready state, in closed form. *)
Lemma solve_CPU_pass_system (jacobian_world_11 : float)
    (shape_basis expression_basis : MatrixMap) (wReg : float)
    (s : SolveState) :
  geometry_sized ->
  host_ready m_params sparse_features shape_basis expression_basis s ->
  exists (current_face : list vec3) (J residuals : fvec),
    let result :=
      solveUpdatePCG m_params nUnknowns nResiduals J (F32.of_int 2) residuals
        (st_result_gpu s) (F32.of_int (-1)) in
    copy_current_face (computeFace (st_face s)) = Some current_face /\
    solve_CPU_pass m_params sparse_features jacobian_world_11 shape_basis
      expression_basis wReg s
    = Some (MkSolveState
              (update_rule nShapeCoeffs nExpressionCoeffs result
                 (computeFace (st_face s)))
              (set_focal (st_projection s)
                 (focal (st_projection s) - dev result 0)%f32)
              J residuals J residuals result result
              (st_log s ++ pass_events result)) /\
    length J = Z.to_nat (nResiduals * nUnknowns) /\
    length residuals = Z.to_nat nResiduals /\
    length result = Z.to_nat nUnknowns /\
    feature_rows_built nFeatures nShapeCoeffs nExpressionCoeffs nUnknowns
      nResiduals sparse_features current_face shape_basis expression_basis
      (computeFace (st_face s)) (args_of jacobian_world_11 s) J residuals /\
    regularization_built nFeatures nShapeCoeffs nExpressionCoeffs nResiduals
      wReg (computeFace (st_face s)) J residuals /\
    regularization_rows_diagonal nFeatures nResiduals nUnknowns J.
Proof.
  intros Hgeo ((HS & HSd & HE & HEd) & Hvert
               & (HJ & Hres & HJg & Hrg & Hxg & Hx) & Hdiag).
  fold nShapeCoeffs nExpressionCoeffs in HS, HSd, HE, HEd.
  fold nFeatures in HJ, Hres, HJg, Hrg, Hxg, Hx, Hdiag, Hvert.
  fold nShapeCoeffs nExpressionCoeffs in HJ, Hres, HJg, Hrg, Hxg, Hx, Hdiag, Hvert.
  fold nUnknowns nResiduals in HJ, Hres, HJg, Hrg, Hxg, Hx, Hdiag.
  destruct (copy_current_face_ready (st_face s) Hgeo (proj1 Hvert))
    as (current_face & Hcopy & Hcf).
  unfold solve_CPU_pass. rewrite Hcopy. cbn [mbind option_bind].
  destruct (cpu_sparse_features_spec nResiduals nUnknowns nFeatures
              nShapeCoeffs nExpressionCoeffs sparse_features current_face
              shape_basis expression_basis (computeFace (st_face s))
              (args_of jacobian_world_11 s) (st_jacobian s) (st_residuals s))
    as (J1 & res1 & Hrun1 & Hl1 & Hlr1 & Hb1 & Hf1 & Hfr1);
    [ apply feature_entries_ready; [reflexivity | exact Hvert | exact Hcf]
    | unfold nFeatures; lia | lia | lia | reflexivity | reflexivity
    | exact HJ | exact Hres |].
  unfold args_of in Hrun1.
  fold nFeatures nShapeCoeffs nExpressionCoeffs.
  fold nUnknowns nResiduals.
  rewrite Hrun1. cbn [mbind option_bind].
  destruct (cpu_regularizer_full nResiduals nUnknowns nFeatures nShapeCoeffs
              nExpressionCoeffs wReg (computeFace (st_face s)) J1 res1)
    as (J2 & res2 & Hrun2 & Hl2 & Hlr2 & Hb2 & Hf2 & Hfr2);
    [unfold nFeatures; lia | exact HS | exact HSd | exact HE | exact HEd
    | reflexivity | reflexivity | congruence | congruence |].
  rewrite Hrun2. cbn [mbind option_bind].
  exists current_face, J2, res2. cbn zeta.
  assert (length J2 = Z.to_nat (nResiduals * nUnknowns)) as HJ2 by congruence.
  assert (length res2 = Z.to_nat nResiduals) as Hres2 by congruence.
  rewrite (util_copy_all (st_jacobian_gpu s) J2 (nUnknowns * nResiduals))
    by (rewrite ?HJ2, ?HJg; f_equal; lia).
  rewrite (util_copy_all (st_residuals_gpu s) res2 nResiduals)
    by assumption.
  set (result_gpu := solveUpdatePCG _ _ _ _ _ _ _ _).
  assert (length result_gpu = Z.to_nat nUnknowns) as Hlen.
  { subst result_gpu. rewrite solveUpdatePCG_length; [exact Hxg | lia]. }
  rewrite (util_copy_all (st_result s) result_gpu nUnknowns) by assumption.
  rewrite solve_CPU_apply_step_rule
    by (unfold update_ready; cbn; unfold nUnknowns in Hlen; repeat split; lia).
  split; [reflexivity|].
  split; [reflexivity|]. split; [exact HJ2|]. split; [exact Hres2|].
  split; [exact Hlen|]. split; [|split; [exact Hb2|]].
  - intros i Hi.
    destruct (Hb1 i Hi) as (residual & rows & He & Hx1 & Hy1 & Hrows).
    exists residual, rows. split; [exact He|].
    split; [rewrite Hfr2 by lia; exact Hx1|].
    split; [rewrite Hfr2 by lia; exact Hy1|].
    intros c Hc. destruct (Hrows c Hc) as [Ha Hb].
    split; rewrite Hf2 by lia; assumption.
  - intros r c Hr Hc Hoff.
    rewrite Hf2 by lia. rewrite Hf1 by lia. apply Hdiag; assumption.
Qed.

(** A pass leaves a ready state ready, and the dimensions the two maps
    were made with stay those of the face. *)
Lemma solve_CPU_pass_host_ready (jacobian_world_11 : float)
    (shape_basis expression_basis : MatrixMap) (wReg : float)
    (s s' : SolveState) :
  geometry_sized ->
  host_ready m_params sparse_features shape_basis expression_basis s ->
  solve_CPU_pass m_params sparse_features jacobian_world_11 shape_basis
    expression_basis wReg s = Some s' ->
  host_ready m_params sparse_features shape_basis expression_basis s' /\
  shape_basis_map (st_face s') = shape_basis_map (st_face s) /\
  expression_basis_map (st_face s') = expression_basis_map (st_face s).
Proof.
  intros Hgeo Hs Hrun.
  destruct (solve_CPU_pass_system jacobian_world_11 shape_basis
              expression_basis wReg s Hgeo Hs)
    as (cf & J & r & _ & Heq & HJ & Hr & Hlen & _ & _ & Hdiag).
  cbn zeta in Heq. rewrite Heq in Hrun. injection Hrun as <-.
  destruct Hs as ((HS & HSd & HE & HEd) & Hvert & _ & _).
  split; [split; [|split; [|split]]|split].
  - unfold face_ready, update_rule. cbn -[map_prefix].
    rewrite !map_prefix_length. tauto.
  - exact Hvert.
  - unfold buffers_sized. cbn.
    fold nFeatures nShapeCoeffs nExpressionCoeffs. fold nUnknowns nResiduals.
    repeat split; try assumption.
    all: rewrite HJ; f_equal; lia.
  - cbn. exact Hdiag.
  - unfold shape_basis_map, update_rule. cbn -[map_prefix].
    by rewrite map_prefix_length.
  - unfold expression_basis_map, update_rule. cbn -[map_prefix].
    by rewrite map_prefix_length.
Qed.

Lemma initial_state_host_ready (shape_basis expression_basis : MatrixMap)
    (face : Face) (projection : mat4) :
  face_ready m_params face ->
  vertices_ready nFeatures nShapeCoeffs nExpressionCoeffs shape_basis
    expression_basis face ->
  host_ready m_params sparse_features shape_basis expression_basis
    (initial_state m_params sparse_features face projection).
Proof.
  intros Hf Hv. split; [exact Hf|]. split; [exact Hv|]. split.
  - unfold buffers_sized, initial_state, device_array. cbn.
    rewrite !length_replicate. repeat split.
  - cbn. apply zero_jacobian_diagonal.
Qed.

Lemma solve_CPU_passes_host (jacobian_world_11 : float)
    (shape_basis expression_basis : MatrixMap) (wReg : float) (idx : list Z)
    (s : SolveState) :
  geometry_sized ->
  host_ready m_params sparse_features shape_basis expression_basis s ->
  exists s',
    for_each (fun _ s => solve_CPU_pass m_params sparse_features
                           jacobian_world_11 shape_basis expression_basis
                           wReg s) idx s = Some s' /\
    host_ready m_params sparse_features shape_basis expression_basis s' /\
    shape_basis_map (st_face s') = shape_basis_map (st_face s) /\
    expression_basis_map (st_face s') = expression_basis_map (st_face s).
Proof.
  intros Hgeo. revert s. induction idx as [|i idx IH]; intros s Hs.
  - exists s. auto.
  - destruct (solve_CPU_pass_system jacobian_world_11 shape_basis
                expression_basis wReg s Hgeo Hs)
      as (cf & J & r & _ & Heq & _).
    cbn zeta in Heq.
    destruct (solve_CPU_pass_host_ready _ _ _ _ _ _ Hgeo Hs Heq)
      as (Hs1 & Hm1 & Hm2).
    destruct (IH _ Hs1) as (s' & Hrun & Hs' & Hm1' & Hm2').
    exists s'. cbn [for_each]. rewrite Heq. cbn [mbind option_bind].
    split; [exact Hrun|]. split; [exact Hs'|]. split; congruence.
Qed.

Lemma solve_pass_projection (jacobian_world_11 wReg : float) (s s' : SolveState) :
  solve_pass m_params sparse_features jacobian_world_11 wReg s = Some s' ->
  st_projection s' = set_focal (st_projection s) (focal (st_projection s')).
Proof.
  unfold solve_pass.
  destruct (computeRegularizer _ _ _ _ _ _) as [J r].
  destruct (solve_apply_step _ _ _ _ _) as [[f p]|] eqn:E; cbn; [|discriminate].
  intros [= <-]. cbn.
  apply apply_step_Some_closed in E as (_ & -> & _). reflexivity.
Qed.

Lemma solve_CPU_pass_projection (jacobian_world_11 : float)
    (shape_basis expression_basis : MatrixMap) (wReg : float)
    (s s' : SolveState) :
  solve_CPU_pass m_params sparse_features jacobian_world_11 shape_basis
    expression_basis wReg s = Some s' ->
  st_projection s' = set_focal (st_projection s) (focal (st_projection s')).
Proof.
  unfold solve_CPU_pass.
  destruct (copy_current_face _) as [cf|]; cbn [mbind option_bind];
    [|discriminate].
  destruct (cpu_sparse_features _ _ _ _ _ _ _ _ _ _ _ _) as [Jr|];
    cbn [mbind option_bind]; [|discriminate].
  destruct (cpu_regularizer _ _ _ _ _ _ _ _) as [[J r]|];
    cbn [mbind option_bind]; [|discriminate].
  destruct (solve_CPU_apply_step _ _ _ _ _) as [[f p]|] eqn:E;
    cbn [mbind option_bind]; [|discriminate].
  intros [= <-]. cbn. rewrite apply_steps_agree in E.
  apply apply_step_Some_closed in E as (_ & -> & _). reflexivity.
Qed.

Lemma solve_nonempty (face : Face) (projection : mat4) :
  sparse_features <> [] ->
  solve m_params sparse_features face projection
  = outcome_of <$>
      for_int (num_gn_iterations m_params)
        (fun _ s =>
           solve_pass m_params sparse_features (v4y (m4c1 projection))
             (powf F32.ten (regularisation_weight_exponent m_params)) s)
        (initial_state m_params sparse_features face projection).
Proof.
  intros Hne. unfold solve. destruct sparse_features; [congruence | reflexivity].
Qed.

Lemma solve_CPU_nonempty (face : Face) (projection : mat4) :
  sparse_features <> [] ->
  solve_CPU m_params sparse_features face projection
  = outcome_of <$>
      for_int (num_gn_iterations m_params)
        (fun _ s =>
           solve_CPU_pass m_params sparse_features (v4y (m4c1 projection))
             (shape_basis_map face) (expression_basis_map face)
             (powf F32.ten (regularisation_weight_exponent m_params)) s)
        (initial_state m_params sparse_features face projection).
Proof.
  intros Hne. unfold solve_CPU.
  destruct sparse_features; [congruence | reflexivity].
Qed.

(** The first pass of a loop that completes has completed. *)
Lemma for_int_first {St : Type} (n : Z) (body : Z -> St -> option St)
    (s s' : St) :
  0 < n -> for_int n body s = Some s' -> exists s1, body 0 s = Some s1.
Proof.
  intros Hn. unfold for_int.
  replace n with (Z.succ (Z.pred n)) by lia.
  rewrite seqZ_cons by lia. cbn [for_each].
  destruct (body 0 s) as [s1|]; [by exists s1 | discriminate].
Qed.

(** The states [solve_CPU] goes through on a face it can be called on. *)
Lemma solve_CPU_states (face : Face) (projection : mat4) (k : Z) :
  geometry_sized ->
  host_face_ready m_params sparse_features face ->
  exists s : SolveState,
    for_int k
      (fun _ s =>
         solve_CPU_pass m_params sparse_features (v4y (m4c1 projection))
           (shape_basis_map face) (expression_basis_map face)
           (powf F32.ten (regularisation_weight_exponent m_params)) s)
      (initial_state m_params sparse_features face projection) = Some s /\
    host_ready m_params sparse_features (shape_basis_map face)
      (expression_basis_map face) s /\
    shape_basis_map (st_face s) = shape_basis_map face /\
    expression_basis_map (st_face s) = expression_basis_map face.
Proof.
  intros Hgeo [Hf Hv].
  apply (solve_CPU_passes_host (v4y (m4c1 projection)) (shape_basis_map face)
           (expression_basis_map face)
           (powf F32.ten (regularisation_weight_exponent m_params))
           (seqZ 0 k)
           (initial_state m_params sparse_features face projection) Hgeo).
  by apply initial_state_host_ready.
Qed.

(** C8.  In pass [k] of [solve_CPU], for every [k] below the configured
    number of passes, on a face that holds the configured counts of
    coefficients and the vertices and basis rows the prior ids name, the
    Jacobian holds in its regularization rows one entry per regularized
    coefficient: at row [2 * nFeatures + i], column [7 + i], the value
    [(1/sigma_i)^2 * coeff_i * lambda * 2] for shape coefficient [i], with
    [lambda = powf(10, regularisation_weight_exponent)] and [coeff_i],
    [sigma_i] the coefficient at the start of the pass and its standard
    deviation; the same for expression coefficient [i] at row
    [2 * nFeatures + nShape + i], column [7 + nShape + i]; the matching
    residual entries are 0, and every other entry of those rows is 0. *)
Theorem solve_CPU_regularization_block (face : Face) (projection : mat4)
    (k : Z) :
  geometry_sized ->
  host_face_ready m_params sparse_features face ->
  0 <= k < num_gn_iterations m_params ->
  let lambda := powf F32.ten (regularisation_weight_exponent m_params) in
  let pass :=
    solve_CPU_pass m_params sparse_features (v4y (m4c1 projection))
      (shape_basis_map face) (expression_basis_map face) lambda in
  exists s s' : SolveState,
    for_int k (fun _ s => pass s)
      (initial_state m_params sparse_features face projection) = Some s /\
    pass s = Some s' /\
    (forall i, 0 <= i < nShapeCoeffs ->
       mat_get nResiduals (st_jacobian s') (2 * nFeatures + i) (7 + i)
       = ((F32.one / dev (m_shape_std_dev (st_face s)) i)
          * (F32.one / dev (m_shape_std_dev (st_face s)) i)
          * dev (m_shape_coefficients (st_face s)) i * lambda * F32.two)%f32 /\
       dev (st_residuals s') (2 * nFeatures + i) = F32.zero) /\
    (forall i, 0 <= i < nExpressionCoeffs ->
       mat_get nResiduals (st_jacobian s') (2 * nFeatures + nShapeCoeffs + i)
         (7 + nShapeCoeffs + i)
       = ((F32.one / dev (m_expression_std_dev (st_face s)) i)
          * (F32.one / dev (m_expression_std_dev (st_face s)) i)
          * dev (m_expression_coefficients (st_face s)) i * lambda * F32.two)%f32 /\
       dev (st_residuals s') (2 * nFeatures + nShapeCoeffs + i) = F32.zero) /\
    regularization_rows_diagonal nFeatures nResiduals nUnknowns (st_jacobian s') /\
    (sparse_features <> [] ->
     solve_CPU m_params sparse_features face projection
     = outcome_of <$>
         for_int (num_gn_iterations m_params) (fun _ s => pass s)
           (initial_state m_params sparse_features face projection)).
Proof.
  intros Hgeo Hready Hk lambda pass.
  destruct (solve_CPU_states face projection k Hgeo Hready)
    as (s & Hrun & Hs & _).
  destruct (solve_CPU_pass_system (v4y (m4c1 projection)) (shape_basis_map face)
              (expression_basis_map face) lambda s Hgeo Hs)
    as (cf & J & r & _ & Heq & _ & _ & _ & _ & [Hd1 Hd2] & Hdiag).
  cbn zeta in Heq.
  exists s. eexists. split; [exact Hrun|]. split; [exact Heq|].
  cbn [st_jacobian st_residuals].
  split; [exact Hd1|]. split; [exact Hd2|]. split; [exact Hdiag|].
  intros Hne. by apply solve_CPU_nonempty.
Qed.

(** X7.  With a face model that leaves a position for every vertex, a
    feature to track, a pass to run and non-negative counts, every index
    [solve_CPU] writes out stays in range, and the call completes, exactly
    when the face holds the configured numbers of coefficients and standard
    deviations, its vertex count is a size, and every feature has a prior id
    ([prior_local_ids[i]], line 125) that is the index of a vertex
    ([current_face[vertexId]], line 127) whose three rows of the two bases
    can be read through the maps (lines 179 and 183). *)
Theorem solve_CPU_defined_iff (face : Face) (projection : mat4) :
  geometry_sized ->
  sparse_features <> [] ->
  0 < num_gn_iterations m_params ->
  0 <= nShapeCoeffs -> 0 <= nExpressionCoeffs ->
  is_Some (solve_CPU m_params sparse_features face projection)
  <-> host_face_ready m_params sparse_features face.
Proof.
  intros Hgeo Hne Hgn HnS HnE. rewrite solve_CPU_nonempty by exact Hne. split.
  - intros [out Hout].
    destruct (for_int _ _ _) as [s'|] eqn:Hrun; [|discriminate Hout].
    destruct (for_int_first _ _ _ _ Hgn Hrun) as (s1 & Hpass).
    unfold solve_CPU_pass in Hpass.
    destruct (copy_current_face _) as [cf|] eqn:Ecopy; [|discriminate Hpass].
    cbn [mbind option_bind] in Hpass.
    destruct (cpu_sparse_features _ _ _ _ _ _ _ _ _ _ _ _) as [Jr|] eqn:Efeat;
      [|discriminate Hpass].
    cbn [mbind option_bind] in Hpass.
    destruct (cpu_regularizer _ _ _ _ _ _ _ _) as [[J r]|];
      [|discriminate Hpass].
    cbn [mbind option_bind] in Hpass.
    destruct (solve_CPU_apply_step _ _ _ _ _) as [[f p]|] eqn:Estep;
      [|discriminate Hpass].
    rewrite apply_steps_agree in Estep.
    apply apply_step_Some_defined in Estep; [|exact HnS | exact HnE].
    apply copy_current_face_Some in Ecopy as [Hn Hcf].
    split.
    + destruct Estep as (HS & HSd & HE & HEd & _).
      unfold face_ready. cbn in HS, HSd, HE, HEd.
      unfold nShapeCoeffs, nExpressionCoeffs in *. lia.
    + apply (feature_entries_vertices nFeatures nShapeCoeffs nExpressionCoeffs
               sparse_features cf (shape_basis_map face)
               (expression_basis_map face) face
               (jacobian_args m_params sparse_features (v4y (m4c1 projection))
                  (computeFace face) (computeModelMatrix (computeFace face))
                  (computeRotationDerivatives (computeFace face)) projection));
        [exact Hcf|].
      exact (cpu_sparse_features_Some_entries _ _ _ _ _ _ _ _ _ _ _ _ _
               Efeat).
  - intros Hready.
    destruct (solve_CPU_states face projection (num_gn_iterations m_params)
                Hgeo Hready) as (s' & Hrun & _).
    rewrite Hrun. by eexists.
Qed.

(** X12.  With a feature to track, a pass to run and non-negative counts,
    the update step of [solve] stays inside the coefficient vectors, and
    the call completes, exactly when the face holds the configured numbers
    of shape and expression coefficients and standard deviations. *)
Theorem solve_defined_iff (face : Face) (projection : mat4) :
  sparse_features <> [] ->
  0 < num_gn_iterations m_params ->
  0 <= nShapeCoeffs -> 0 <= nExpressionCoeffs ->
  is_Some (solve m_params sparse_features face projection)
  <-> face_ready m_params face.
Proof.
  intros Hne Hgn HnS HnE. rewrite solve_nonempty by exact Hne. split.
  - intros [out Hout].
    destruct (for_int _ _ _) as [s'|] eqn:Hrun; [|discriminate Hout].
    destruct (for_int_first _ _ _ _ Hgn Hrun) as (s1 & Hpass).
    unfold solve_pass in Hpass.
    destruct (computeRegularizer _ _ _ _ _ _) as [J r].
    destruct (solve_apply_step _ _ _ _ _) as [[f p]|] eqn:Estep;
      [|discriminate Hpass].
    apply apply_step_Some_defined in Estep; [|exact HnS | exact HnE].
    destruct Estep as (HS & HSd & HE & HEd & _).
    unfold face_ready. cbn in HS, HSd, HE, HEd.
    unfold nShapeCoeffs, nExpressionCoeffs in *. lia.
  - intros Hf.
    destruct (solve_passes_inv m_params sparse_features (fun _ => True)
                (v4y (m4c1 projection))
                (powf F32.ten (regularisation_weight_exponent m_params))
                (seqZ 0 (num_gn_iterations m_params))
                (initial_state m_params sparse_features face projection))
      as (s' & Hrun & _); [trivial | by apply initial_state_ready | trivial |].
    unfold for_int. rewrite Hrun. by eexists.
Qed.

(** X8.  Whatever [solve] or [solve_CPU] returns, the projection matrix
    differs from the one passed in at most in its entry [0][0]; in
    particular [projection[1][1]], read once before the loop into
    [jacobian_world(1, 1)], is the same in every pass. *)
Theorem drivers_change_only_focal (face : Face) (projection : mat4)
    (out : Outcome) :
  solve m_params sparse_features face projection = Some out \/
  solve_CPU m_params sparse_features face projection = Some out ->
  out_projection out = set_focal projection (focal (out_projection out)) /\
  v4y (m4c1 (out_projection out)) = v4y (m4c1 projection).
Proof.
  assert (forall P : mat4,
            P = set_focal projection (focal P) ->
            v4y (m4c1 P) = v4y (m4c1 projection)) as Hentry.
  { intros P ->. reflexivity. }
  intros Hout.
  assert (out_projection out = set_focal projection (focal (out_projection out)))
    as Hframe; [|split; [exact Hframe | by apply Hentry]].
  destruct (decide (sparse_features = [])) as [Hnil|Hne].
  { rewrite Hnil in Hout. cbn in Hout.
    destruct Hout as [[= <-]|[= <-]]; cbn; by destruct projection as [[]]. }
  rewrite solve_nonempty, solve_CPU_nonempty in Hout by exact Hne.
  destruct Hout as [Hout|Hout].
  - destruct (for_int _ _ _) as [s'|] eqn:Erun; [|discriminate Hout].
    injection Hout as <-. cbn [outcome_of out_projection].
    unfold for_int in Erun.
    refine (for_each_Some_inv
              (fun s => st_projection s
                        = set_focal projection (focal (st_projection s)))
              _ _ _ _ _ _ Erun).
    + intros i s s1 Hs Hpass. apply solve_pass_projection in Hpass.
      rewrite Hpass, Hs. reflexivity.
    + cbn. by destruct projection as [[]].
  - destruct (for_int _ _ _) as [s'|] eqn:Erun; [|discriminate Hout].
    injection Hout as <-. cbn [outcome_of out_projection].
    unfold for_int in Erun.
    refine (for_each_Some_inv
              (fun s => st_projection s
                        = set_focal projection (focal (st_projection s)))
              _ _ _ _ _ _ Erun).
    + intros i s s1 Hs Hpass. apply solve_CPU_pass_projection in Hpass.
      rewrite Hpass, Hs. reflexivity.
    + cbn. by destruct projection as [[]].
Qed.

(** X9.  In pass [k] of [solve_CPU], on a face it can be called on, the
    three [util::copy] calls move whole buffers: the device Jacobian and
    residuals handed to [solveUpdatePCG] are the host system just built,
    the host result is the solver's output, of [nUnknowns] entries, and the
    face and the focal entry are updated from it by the update rule. *)
Theorem solve_CPU_solves_host_system (face : Face) (projection : mat4)
    (k : Z) :
  geometry_sized ->
  host_face_ready m_params sparse_features face ->
  0 <= k < num_gn_iterations m_params ->
  let pass :=
    solve_CPU_pass m_params sparse_features (v4y (m4c1 projection))
      (shape_basis_map face) (expression_basis_map face)
      (powf F32.ten (regularisation_weight_exponent m_params)) in
  exists s s' : SolveState,
    for_int k (fun _ s => pass s)
      (initial_state m_params sparse_features face projection) = Some s /\
    pass s = Some s' /\
    st_jacobian_gpu s' = st_jacobian s' /\
    st_residuals_gpu s' = st_residuals s' /\
    st_result_gpu s'
    = solveUpdatePCG m_params nUnknowns nResiduals (st_jacobian s')
        (F32.of_int 2) (st_residuals s') (st_result_gpu s) (F32.of_int (-1)) /\
    st_result s' = st_result_gpu s' /\
    length (st_result s') = Z.to_nat nUnknowns /\
    st_face s'
    = update_rule nShapeCoeffs nExpressionCoeffs (st_result s')
        (computeFace (st_face s)) /\
    st_projection s'
    = set_focal (st_projection s)
        (focal (st_projection s) - dev (st_result s') 0)%f32.
Proof.
  intros Hgeo Hready Hk pass.
  destruct (solve_CPU_states face projection k Hgeo Hready)
    as (s & Hrun & Hs & _).
  destruct (solve_CPU_pass_system (v4y (m4c1 projection)) (shape_basis_map face)
              (expression_basis_map face)
              (powf F32.ten (regularisation_weight_exponent m_params)) s
              Hgeo Hs)
    as (cf & J & r & _ & Heq & _ & _ & Hlen & _).
  cbn zeta in Heq.
  exists s. eexists. split; [exact Hrun|]. split; [exact Heq|].
  cbn. repeat split. exact Hlen.
Qed.

(** X10.  In pass [k] of [solve_CPU], on a face it can be called on, the
    loop over the features fills rows [2 i] and [2 i + 1] of the Jacobian
    in every one of the [nUnknowns] columns, and entries [2 i] and
    [2 i + 1] of the residuals, with what feature [i] contributes: the pose
    columns and the residual from the vertex its prior id names and its
    observation, the shape and expression columns from the rows of the two
    bases at that vertex.  The four block writes leave no column out, and
    the regularizer does not touch these rows. *)
Theorem solve_CPU_feature_rows (face : Face) (projection : mat4) (k : Z) :
  geometry_sized ->
  host_face_ready m_params sparse_features face ->
  0 <= k < num_gn_iterations m_params ->
  let pass :=
    solve_CPU_pass m_params sparse_features (v4y (m4c1 projection))
      (shape_basis_map face) (expression_basis_map face)
      (powf F32.ten (regularisation_weight_exponent m_params)) in
  exists (s s' : SolveState) (current_face : list vec3),
    for_int k (fun _ s => pass s)
      (initial_state m_params sparse_features face projection) = Some s /\
    pass s = Some s' /\
    copy_current_face (computeFace (st_face s)) = Some current_face /\
    length (st_jacobian s') = Z.to_nat (nResiduals * nUnknowns) /\
    length (st_residuals s') = Z.to_nat nResiduals /\
    feature_rows_built nFeatures nShapeCoeffs nExpressionCoeffs nUnknowns
      nResiduals sparse_features current_face (shape_basis_map face)
      (expression_basis_map face) (computeFace (st_face s))
      (jacobian_args m_params sparse_features (v4y (m4c1 projection))
         (computeFace (st_face s))
         (computeModelMatrix (computeFace (st_face s)))
         (computeRotationDerivatives (computeFace (st_face s)))
         (st_projection s))
      (st_jacobian s') (st_residuals s').
Proof.
  intros Hgeo Hready Hk pass.
  destruct (solve_CPU_states face projection k Hgeo Hready)
    as (s & Hrun & Hs & _).
  destruct (solve_CPU_pass_system (v4y (m4c1 projection)) (shape_basis_map face)
              (expression_basis_map face)
              (powf F32.ten (regularisation_weight_exponent m_params)) s
              Hgeo Hs)
    as (cf & J & r & Hcopy & Heq & HJ & Hr & _ & Hb & _).
  cbn zeta in Heq.
  exists s. eexists. exists cf. split; [exact Hrun|]. split; [exact Heq|].
  split; [exact Hcopy|].
  cbn. split; [exact HJ|]. split; [exact Hr|]. exact Hb.
Qed.

(** Two ready states with the same face and projection stay in step. *)
Lemma solve_CPU_pass_sync (jacobian_world_11 : float)
    (shape_basis expression_basis : MatrixMap) (wReg : float)
    (s1 s2 : SolveState) :
  geometry_sized ->
  host_ready m_params sparse_features shape_basis expression_basis s1 ->
  host_ready m_params sparse_features shape_basis expression_basis s2 ->
  st_face s1 = st_face s2 ->
  st_projection s1 = st_projection s2 ->
  exists (s1' s2' : SolveState) (events : list Event),
    solve_CPU_pass m_params sparse_features jacobian_world_11 shape_basis
      expression_basis wReg s1 = Some s1' /\
    solve_CPU_pass m_params sparse_features jacobian_world_11 shape_basis
      expression_basis wReg s2 = Some s2' /\
    (st_face s1' = st_face s2' /\
     st_projection s1' = st_projection s2' /\
     st_jacobian s1' = st_jacobian s2' /\
     st_residuals s1' = st_residuals s2' /\
     st_jacobian_gpu s1' = st_jacobian_gpu s2' /\
     st_residuals_gpu s1' = st_residuals_gpu s2' /\
     st_result_gpu s1' = st_result_gpu s2' /\
     st_result s1' = st_result s2') /\
    st_log s1' = st_log s1 ++ events /\
    st_log s2' = st_log s2 ++ events.
Proof.
  intros Hgeo Hs1 Hs2 Hface Hproj.
  destruct (solve_CPU_pass_system jacobian_world_11 shape_basis
              expression_basis wReg s1 Hgeo Hs1)
    as (cf1 & J1 & r1 & Hc1 & Heq1 & HJ1 & Hr1 & _ & Hb1 & Hg1 & Hd1).
  destruct (solve_CPU_pass_system jacobian_world_11 shape_basis
              expression_basis wReg s2 Hgeo Hs2)
    as (cf2 & J2 & r2 & Hc2 & Heq2 & HJ2 & Hr2 & _ & Hb2 & Hg2 & Hd2).
  cbn zeta in Heq1, Heq2.
  rewrite Hface, Hc2 in Hc1. injection Hc1 as <-.
  assert (J1 = J2 /\ r1 = r2) as [-> ->].
  { unfold args_of in Hb1, Hb2. rewrite Hface, Hproj in Hb1. rewrite Hface in Hg1.
    destruct Hs2 as ((HS & _ & HE & _) & _ & _).
    eapply (host_system_unique nResiduals nUnknowns nFeatures nShapeCoeffs
              nExpressionCoeffs);
      [ | | | reflexivity | reflexivity
      | exact HJ1 | exact HJ2 | exact Hr1 | exact Hr2
      | exact Hb1 | exact Hb2 | exact Hg1 | exact Hg2 | exact Hd1 | exact Hd2 ];
      unfold nFeatures, nShapeCoeffs, nExpressionCoeffs; lia. }
  assert (solveUpdatePCG m_params nUnknowns nResiduals J2 (F32.of_int 2) r2
            (st_result_gpu s1) (F32.of_int (-1))
          = solveUpdatePCG m_params nUnknowns nResiduals J2 (F32.of_int 2) r2
              (st_result_gpu s2) (F32.of_int (-1))) as Hres.
  { destruct Hs1 as (_ & _ & (_ & _ & _ & _ & Hx1 & _) & _).
    destruct Hs2 as (_ & _ & (_ & _ & _ & _ & Hx2 & _) & _).
    unfold solveUpdatePCG, solveUpdatePCG_state, pcg_init, memset0.
    by rewrite Hx1, Hx2. }
  rewrite Hres, Hface, Hproj in Heq1.
  eexists. eexists. eexists. split; [exact Heq1|]. split; [exact Heq2|].
  cbn. repeat split.
Qed.

(** The same for any number of passes. *)
Lemma solve_CPU_passes_sync (jacobian_world_11 : float)
    (shape_basis expression_basis : MatrixMap) (wReg : float)
    (idx1 idx2 : list Z) (s1 s2 : SolveState) :
  geometry_sized ->
  length idx1 = length idx2 ->
  host_ready m_params sparse_features shape_basis expression_basis s1 ->
  host_ready m_params sparse_features shape_basis expression_basis s2 ->
  st_face s1 = st_face s2 ->
  st_projection s1 = st_projection s2 ->
  exists (s1' s2' : SolveState) (events : list Event),
    for_each (fun _ s => solve_CPU_pass m_params sparse_features
                           jacobian_world_11 shape_basis expression_basis
                           wReg s) idx1 s1 = Some s1' /\
    for_each (fun _ s => solve_CPU_pass m_params sparse_features
                           jacobian_world_11 shape_basis expression_basis
                           wReg s) idx2 s2 = Some s2' /\
    st_face s1' = st_face s2' /\
    st_projection s1' = st_projection s2' /\
    st_log s1' = st_log s1 ++ events /\
    st_log s2' = st_log s2 ++ events.
Proof.
  intros Hgeo. revert idx2 s1 s2.
  induction idx1 as [|i idx1 IH]; intros [|j idx2] s1 s2 Hlen Hs1 Hs2 Hf Hp;
    try discriminate Hlen.
  - exists s1, s2, []. rewrite !app_nil_r. auto 10.
  - destruct (solve_CPU_pass_sync jacobian_world_11 shape_basis
                expression_basis wReg s1 s2 Hgeo Hs1 Hs2 Hf Hp)
      as (t1 & t2 & ev & Hp1 & Hp2 & (Hf' & Hp' & _) & Hl1 & Hl2).
    destruct (IH idx2 t1 t2) as (s1' & s2' & evs & Hr1 & Hr2 & Hf'' & Hp'' & Hl1' & Hl2');
      [ by injection Hlen
      | by apply (solve_CPU_pass_host_ready _ _ _ _ _ _ Hgeo Hs1 Hp1)
      | by apply (solve_CPU_pass_host_ready _ _ _ _ _ _ Hgeo Hs2 Hp2)
      | exact Hf' | exact Hp' |].
    exists s1', s2', (ev ++ evs). cbn [for_each].
    rewrite Hp1, Hp2. cbn [mbind option_bind].
    split; [exact Hr1|]. split; [exact Hr2|].
    split; [exact Hf''|]. split; [exact Hp''|].
    rewrite Hl1', Hl2', Hl1, Hl2, !app_assoc. auto.
Qed.

(** [solve_CPU] does not read the number of passes anywhere but in the
    header of its loop. *)
Lemma solve_CPU_with_passes (n : Z) (face : Face) (projection : mat4) :
  sparse_features <> [] ->
  solve_CPU (with_gn_iterations m_params n) sparse_features face projection
  = outcome_of <$>
      for_each
        (fun _ s =>
           solve_CPU_pass m_params sparse_features (v4y (m4c1 projection))
             (shape_basis_map face) (expression_basis_map face)
             (powf F32.ten (regularisation_weight_exponent m_params)) s)
        (seqZ 0 n)
        (initial_state m_params sparse_features face projection).
Proof.
  intros Hne. unfold solve_CPU.
  destruct sparse_features; [congruence | reflexivity].
Qed.

(** X11.  A pass of [solve_CPU] takes nothing from the buffers but their
    sizes: from two ready states with the same face and projection it
    leaves the same face, projection, host and device Jacobian and
    residuals, and result, whatever the six buffers held before.  What the
    pass does not write, the regularization rows off the diagonal, is zero
    in both. *)
Theorem solve_CPU_pass_forgets_buffers (jacobian_world_11 : float)
    (shape_basis expression_basis : MatrixMap) (wReg : float)
    (s1 s2 : SolveState) :
  geometry_sized ->
  host_ready m_params sparse_features shape_basis expression_basis s1 ->
  host_ready m_params sparse_features shape_basis expression_basis s2 ->
  st_face s1 = st_face s2 ->
  st_projection s1 = st_projection s2 ->
  exists s1' s2' : SolveState,
    solve_CPU_pass m_params sparse_features jacobian_world_11 shape_basis
      expression_basis wReg s1 = Some s1' /\
    solve_CPU_pass m_params sparse_features jacobian_world_11 shape_basis
      expression_basis wReg s2 = Some s2' /\
    st_face s1' = st_face s2' /\
    st_projection s1' = st_projection s2' /\
    st_jacobian s1' = st_jacobian s2' /\
    st_residuals s1' = st_residuals s2' /\
    st_jacobian_gpu s1' = st_jacobian_gpu s2' /\
    st_residuals_gpu s1' = st_residuals_gpu s2' /\
    st_result_gpu s1' = st_result_gpu s2' /\
    st_result s1' = st_result s2'.
Proof.
  intros Hgeo Hs1 Hs2 Hface Hproj.
  destruct (solve_CPU_pass_sync jacobian_world_11 shape_basis expression_basis
              wReg s1 s2 Hgeo Hs1 Hs2 Hface Hproj)
    as (s1' & s2' & ev & Hp1 & Hp2 & Heqs & _).
  exists s1', s2'. split; [exact Hp1|]. split; [exact Hp2|]. exact Heqs.
Qed.

(** X13.  [solve_CPU] can be resumed: on a face it can be called on, a call
    with [n1 + n2] passes leaves the face and the projection that a call
    with [n1] passes followed by a call with [n2] passes on its result
    leaves.  Nothing is carried from pass to pass but the face and the
    focal entry: the buffers are rebuilt in every pass, [projection[1][1]],
    read once per call, is never written, and the dimensions of the two
    basis maps, taken once per call, do not change. *)
Theorem solve_CPU_resumes (n1 n2 : Z) (face : Face) (projection : mat4) :
  geometry_sized ->
  host_face_ready m_params sparse_features face ->
  0 <= n1 -> 0 <= n2 ->
  exists out1 out2 out12 : Outcome,
    solve_CPU (with_gn_iterations m_params n1) sparse_features face projection
    = Some out1 /\
    solve_CPU (with_gn_iterations m_params n2) sparse_features
      (out_face out1) (out_projection out1) = Some out2 /\
    solve_CPU (with_gn_iterations m_params (n1 + n2)) sparse_features face
      projection = Some out12 /\
    out_face out12 = out_face out2 /\
    out_projection out12 = out_projection out2.
Proof.
  intros Hgeo Hready Hn1 Hn2.
  destruct (decide (sparse_features = [])) as [Hnil|Hne].
  { exists (MkOutcome face projection []), (MkOutcome face projection []),
      (MkOutcome face projection []).
    rewrite Hnil. cbn. auto 10. }
  set (wReg := powf F32.ten (regularisation_weight_exponent m_params)).
  destruct (solve_CPU_states face projection n1 Hgeo Hready)
    as (s1 & Hrun1 & Hs1 & Hm1 & Hm2).
  fold wReg in Hrun1. unfold for_int in Hrun1.
  assert (st_projection s1 = set_focal projection (focal (st_projection s1)))
    as Hframe.
  { refine (for_each_Some_inv
              (fun s => st_projection s
                        = set_focal projection (focal (st_projection s)))
              _ _ _ _ _ _ Hrun1).
    - intros i s s' Hs Hpass. apply solve_CPU_pass_projection in Hpass.
      rewrite Hpass, Hs. reflexivity.
    - cbn. by destruct projection as [[]]. }
  assert (v4y (m4c1 (st_projection s1)) = v4y (m4c1 projection)) as Hjw
    by (rewrite Hframe; reflexivity).
  destruct (solve_CPU_passes_sync (v4y (m4c1 projection)) (shape_basis_map face)
              (expression_basis_map face) wReg
              (seqZ (0 + n1) n2) (seqZ 0 n2) s1
              (initial_state m_params sparse_features (st_face s1)
                 (st_projection s1)) Hgeo)
    as (s12 & s2 & ev & Hrun12 & Hrun2 & Hface & Hproj & _);
    [ by rewrite !length_seqZ
    | exact Hs1
    | apply initial_state_host_ready; [apply Hs1 | apply Hs1]
    | reflexivity | reflexivity |].
  exists (outcome_of s1), (outcome_of s2), (outcome_of s12).
  rewrite !solve_CPU_with_passes by exact Hne.
  fold wReg. cbn [outcome_of out_face out_projection out_log].
  rewrite Hjw, Hm1, Hm2, Hrun1, Hrun2.
  rewrite seqZ_app, for_each_app, Hrun1 by lia. cbn [mbind option_bind].
  rewrite Hrun12. cbn [fmap option_fmap option_map].
  split; [reflexivity|]. split; [reflexivity|]. split; [reflexivity|].
  cbn [outcome_of out_face out_projection out_log].
  split; [exact Hface | exact Hproj].
Qed.

End Host_system.
(* ================================================================== *)
(** ** The statements at concrete inputs *)

Section Concrete.
#[local] Existing Instances Demo.blas Demo.face_model Demo.kernels
  Demo.host_algebra Demo.prior Demo.libm.

(** The hypotheses of a statement followed by its conclusion, as one
    conjunction. *)
Ltac instance_statement thm :=
  let T := type of thm in
  let rec conj_of T :=
    lazymatch T with
    | ?A -> ?B => let B' := conj_of B in constr:(A /\ B')
    | _ => T
    end in
  let S := conj_of T in
  exact S.

(** A raw update of [0.5 - 0.8] ends at 0 for the expression coefficient,
    while the shape coefficient keeps its raw [0.5 + 0.9]. *)
Example apply_step_clamps_low :
  raw_update (Demo.ratio 1 2) (Demo.ratio 8 10) F32.one = Demo.ratio (-3) 10 /\
  exists face' P',
    solve_apply_step 1 1 Demo.delta_low Demo.face Demo.identity4
    = Some (face', P') /\
    m_expression_coefficients face' = [F32.zero] /\
    m_shape_coefficients face' = [Demo.ratio 14 10].
Proof.
  split; [vm_compute; reflexivity|].
  do 2 eexists. split; [vm_compute; reflexivity|]. split; reflexivity.
Qed.

(** A raw update of [0.5 + 0.9] ends at 1. *)
Example apply_step_clamps_high :
  raw_update (Demo.ratio 1 2) (Demo.ratio (-9) 10) F32.one = Demo.ratio 14 10 /\
  exists face' P',
    solve_apply_step 1 1 Demo.delta_high Demo.face Demo.identity4
    = Some (face', P') /\
    m_expression_coefficients face' = [F32.one].
Proof.
  split; [vm_compute; reflexivity|].
  do 2 eexists. split; [vm_compute; reflexivity|]. reflexivity.
Qed.

(** A raw update that is not a number ends at 1 as well. *)
Example unit_clamp_nan : unit_clamp S754_nan = F32.one.
Proof. reflexivity. Qed.

(** With a shorter delta the step reads outside the vector. *)
Example apply_step_short_delta :
  solve_apply_step 1 1 (replicate 8 F32.zero) Demo.face Demo.identity4 = None.
Proof. vm_compute. reflexivity. Qed.

(** PCG on the 2 x 2 identity with residual [(1, 1)] and the multipliers
    [(2, -1)]: one pass reaches [x = (-0.5, -0.5)] and leaves through
    [break]. *)
Example pcg_identity_system :
  let s :=
    solveUpdatePCG_state Demo.params 2 2 [F32.one; F32.zero; F32.zero; F32.one]
      (F32.of_int 2) [F32.one; F32.one] [F32.zero; F32.zero] (F32.of_int (-1)) in
  pcg_x s = [Demo.ratio (-1) 2; Demo.ratio (-1) 2] /\
  pcg_entered s = 1%nat /\ pcg_broke s = true /\ pcg_divisors s = [F32.one].
Proof. vm_compute. repeat split; reflexivity. Qed.

(** Two configured passes leave two groups of seven events. *)
Example solve_demo_log :
  exists out,
    solve Demo.params Demo.features Demo.face Demo.identity4 = Some out /\
    length (out_log out) = 14%nat.
Proof. eexists. split; [vm_compute; reflexivity | reflexivity]. Qed.

Lemma demo_state_ready :
  update_ready (num_shape_coefficients Demo.params)
    (num_expression_coefficients Demo.params) (st_result Demo.state)
    (st_face Demo.state).
Proof.
  unfold update_ready.
  repeat split; vm_compute; (reflexivity || (intros Hc; discriminate Hc)).
Defined.

Lemma demo_face_ready : face_ready Demo.params Demo.face.
Proof.
  unfold face_ready.
  repeat split; vm_compute; (reflexivity || (intros Hc; discriminate Hc)).
Defined.

(** [solve_pass_update_rule] at the initial state of the demo: its
    hypothesis holds there, and so does its conclusion. *)
Lemma solve_pass_update_rule_witness :
  ltac:(instance_statement
          (solve_pass_update_rule Demo.params Demo.features F32.one F32.one
             Demo.state)).
Proof.
  split; [exact demo_state_ready|].
  apply (solve_pass_update_rule Demo.params Demo.features F32.one F32.one
           Demo.state).
  exact demo_state_ready.
Defined.

(** [solve_pass_expression_bounds] at the initial state of the demo. *)
Lemma solve_pass_expression_bounds_witness :
  ltac:(instance_statement
          (solve_pass_expression_bounds Demo.params Demo.features F32.one
             F32.one Demo.state)).
Proof.
  split; [exact demo_state_ready|].
  apply (solve_pass_expression_bounds Demo.params Demo.features F32.one
           F32.one Demo.state).
  exact demo_state_ready.
Defined.

(** [solve_runs_all_passes] on the demo input: one feature, two passes. *)
Lemma solve_runs_all_passes_witness :
  ltac:(instance_statement
          (solve_runs_all_passes Demo.params Demo.features Demo.face
             Demo.identity4)).
Proof.
  split; [discriminate|]. split; [exact demo_face_ready|].
  apply (solve_runs_all_passes Demo.params Demo.features Demo.face
           Demo.identity4); [discriminate | exact demo_face_ready].
Defined.

(** [solve_without_iterations] on the demo input with no pass configured. *)
Lemma solve_without_iterations_witness :
  num_gn_iterations Demo.params_off <= 0 /\
  solve Demo.params_off Demo.features Demo.face Demo.identity4
  = Some (MkOutcome Demo.face Demo.identity4 []) /\
  solve_CPU Demo.params_off Demo.features Demo.face Demo.identity4
  = Some (MkOutcome Demo.face Demo.identity4 []).
Proof.
  assert (num_gn_iterations Demo.params_off <= 0) as Hn
    by (vm_compute; intros Hc; discriminate Hc).
  split; [exact Hn|].
  apply (solve_without_iterations Demo.params_off Demo.features Demo.face
           Demo.identity4).
  exact Hn.
Defined.

(** [update_steps_coincide] on the demo face and a delta of nine entries. *)
Lemma update_steps_coincide_witness :
  update_ready 1 1 Demo.delta_low Demo.face /\
  solve_CPU_apply_step 1 1 Demo.delta_low Demo.face Demo.identity4
  = solve_apply_step 1 1 Demo.delta_low Demo.face Demo.identity4 /\
  solve_apply_step 1 1 Demo.delta_low Demo.face Demo.identity4
  = Some (update_rule 1 1 Demo.delta_low Demo.face,
          set_focal Demo.identity4
            (focal Demo.identity4 - dev Demo.delta_low 0)%f32).
Proof.
  assert (update_ready 1 1 Demo.delta_low Demo.face) as Hr
    by (unfold update_ready;
        repeat split; vm_compute; (reflexivity || (intros Hc; discriminate Hc))).
  split; [exact Hr|].
  destruct (update_steps_coincide 1 1 Demo.delta_low Demo.face Demo.identity4)
    as [Heq Hrule].
  split; [exact Heq | exact (proj2 (Hrule Hr))].
Defined.

Lemma demo_geometry_sized : geometry_sized.
Proof.
  intros f. cbn [face_geometry Demo.face_model].
  rewrite length_replicate. lia.
Defined.

Lemma demo_host_face_ready :
  host_face_ready Demo.params Demo.features Demo.face.
Proof.
  split; [exact demo_face_ready|].
  split; [vm_compute; intros Hc; discriminate Hc|].
  intros i Hi. assert (i = 0) as -> by (cbn in Hi; lia).
  exists 0. split; [reflexivity|].
  split; [split; vm_compute; (reflexivity || (intros Hc; discriminate Hc))|].
  split; vm_compute; eexists; reflexivity.
Defined.

Lemma demo_second_pass : 0 <= 1 < num_gn_iterations Demo.params.
Proof. split; vm_compute; (reflexivity || (intros Hc; discriminate Hc)). Defined.

(** [solve_CPU_regularization_block] for the second pass on the demo
    input. *)
Lemma solve_CPU_regularization_block_witness :
  ltac:(instance_statement
          (solve_CPU_regularization_block Demo.params Demo.features Demo.face
             Demo.identity4 1)).
Proof.
  split; [exact demo_geometry_sized|]. split; [exact demo_host_face_ready|].
  split; [exact demo_second_pass|].
  exact (solve_CPU_regularization_block Demo.params Demo.features Demo.face
           Demo.identity4 1 demo_geometry_sized demo_host_face_ready
           demo_second_pass).
Defined.

(** [cg_divisors_floored] with the floor of the demo, which is positive:
    a zero value is replaced by a divisor that is not a zero and is at
    least the floor. *)
Lemma cg_divisors_floored_witness :
  F32.ltb F32.zero (kNearZero Demo.params) = true /\
  F32.is_zero (F32.std_max F32.zero (kNearZero Demo.params)) = false /\
  F32.leb (kNearZero Demo.params)
    (F32.std_max F32.zero (kNearZero Demo.params)) = true.
Proof.
  assert (F32.ltb F32.zero (kNearZero Demo.params) = true) as Heps
    by (vm_compute; reflexivity).
  assert (F32.zero <> S754_nan) as Hz by discriminate.
  assert (kNearZero Demo.params <> S754_nan) as He
    by (vm_compute; discriminate).
  pose proof (proj2 (proj2
                (cg_divisors_floored Demo.params 2 2
                   [F32.one; F32.zero; F32.zero; F32.one] (F32.of_int 2)))
                F32.zero) as (_ & Hge & Hnz).
  split; [exact Heps|]. split; [exact (Hnz Heps) | exact (Hge Hz He)].
Defined.

(** [update_step_defined_iff] on the demo face and a delta of nine
    entries. *)
Lemma update_step_defined_iff_witness :
  ltac:(instance_statement
          (update_step_defined_iff 1 1 Demo.delta_low Demo.face Demo.identity4)).
Proof.
  assert (0 <= 1) as H01 by lia.
  split; [exact H01|]. split; [exact H01|].
  exact (update_step_defined_iff 1 1 Demo.delta_low Demo.face Demo.identity4
           H01 H01).
Defined.

(** [update_step_frame] on the demo face: the step returns there. *)
Lemma update_step_frame_witness :
  ltac:(instance_statement
          (update_step_frame 1 1 Demo.delta_low Demo.face
             (update_rule 1 1 Demo.delta_low Demo.face) Demo.identity4
             (set_focal Demo.identity4
                (focal Demo.identity4 - dev Demo.delta_low 0)%f32))).
Proof.
  assert (solve_apply_step 1 1 Demo.delta_low Demo.face Demo.identity4
          = Some (update_rule 1 1 Demo.delta_low Demo.face,
                  set_focal Demo.identity4
                    (focal Demo.identity4 - dev Demo.delta_low 0)%f32)) as Hrun
    by (vm_compute; reflexivity).
  split; [exact Hrun|].
  exact (update_step_frame 1 1 Demo.delta_low Demo.face _ Demo.identity4 _ Hrun).
Defined.

(** [update_step_order_independent] with both loops of a face of two
    coefficients taken backwards. *)
Lemma update_step_order_independent_witness :
  ltac:(instance_statement
          (update_step_order_independent [1; 0] [1; 0] 2 2 Demo.delta2
             Demo.face2 Demo.identity4)).
Proof.
  assert ([1; 0] ≡ₚ seqZ 0 2) as Hp by apply perm_swap.
  split; [exact Hp|]. split; [exact Hp|].
  exact (update_step_order_independent [1; 0] [1; 0] 2 2 Demo.delta2
           Demo.face2 Demo.identity4 Hp Hp).
Defined.

(** [solvers_ignore_incoming_x] on the 2 x 2 identity system with two
    different buffers. *)
Lemma solvers_ignore_incoming_x_witness :
  ltac:(instance_statement
          (solvers_ignore_incoming_x Demo.params 2 2
             [F32.one; F32.zero; F32.zero; F32.one] (F32.of_int 2)
             [F32.one; F32.one] [F32.zero; F32.zero] [F32.one; F32.two]
             (F32.of_int (-1)))).
Proof.
  assert (Z.to_nat 2 <= length [F32.zero; F32.zero])%nat as Hn
    by (vm_compute; lia).
  assert (length [F32.one; F32.two] = length [F32.zero; F32.zero]) as Hl
    by reflexivity.
  split; [exact Hn|]. split; [exact Hl|].
  exact (solvers_ignore_incoming_x Demo.params 2 2
           [F32.one; F32.zero; F32.zero; F32.one] (F32.of_int 2)
           [F32.one; F32.one] [F32.zero; F32.zero] [F32.one; F32.two]
           (F32.of_int (-1)) Hn Hl).
Defined.

Lemma demo_features_nonempty : Demo.features <> [].
Proof. discriminate. Defined.

Lemma demo_passes_positive : 0 < num_gn_iterations Demo.params.
Proof. reflexivity. Defined.

Lemma demo_shape_count : 0 <= num_shape_coefficients Demo.params.
Proof. vm_compute. intros Hc. discriminate Hc. Defined.

Lemma demo_expression_count : 0 <= num_expression_coefficients Demo.params.
Proof. vm_compute. intros Hc. discriminate Hc. Defined.

(** [solve_frozen_without_inner_budget] on the demo input with
    [num_pcg_iterations = 0]. *)
Lemma solve_frozen_without_inner_budget_witness :
  ltac:(instance_statement
          (solve_frozen_without_inner_budget Demo.params_frozen Demo.features
             Demo.face Demo.identity4)).
Proof.
  assert (face_ready Demo.params_frozen Demo.face) as Hf
    by (unfold face_ready;
        repeat split; vm_compute; (reflexivity || (intros Hc; discriminate Hc))).
  assert (num_pcg_iterations Demo.params_frozen <= 0) as Hb
    by (vm_compute; intros Hc; discriminate Hc).
  split; [exact demo_features_nonempty|]. split; [exact Hf|]. split; [exact Hb|].
  exact (solve_frozen_without_inner_budget Demo.params_frozen Demo.features
           Demo.face Demo.identity4 demo_features_nonempty Hf Hb).
Defined.

(** [solve_CPU_defined_iff] on the demo input. *)
Lemma solve_CPU_defined_iff_witness :
  ltac:(instance_statement
          (solve_CPU_defined_iff Demo.params Demo.features Demo.face
             Demo.identity4)).
Proof.
  split; [exact demo_geometry_sized|].
  split; [exact demo_features_nonempty|]. split; [exact demo_passes_positive|].
  split; [exact demo_shape_count|]. split; [exact demo_expression_count|].
  exact (solve_CPU_defined_iff Demo.params Demo.features Demo.face
           Demo.identity4 demo_geometry_sized demo_features_nonempty
           demo_passes_positive demo_shape_count demo_expression_count).
Defined.

(** [solve_defined_iff] on the demo input. *)
Lemma solve_defined_iff_witness :
  ltac:(instance_statement
          (solve_defined_iff Demo.params Demo.features Demo.face
             Demo.identity4)).
Proof.
  split; [exact demo_features_nonempty|]. split; [exact demo_passes_positive|].
  split; [exact demo_shape_count|]. split; [exact demo_expression_count|].
  exact (solve_defined_iff Demo.params Demo.features Demo.face
           Demo.identity4 demo_features_nonempty demo_passes_positive
           demo_shape_count demo_expression_count).
Defined.

(** [drivers_change_only_focal] at what [solve] returns on the demo input. *)
Lemma drivers_change_only_focal_witness :
  ltac:(instance_statement
          (drivers_change_only_focal Demo.params Demo.features Demo.face
             Demo.identity4
             (default (MkOutcome Demo.face Demo.identity4 [])
                (solve Demo.params Demo.features Demo.face Demo.identity4)))).
Proof.
  assert (solve Demo.params Demo.features Demo.face Demo.identity4
          = Some (default (MkOutcome Demo.face Demo.identity4 [])
                    (solve Demo.params Demo.features Demo.face Demo.identity4)))
    as Hrun by (vm_compute; reflexivity).
  split; [left; exact Hrun|].
  exact (drivers_change_only_focal Demo.params Demo.features Demo.face
           Demo.identity4 _ (or_introl Hrun)).
Defined.

(** [solve_CPU_solves_host_system] for the second pass on the demo input. *)
Lemma solve_CPU_solves_host_system_witness :
  ltac:(instance_statement
          (solve_CPU_solves_host_system Demo.params Demo.features Demo.face
             Demo.identity4 1)).
Proof.
  split; [exact demo_geometry_sized|]. split; [exact demo_host_face_ready|].
  split; [exact demo_second_pass|].
  exact (solve_CPU_solves_host_system Demo.params Demo.features Demo.face
           Demo.identity4 1 demo_geometry_sized demo_host_face_ready
           demo_second_pass).
Defined.

(** [solve_CPU_feature_rows] for the second pass on the demo input. *)
Lemma solve_CPU_feature_rows_witness :
  ltac:(instance_statement
          (solve_CPU_feature_rows Demo.params Demo.features Demo.face
             Demo.identity4 1)).
Proof.
  split; [exact demo_geometry_sized|]. split; [exact demo_host_face_ready|].
  split; [exact demo_second_pass|].
  exact (solve_CPU_feature_rows Demo.params Demo.features Demo.face
           Demo.identity4 1 demo_geometry_sized demo_host_face_ready
           demo_second_pass).
Defined.

Lemma demo_state_host_ready :
  host_ready Demo.params Demo.features (shape_basis_map Demo.face)
    (expression_basis_map Demo.face) Demo.state.
Proof.
  exact (initial_state_host_ready Demo.params Demo.features _ _ Demo.face
           Demo.identity4 demo_face_ready (proj2 demo_host_face_ready)).
Defined.

Lemma demo_state_dirty_host_ready :
  host_ready Demo.params Demo.features (shape_basis_map Demo.face)
    (expression_basis_map Demo.face) Demo.state_dirty.
Proof.
  split; [exact demo_face_ready|].
  split; [exact (proj2 demo_host_face_ready)|]. split.
  - unfold buffers_sized. repeat split; vm_compute; reflexivity.
  - exact (zero_jacobian_diagonal _ _ _ 36).
Defined.

(** [solve_CPU_pass_forgets_buffers] at the initial state of the demo and
    at the same state with other contents in its buffers. *)
Lemma solve_CPU_pass_forgets_buffers_witness :
  ltac:(instance_statement
          (solve_CPU_pass_forgets_buffers Demo.params Demo.features F32.one
             (shape_basis_map Demo.face) (expression_basis_map Demo.face)
             F32.one Demo.state Demo.state_dirty)).
Proof.
  split; [exact demo_geometry_sized|]. split; [exact demo_state_host_ready|].
  split; [exact demo_state_dirty_host_ready|].
  split; [reflexivity|]. split; [reflexivity|].
  exact (solve_CPU_pass_forgets_buffers Demo.params Demo.features F32.one
           (shape_basis_map Demo.face) (expression_basis_map Demo.face)
           F32.one Demo.state Demo.state_dirty demo_geometry_sized
           demo_state_host_ready demo_state_dirty_host_ready eq_refl eq_refl).
Defined.

(** [solve_CPU_resumes] on the demo input: one pass and one more against
    two passes. *)
Lemma solve_CPU_resumes_witness :
  ltac:(instance_statement
          (solve_CPU_resumes Demo.params Demo.features 1 1 Demo.face
             Demo.identity4)).
Proof.
  assert (0 <= 1) as H01 by lia.
  split; [exact demo_geometry_sized|]. split; [exact demo_host_face_ready|].
  split; [exact H01|]. split; [exact H01|].
  exact (solve_CPU_resumes Demo.params Demo.features 1 1 Demo.face
           Demo.identity4 demo_geometry_sized demo_host_face_ready H01 H01).
Defined.

End Concrete.
